(** * kids-chess: the rules engine of [main.js], embedded and verified

    The development follows the source top-down: the coordinate system
    ([parseSquare], [toSquare], [squaresAreAdjacent], [allSquares]), the
    board (a JavaScript [Map], kept as an association list in insertion
    order), the methods of [ChessGame] and the position generator.

    Modelling conventions.
    - Square identifiers are strings, as in the source.  The string builtins
      the source calls ([trim], [toUpperCase], [Number]) are an interface
      ([JsString]); the few facts about them that a proof needs are the
      class [JsStringLaws].
    - Piece types and colours are the canonical tokens ["k" "q" "r" "b" "n"]
      and ["w" "b"] that [setPieceAt] and [generateStartingPosition] write to
      a board; on canonical tokens [normalizePieceType] and [normalizeColor]
      are the identity, so they do not appear.
    - A JavaScript exception, a [while (true)] loop that has not left after
      its fuel, and an [undefined] square are the three constructors of
      [failure]; code that can meet one lives in the [result] monad.
    - The board-size tables [FILES] and [RANKS] are process-wide variables in
      the source; here they are the explicit [Config] argument.
    - [Math.random()] returns a double; the product in [randomInt] is rounded
      to 53 bits as the floating-point multiplication of the source does. *)

From Stdlib Require Import ZArith List String Ascii Bool Lia.
From Stdlib Require Import DecimalString ZifyBool Zquot.
Import ListNotations.
Open Scope string_scope.
Open Scope list_scope.
Open Scope Z_scope.

(** ** The result monad *)

Inductive failure : Type :=
| TypeError        (* a property read on [undefined] *)
| OutOfFuel        (* a [while (true)] loop still running when its fuel ends *)
| UndefinedSquare. (* [pickRandom] on an empty array *)

Inductive result (A : Type) : Type :=
| Ok (a : A)
| Fail (e : failure).
Arguments Ok {A} a.
Arguments Fail {A} e.

Definition bind {A B : Type} (m : result A) (k : A -> result B) : result B :=
  match m with
  | Ok a => k a
  | Fail e => Fail e
  end.

Notation "x <- m ;; k" := (bind m (fun x => k))
  (at level 61, m at next level, right associativity).

Definition mapResult {A B : Type} (f : A -> B) (m : result A) : result B :=
  match m with
  | Ok a => Ok (f a)
  | Fail e => Fail e
  end.

(** ** JavaScript string builtins *)

(** [Number s] is [None] when the builtin yields [NaN] or a value that is not
    an integer; [RANKS.includes] rejects both alike. *)
Class JsString : Type := {
  trim : string -> string;
  toUpperCase : string -> string;
  Number : string -> option Z
}.

(** [String(n)] for an integer [n], as the template literal of [toSquare]
    prints a rank. *)
Definition numberToString (n : Z) : string :=
  NilZero.string_of_int (Z.to_int n).

Definition isUpperLetter (c : ascii) : bool :=
  let n := nat_of_ascii c in ((65 <=? n) && (n <=? 90))%nat.

Definition isDigitChar (c : ascii) : bool :=
  let n := nat_of_ascii c in ((48 <=? n) && (n <=? 57))%nat.

(** What the proofs use of the builtins: an upper-case letter followed by a
    digit has no blank to trim and no letter to raise, and a one-digit
    numeral reads back as its value. *)
Class JsStringLaws (js : JsString) : Prop := {
  normal_square_text : forall f d : ascii,
    isUpperLetter f = true -> isDigitChar d = true ->
    toUpperCase (trim (String f (String d ""))) = String f (String d "");
  Number_digit : forall n : Z,
    0 <= n < 10 -> Number (numberToString n) = Some n
}.

(** An instance on plain ASCII text, used to run the model on examples.
    Its [Number] reads a run of decimal digits only, where the builtin also
    takes blanks, a sign, a fraction, an exponent and the hexadecimal, octal
    and binary forms: it stands for the builtins on texts made of letters
    and digits, which is where the examples use it.  The theorems are stated
    for an arbitrary [JsString]. *)
Definition isBlank (c : ascii) : bool :=
  let n := nat_of_ascii c in (((9 <=? n) && (n <=? 13)) || (n =? 32))%nat.

Fixpoint trimStart (s : string) : string :=
  match s with
  | String c s' => if isBlank c then trimStart s' else s
  | EmptyString => EmptyString
  end.

Fixpoint trimEnd (s : string) : string :=
  match s with
  | String c s' =>
      match trimEnd s' with
      | EmptyString => if isBlank c then EmptyString else String c EmptyString
      | t => String c t
      end
  | EmptyString => EmptyString
  end.

Definition asciiUpper (c : ascii) : ascii :=
  let n := nat_of_ascii c in
  if ((97 <=? n) && (n <=? 122))%nat then ascii_of_nat (n - 32) else c.

Fixpoint mapString (f : ascii -> ascii) (s : string) : string :=
  match s with
  | String c s' => String (f c) (mapString f s')
  | EmptyString => EmptyString
  end.

Fixpoint digitsValue (acc : Z) (s : string) : option Z :=
  match s with
  | EmptyString => Some acc
  | String c s' =>
      if isDigitChar c
      then digitsValue (10 * acc + Z.of_nat (nat_of_ascii c - 48)) s'
      else None
  end.

Definition asciiJs : JsString := {|
  trim := fun s => trimEnd (trimStart s);
  toUpperCase := mapString asciiUpper;
  Number := fun s => match s with
                     | EmptyString => Some 0
                     | _ => digitsValue 0 s
                     end
|}.

(** ** Board-size configuration *)

Record Config : Type := { FILES : list string; RANKS : list Z }.

Definition size4 : Config :=
  {| FILES := ["A"; "B"; "C"; "D"]; RANKS := [1; 2; 3; 4] |}.
Definition size5 : Config :=
  {| FILES := ["A"; "B"; "C"; "D"; "E"]; RANKS := [1; 2; 3; 4; 5] |}.

(** [BOARD_SIZES[size]]; [None] is [undefined]. *)
Definition BOARD_SIZES (size : Z) : option Config :=
  if size =? 4 then Some size4
  else if size =? 5 then Some size5
  else None.

(** ** Array helpers *)

Definition includes (x : string) (l : list string) : bool :=
  existsb (String.eqb x) l.

Definition includesZ (x : Z) (l : list Z) : bool :=
  existsb (Z.eqb x) l.

(** [arr.indexOf(x)]: first position, [-1] when absent. *)
Fixpoint indexOf (x : string) (l : list string) : Z :=
  match l with
  | [] => -1
  | y :: l' => if String.eqb y x then 0
               else let i := indexOf x l' in if i <? 0 then -1 else i + 1
  end.

(** [`${arr[i]}`]: a missing element prints as ["undefined"]. *)
Definition elementText (l : list string) (i : Z) : string :=
  if i <? 0 then "undefined" else nth (Z.to_nat i) l "undefined".

(** ** Pieces and boards *)

Inductive PieceType : Type := King | Queen | Rook | Bishop | Knight.
Inductive Color : Type := White | Black.

Record Piece : Type := { type : PieceType; color : Color }.

Definition PieceType_eqb (a b : PieceType) : bool :=
  match a, b with
  | King, King | Queen, Queen | Rook, Rook | Bishop, Bishop | Knight, Knight => true
  | _, _ => false
  end.

Definition Color_eqb (a b : Color) : bool :=
  match a, b with
  | White, White | Black, Black => true
  | _, _ => false
  end.

Definition oppositeColor (c : Color) : Color :=
  match c with White => Black | Black => White end.

(** A value held by the board [Map]: a piece object, [undefined] (what
    [applyMove] stores when the source square holds nothing), or the object
    without properties that [{ ...undefined }] makes in [cloneBoard]. *)
Inductive Slot : Type :=
| Undefined
| EmptyObject
| Pc (p : Piece).

(** A JavaScript [Map] with string keys, in insertion order.  [undefined] is
    what [get] answers for a missing key. *)
Class HasUndefined (V : Type) : Type := undefined : V.

Definition JsMap (V : Type) : Type := list (string * V).

Section JsMapOps.

Context {V : Type} `{HasUndefined V}.

(** [Map.prototype.get]. *)
Fixpoint mapGet (m : JsMap V) (k : string) : V :=
  match m with
  | [] => undefined
  | (k', v) :: m' => if String.eqb k' k then v else mapGet m' k
  end.

(** [Map.prototype.set]: a present key keeps its place, a new one goes last. *)
Fixpoint mapSet (m : JsMap V) (k : string) (v : V) : JsMap V :=
  match m with
  | [] => [(k, v)]
  | (k', v') :: m' =>
      if String.eqb k' k then (k, v) :: m' else (k', v') :: mapSet m' k v
  end.

(** [Map.prototype.delete]. *)
Fixpoint mapDelete (m : JsMap V) (k : string) : JsMap V :=
  match m with
  | [] => []
  | (k', v') :: m' =>
      if String.eqb k' k then mapDelete m' k else (k', v') :: mapDelete m' k
  end.

(** [Map.prototype.has]. *)
Definition mapHas (m : JsMap V) (k : string) : bool :=
  existsb (fun e => String.eqb (fst e) k) m.

End JsMapOps.

#[global] Instance Slot_undefined : HasUndefined Slot := Undefined.

Definition Board : Type := JsMap Slot.

Definition truthy (v : Slot) : bool :=
  match v with Undefined => false | _ => true end.

Definition createEmptyBoard : Board := [].

Definition spread (v : Slot) : Slot :=
  match v with
  | Undefined => EmptyObject
  | EmptyObject => EmptyObject
  | Pc p => Pc p
  end.

(** [cloneBoard]: the new [Map] has the keys of [board] in the same order,
    each with a copy of its value.  That the loop of [next.set] calls builds
    this map is [clone_loop]; what it allocates is in [Heap] below. *)
Definition cloneBoard (board : Board) : Board :=
  map (fun e => (fst e, spread (snd e))) board.

Definition isPiece (v : Slot) : bool :=
  match v with Pc _ => true | _ => false end.

(** The number of pieces on a board. *)
Definition pieceCount (board : Board) : nat :=
  List.length (filter (fun e => isPiece (snd e)) board).

(** ** The object store

    [cloneBoard] and [applyMove] are also modelled on a store of objects, to
    say what they allocate and what they write.  A store is the list of the
    objects allocated so far; a reference is a position in it. *)

Module Heap.

Abbreviation loc := nat (only parsing).

#[global] Instance ref_undefined : HasUndefined (option loc) := None.

(** A piece object, the object without properties, or a [Map] from square
    identifiers to references ([None] is [undefined]). *)
Inductive cell : Type :=
| PieceObj (p : Piece)
| EmptyObj
| MapObj (entries : JsMap (option loc)).

Definition Store : Type := list cell.

Definition read (st : Store) (l : loc) : option cell := nth_error st l.

Definition alloc (st : Store) (c : cell) : Store * loc :=
  (st ++ [c], List.length st).

Fixpoint write (st : Store) (l : loc) (c : cell) : Store :=
  match st, l with
  | [], _ => []
  | _ :: st', O => c :: st'
  | x :: st', S l' => x :: write st' l' c
  end.

(** [{ ...piece }]: the object to allocate. *)
Definition spread (st : Store) (piece : option loc) : cell :=
  match piece with
  | None => EmptyObj
  | Some l =>
      match read st l with
      | Some (PieceObj p) => PieceObj p
      | _ => EmptyObj
      end
  end.

(** Methods of the [Map] at [m]; [None] when [m] is not a [Map]. *)
Definition getAt (st : Store) (m : loc) (k : string) : option (option loc) :=
  match read st m with
  | Some (MapObj entries) => Some (mapGet entries k)
  | _ => None
  end.

Definition setAt (st : Store) (m : loc) (k : string) (v : option loc)
  : option Store :=
  match read st m with
  | Some (MapObj entries) => Some (write st m (MapObj (mapSet entries k v)))
  | _ => None
  end.

Definition deleteAt (st : Store) (m : loc) (k : string) : option Store :=
  match read st m with
  | Some (MapObj entries) => Some (write st m (MapObj (mapDelete entries k)))
  | _ => None
  end.

(** The loop of [cloneBoard]: one object allocated and one [next.set] per
    entry. *)
Fixpoint cloneEntries (st : Store) (next : loc) (entries : JsMap (option loc))
  : option Store :=
  match entries with
  | [] => Some st
  | (sq, piece) :: rest =>
      let (st1, copy) := alloc st (spread st piece) in
      match setAt st1 next sq (Some copy) with
      | Some st2 => cloneEntries st2 next rest
      | None => None
      end
  end.

Definition cloneBoard (st : Store) (board : loc) : option (Store * loc) :=
  match read st board with
  | Some (MapObj entries) =>
      let (st1, next) := alloc st (MapObj []) in
      match cloneEntries st1 next entries with
      | Some st2 => Some (st2, next)
      | None => None
      end
  | _ => None
  end.

Definition applyMove (st : Store) (board : loc) (from to : string)
  : option (Store * loc) :=
  match cloneBoard st board with
  | Some (st1, next) =>
      match getAt st1 next from with
      | Some piece =>
          match deleteAt st1 next from with
          | Some st2 =>
              match setAt st2 next to piece with
              | Some st3 => Some (st3, next)
              | None => None
              end
          | None => None
          end
      | None => None
      end
  | None => None
  end.

(** The value a reference stands for, and the board a [Map] stands for. *)
Definition slotOf (st : Store) (v : option loc) : option Slot :=
  match v with
  | None => Some Undefined
  | Some l =>
      match read st l with
      | Some (PieceObj p) => Some (Pc p)
      | Some EmptyObj => Some EmptyObject
      | _ => None
      end
  end.

Fixpoint slotsOf (st : Store) (entries : JsMap (option loc)) : option Board :=
  match entries with
  | [] => Some []
  | (sq, v) :: rest =>
      match slotOf st v, slotsOf st rest with
      | Some s, Some b => Some ((sq, s) :: b)
      | _, _ => None
      end
  end.

Definition readBoard (st : Store) (board : loc) : option Board :=
  match read st board with
  | Some (MapObj entries) => slotsOf st entries
  | _ => None
  end.

(** Every reference held by the [Map] at [m] was allocated at or after
    position [n]. *)
Definition refsFrom (st : Store) (m : loc) (n : nat) : Prop :=
  exists entries, read st m = Some (MapObj entries) /\
    forall sq l, In (sq, Some l) entries -> (n <= l)%nat.

(** No piece object and no object without properties of [st] is changed
    in [st']. *)
Definition keeps (st st' : Store) : Prop :=
  forall l c, read st l = Some c -> (forall m, c <> MapObj m) ->
              read st' l = Some c.

End Heap.

(** ** Random draws *)

(** A value returned by [Math.random()]: a double in the interval [0, 1),
    that is [mantissa * 2^-scale] with a mantissa of at most 53 bits and a
    scale of at most 1074 (the smallest power of two a double holds). *)
Record Draw : Type := {
  mantissa : Z;
  scale : Z;
  draw_range :
    (0 <=? mantissa) && (mantissa <? 2 ^ 53) && (mantissa <? 2 ^ scale)
    && (0 <=? scale) && (scale <=? 1074) = true
}.

(** [m / 2^k] rounded to the nearest integer, ties to the even one: what a
    floating-point operation does with the [k] low bits that a mantissa of
    53 bits cannot hold. *)
Definition roundShift (m k : Z) : Z :=
  if k <=? 0 then m
  else
    let q := m / 2 ^ k in
    let r := m mod 2 ^ k in
    let half := 2 ^ (k - 1) in
    if r <? half then q
    else if half <? r then q + 1
    else if Z.even q then q else q + 1.

(** The number of low bits of [m] beyond the 53 a mantissa holds. *)
Definition excessBits (m : Z) : Z := Z.max 0 (Z.log2 m + 1 - 53).

(** [Math.floor(Math.random() * maxExclusive)], for [maxExclusive] an
    integer from 0 to 2^53 (every caller passes an array length).  The
    product of the two doubles is [mantissa * maxExclusive * 2^-scale]
    rounded to 53 bits; [Math.floor] is taken of the rounded value. *)
Definition randomInt (d : Draw) (maxExclusive : Z) : Z :=
  let product := mantissa d * maxExclusive in
  let k := excessBits product in
  let m := roundShift product k in
  if scale d <=? k then m * 2 ^ (k - scale d) else m / 2 ^ (scale d - k).

(** [arr[randomInt(arr.length)]]; [None] is [undefined]. *)
Definition pickRandom (arr : list string) (d : Draw) : option string :=
  nth_error arr (Z.to_nat (randomInt d (Z.of_nat (List.length arr)))).

Fixpoint removeFromArray (arr : list string) (value : string) : list string :=
  match arr with
  | [] => []
  | x :: arr' => if String.eqb x value then arr' else x :: removeFromArray arr' value
  end.

Module Options.
Record t : Type := {
  turn : option Color;
  maxAttempts : option Z;
  allowStartingCheck : bool
}.
End Options.

Record Position : Type := { board : Board; turn : Color }.

(** ** Board display helpers *)

(** [(fileIndex + (rank - 1)) % 2 === 0]; [%] is the remainder of the
    truncating division. *)
Definition isDarkSquare (fileIndex rank : Z) : bool :=
  Z.rem (fileIndex + (rank - 1)) 2 =? 0.

(** [setBoardSize]: the tables it installs; reading [.FILES] of a missing
    entry of [BOARD_SIZES] throws. *)
Definition setBoardSize (size : Z) : result Config :=
  match BOARD_SIZES size with
  | Some c => Ok c
  | None => Fail TypeError
  end.


(** ** Piece and colour tokens as text

    The normalisers of the source work on strings.  They are modelled here on
    their own, to show that the canonical tokens used everywhere else are
    their fixed points. *)

Class JsLower : Type := { toLowerCase : string -> string }.

Definition isLowerLetter (c : ascii) : bool :=
  let n := nat_of_ascii c in ((97 <=? n) && (n <=? 122))%nat.

Fixpoint isLowerWord (s : string) : bool :=
  match s with
  | EmptyString => true
  | String c s' => isLowerLetter c && isLowerWord s'
  end.

(** What the proofs use of [trim] and [toLowerCase]: a word of lower-case
    letters is left as it is, lowering twice is lowering once, and lowering
    a trimmed text leaves it trimmed. *)
Class TokenLaws (js : JsString) (lower : JsLower) : Prop := {
  lower_word : forall s, isLowerWord s = true -> toLowerCase s = s;
  trim_word : forall s, isLowerWord s = true -> trim s = s;
  lower_twice : forall s, toLowerCase (toLowerCase s) = toLowerCase s;
  trim_lowered : forall s, trim (toLowerCase (trim s)) = toLowerCase (trim s)
}.

Definition asciiLower (c : ascii) : ascii :=
  let n := nat_of_ascii c in
  if ((65 <=? n) && (n <=? 90))%nat then ascii_of_nat (n + 32) else c.

Definition asciiLowerJs : JsLower := {| toLowerCase := mapString asciiLower |}.

Module Tokens.

Section Text.

Context {js : JsString} {lower : JsLower}.

Definition pieceName (type : string) : string :=
  let t := toLowerCase type in
  if String.eqb t "k" || String.eqb t "king" then "king"
  else if String.eqb t "q" || String.eqb t "queen" then "queen"
  else if String.eqb t "r" || String.eqb t "rook" then "rook"
  else if String.eqb t "b" || String.eqb t "bishop" then "bishop"
  else if String.eqb t "n" || String.eqb t "knight" then "knight"
  else t.

Definition normalizePieceType (type : string) : string :=
  let t := pieceName type in
  if String.eqb t "king" then "k"
  else if String.eqb t "queen" then "q"
  else if String.eqb t "rook" then "r"
  else if String.eqb t "bishop" then "b"
  else if String.eqb t "knight" then "n"
  else t.

Definition normalizeColor (color : string) : string :=
  let c := toLowerCase (trim color) in
  if String.eqb c "w" || String.eqb c "white" then "w"
  else if String.eqb c "b" || String.eqb c "black" then "b"
  else c.

Definition oppositeColor (color : string) : string :=
  let c := normalizeColor color in
  if String.eqb c "w" then "b"
  else if String.eqb c "b" then "w"
  else c.

Definition getPieceAssetPath (piece color : string) : string :=
  let p := toLowerCase (trim piece) in
  let c := normalizeColor color in
  ("asset/" ++ p ++ "-" ++ c ++ ".svg")%string.

End Text.

(** The tokens that stand for the constructors of [Color] and [PieceType]. *)
Definition colorToken (c : Color) : string :=
  match c with White => "w" | Black => "b" end.

Definition colorWord (c : Color) : string :=
  match c with White => "white" | Black => "black" end.

Definition typeToken (t : PieceType) : string :=
  match t with
  | King => "k" | Queen => "q" | Rook => "r" | Bishop => "b" | Knight => "n"
  end.

Definition typeWord (t : PieceType) : string :=
  match t with
  | King => "king" | Queen => "queen" | Rook => "rook" | Bishop => "bishop"
  | Knight => "knight"
  end.

End Tokens.

Section Engine.

Context {js : JsString}.
Variable cfg : Config.

(** ** Coordinate system *)

Record ParsedSquare : Type := { file : string; rank : Z; fileIndex : Z }.

Definition parseSquare (square : string) : option ParsedSquare :=
  let s := toUpperCase (trim square) in
  if (String.length s <? 2)%nat then None
  else
    let file := substring 0 1 s in
    let rank := Number (substring 1 (String.length s - 1) s) in
    if negb (includes file (FILES cfg)) then None
    else
      match rank with
      | None => None
      | Some rank =>
          if negb (includesZ rank (RANKS cfg)) then None
          else Some {| file := file; rank := rank;
                       fileIndex := indexOf file (FILES cfg) |}
      end.

Definition toSquare (fileIndex rank : Z) : option string :=
  if (fileIndex <? 0) || (fileIndex >=? Z.of_nat (List.length (FILES cfg))) then None
  else if negb (includesZ rank (RANKS cfg)) then None
  else Some (elementText (FILES cfg) fileIndex ++ numberToString rank)%string.

Definition squaresAreAdjacent (a b : string) : bool :=
  match parseSquare a, parseSquare b with
  | Some sa, Some sb =>
      let df := Z.abs (fileIndex sa - fileIndex sb) in
      let dr := Z.abs (rank sa - rank sb) in
      Z.max df dr =? 1
  | _, _ => false
  end.

Definition allSquares : list string :=
  flat_map (fun r =>
    map (fun fi => (elementText (FILES cfg) fi ++ numberToString r)%string)
        [0; 1; 2; 3])
    [1; 2; 3; 4].


(** ** ChessGame *)

(** [kingsAreSeparated]: the loop keeps the last king of each colour;
    reading [p.type] throws on an [undefined] value.  A key that is the
    empty string is falsy, like [null]. *)
Fixpoint lastKings (entries : Board) (wk bk : option string)
  : result (option string * option string) :=
  match entries with
  | [] => Ok (wk, bk)
  | (sq, Undefined) :: rest => Fail TypeError
  | (sq, EmptyObject) :: rest => lastKings rest wk bk
  | (sq, Pc p) :: rest =>
      let wk := if PieceType_eqb (type p) King && Color_eqb (color p) White
                then Some sq else wk in
      let bk := if PieceType_eqb (type p) King && Color_eqb (color p) Black
                then Some sq else bk in
      lastKings rest wk bk
  end.

Definition falsyKey (k : option string) : bool :=
  match k with
  | None => true
  | Some s => String.eqb s ""
  end.

Definition kingsAreSeparated (board : Board) : result bool :=
  ks <- lastKings board None None ;;
  let (wk, bk) := ks in
  if falsyKey wk || falsyKey bk then Ok false
  else
    match wk, bk with
    | Some wk, Some bk => Ok (negb (squaresAreAdjacent wk bk))
    | _, _ => Ok false
    end.

Definition applyMove (board : Board) (from to : string) : Board :=
  let next := cloneBoard board in
  let piece := mapGet next from in
  let next := mapDelete next from in
  mapSet next to piece.

(** Fuel of the two [while (true)] ray loops: one more than the number of
    squares a ray can cross. *)
Definition rayFuel : nat := S (List.length (FILES cfg) + List.length (RANKS cfg)).

Fixpoint rayAttacksLoop (fuel : nat) (board : Board) (fi r df dr : Z)
  : result (list string) :=
  match fuel with
  | O => Fail OutOfFuel
  | S fuel' =>
      match toSquare fi r with
      | None => Ok []
      | Some sq =>
          if truthy (mapGet board sq) then Ok [sq]
          else rest <- rayAttacksLoop fuel' board (fi + df) (r + dr) df dr ;;
               Ok (sq :: rest)
      end
  end.

Definition rayAttacks (from : string) (df dr : Z) (board : Board)
  (attackerColor : Color) : result (list string) :=
  match parseSquare from with
  | None => Ok []
  | Some s => rayAttacksLoop rayFuel board (fileIndex s + df) (rank s + dr) df dr
  end.

Definition knightDeltas : list (Z * Z) :=
  [(1, 2); (2, 1); (-1, 2); (-2, 1); (1, -2); (2, -1); (-1, -2); (-2, -1)].

Definition targetAt (s : ParsedSquare) (df dr : Z) : list string :=
  match toSquare (fileIndex s + df) (rank s + dr) with
  | Some sq => [sq]
  | None => []
  end.

Definition knightTargets (from : string) : list string :=
  match parseSquare from with
  | None => []
  | Some s => flat_map (fun d => targetAt s (fst d) (snd d)) knightDeltas
  end.

Definition kingTargets (from : string) : list string :=
  match parseSquare from with
  | None => []
  | Some s =>
      flat_map (fun df =>
        flat_map (fun dr =>
          if (df =? 0) && (dr =? 0) then [] else targetAt s df dr)
          [-1; 0; 1])
        [-1; 0; 1]
  end.

(** [addIfOk]: the squares it pushes and its return value.  The object
    without properties has no [color], and [undefined !== c] holds. *)
Definition addIfOk (board : Board) (c : Color) (sq : string) : list string * bool :=
  match mapGet board sq with
  | Undefined => ([sq], true)
  | EmptyObject => ([sq], false)
  | Pc occ => if negb (Color_eqb (color occ) c) then ([sq], false) else ([], false)
  end.

Fixpoint rayLoop (fuel : nat) (board : Board) (c : Color) (fi r df dr : Z)
  : result (list string) :=
  match fuel with
  | O => Fail OutOfFuel
  | S fuel' =>
      match toSquare fi r with
      | None => Ok []
      | Some sq =>
          let (pushed, keepGoing) := addIfOk board c sq in
          if negb keepGoing then Ok pushed
          else rest <- rayLoop fuel' board c (fi + df) (r + dr) df dr ;;
               Ok (pushed ++ rest)
      end
  end.

(** The closure [ray] of [pseudoMovesForPiece]: what one call appends to
    [moves]. *)
Definition ray (board : Board) (c : Color) (from : string) (df dr : Z)
  : result (list string) :=
  match parseSquare from with
  | None => Ok []
  | Some s => rayLoop rayFuel board c (fileIndex s + df) (rank s + dr) df dr
  end.

Definition rookDirections : list (Z * Z) := [(1, 0); (-1, 0); (0, 1); (0, -1)].
Definition bishopDirections : list (Z * Z) := [(1, 1); (-1, 1); (1, -1); (-1, -1)].

(** Consecutive calls of a ray function, results in call order. *)
Fixpoint castRays (cast : Z -> Z -> result (list string)) (dirs : list (Z * Z))
  : result (list string) :=
  match dirs with
  | [] => Ok []
  | (df, dr) :: dirs' =>
      a <- cast df dr ;;
      b <- castRays cast dirs' ;;
      Ok (a ++ b)
  end.

Definition pseudoMovesForPiece (piece : Piece) (from : string) (board : Board)
  : result (list string) :=
  let t := type piece in
  let c := color piece in
  match t with
  | King => Ok (flat_map (fun sq => fst (addIfOk board c sq)) (kingTargets from))
  | Knight => Ok (flat_map (fun sq => fst (addIfOk board c sq)) (knightTargets from))
  | _ =>
      m1 <- (if PieceType_eqb t Rook || PieceType_eqb t Queen
             then castRays (ray board c from) rookDirections else Ok []) ;;
      m2 <- (if PieceType_eqb t Bishop || PieceType_eqb t Queen
             then castRays (ray board c from) bishopDirections else Ok []) ;;
      Ok (m1 ++ m2)
  end.

(** [attacksFromSquare] calls itself once for a queen, with the type
    replaced by ["r"] and then ["b"]; [attacksAs] is that inner call. *)
Definition attacksAs (t : PieceType) (square : string) (piece : Piece)
  (board : Board) : result (list string) :=
  match t with
  | King => Ok (kingTargets square)
  | Knight => Ok (knightTargets square)
  | Rook =>
      castRays (fun df dr => rayAttacks square df dr board (color piece))
        rookDirections
  | Bishop =>
      castRays (fun df dr => rayAttacks square df dr board (color piece))
        bishopDirections
  | Queen => Ok []
  end.

Definition attacksFromSquare (square : string) (piece : Piece) (board : Board)
  : result (list string) :=
  match type piece with
  | Queen =>
      a <- attacksAs Rook square piece board ;;
      b <- attacksAs Bishop square piece board ;;
      Ok (a ++ b)
  | t => attacksAs t square piece board
  end.

Fixpoint isSquareAttackedLoop (entries : Board) (square : string)
  (attacker : Color) (board : Board) : result bool :=
  match entries with
  | [] => Ok false
  | (sq, Undefined) :: rest => Fail TypeError
  | (sq, EmptyObject) :: rest => isSquareAttackedLoop rest square attacker board
  | (sq, Pc p) :: rest =>
      if negb (Color_eqb (color p) attacker)
      then isSquareAttackedLoop rest square attacker board
      else
        targets <- attacksFromSquare sq p board ;;
        if includes square targets then Ok true
        else isSquareAttackedLoop rest square attacker board
  end.

Definition isSquareAttacked (square : string) (byColor : Color) (board : Board)
  : result bool :=
  isSquareAttackedLoop board square byColor board.

(** The first king of colour [c] in iteration order. *)
Fixpoint firstKing (entries : Board) (c : Color) : result (option string) :=
  match entries with
  | [] => Ok None
  | (sq, Undefined) :: rest => Fail TypeError
  | (sq, EmptyObject) :: rest => firstKing rest c
  | (sq, Pc p) :: rest =>
      if PieceType_eqb (type p) King && Color_eqb (color p) c then Ok (Some sq)
      else firstKing rest c
  end.

Definition isCheck (c : Color) (board : Board) : result bool :=
  kingSq <- firstKing board c ;;
  if falsyKey kingSq then Ok false
  else
    match kingSq with
    | Some kingSq => isSquareAttacked kingSq (oppositeColor c) board
    | None => Ok false
    end.

(** One turn of the candidate loop of [getLegalMoves]: [true] when [to] is
    pushed to [legal]. *)
Definition keepsLegal (p : Piece) (from : string) (board : Board) (to : string)
  : result bool :=
  let nextBoard := applyMove board from to in
  sep <- kingsAreSeparated nextBoard ;;
  if negb sep then Ok false
  else
    chk <- isCheck (color p) nextBoard ;;
    if chk then Ok false
    else if PieceType_eqb (type p) King then
      att <- isSquareAttacked to (oppositeColor (color p)) nextBoard ;;
      if att then Ok false else Ok true
    else Ok true.

Fixpoint legalLoop (p : Piece) (from : string) (board : Board)
  (candidate : list string) : result (list string) :=
  match candidate with
  | [] => Ok []
  | to :: rest =>
      keep <- keepsLegal p from board to ;;
      legal <- legalLoop p from board rest ;;
      Ok (if keep then to :: legal else legal)
  end.

Definition getLegalMoves (piece : Piece) (from : string) (board : Board)
  : result (list string) :=
  candidate <- pseudoMovesForPiece piece from board ;;
  legalLoop piece from board candidate.

Record Move : Type := { from : string; to : string; piece : Piece }.

Fixpoint allLegalMovesLoop (entries : Board) (c : Color) (board : Board)
  : result (list Move) :=
  match entries with
  | [] => Ok []
  | (sq, Undefined) :: rest => Fail TypeError
  | (sq, EmptyObject) :: rest => allLegalMovesLoop rest c board
  | (sq, Pc p) :: rest =>
      if negb (Color_eqb (color p) c) then allLegalMovesLoop rest c board
      else
        moves <- getLegalMoves p sq board ;;
        out <- allLegalMovesLoop rest c board ;;
        Ok (map (fun to => {| from := sq; to := to; piece := p |}) moves ++ out)
  end.

Definition allLegalMoves (c : Color) (board : Board) : result (list Move) :=
  allLegalMovesLoop board c board.

Definition isCheckmate (c : Color) (board : Board) : result bool :=
  chk <- isCheck c board ;;
  if negb chk then Ok false
  else
    moves <- allLegalMoves c board ;;
    Ok (Nat.eqb (List.length moves) 0).

Definition isStalemate (c : Color) (board : Board) : result bool :=
  chk <- isCheck c board ;;
  if chk then Ok false
  else
    moves <- allLegalMoves c board ;;
    Ok (Nat.eqb (List.length moves) 0).


(** ** Position generator *)

Section Generator.

(** [random i] is the value of the [i]-th call of [Math.random()]; every
    function below takes the number of calls made so far and returns it
    updated. *)
Variable random : nat -> Draw.

Fixpoint placePieces (pieces : list Piece) (available : list string)
  (board : Board) (i : nat) : result (option Board * nat) :=
  match pieces with
  | [] => Ok (Some board, i)
  | up :: pieces' =>
      if Nat.eqb (List.length available) 0 then Ok (None, i)
      else
        match pickRandom available (random i) with
        | None => Fail UndefinedSquare
        | Some sq =>
            placePieces pieces' (removeFromArray available sq)
              (mapSet board sq (Pc {| type := type up; color := color up |})) (S i)
        end
  end.

(** The checks that end one attempt; [true] when the board is returned. *)
Definition validate (board : Board) (turn : Color) (allowStartingCheck : bool)
  : result bool :=
  sep <- kingsAreSeparated board ;;
  if negb sep then Ok false
  else
    c1 <- (if negb allowStartingCheck then isCheck turn board else Ok false) ;;
    if c1 then Ok false
    else
      c2 <- (if negb allowStartingCheck then isCheck (oppositeColor turn) board
             else Ok false) ;;
      if c2 then Ok false
      else
        mw <- isCheckmate White board ;;
        if mw then Ok false
        else
          mb <- isCheckmate Black board ;;
          if mb then Ok false else Ok true.

(** One turn of the attempt loop: [Some board] when it returns, [None] when
    it reaches a [continue]. *)
Definition attempt (pieces : list Piece) (turn : Color) (allowStartingCheck : bool)
  (i : nat) : result (option Board * nat) :=
  let board := createEmptyBoard in
  let available := allSquares in
  match pickRandom available (random i) with
  | None => Fail UndefinedSquare
  | Some wkSq =>
      let available := removeFromArray available wkSq in
      let nonAdjacentToWk :=
        filter (fun sq => negb (squaresAreAdjacent wkSq sq)) available in
      if Nat.eqb (List.length nonAdjacentToWk) 0 then Ok (None, S i)
      else
        match pickRandom nonAdjacentToWk (random (S i)) with
        | None => Fail UndefinedSquare
        | Some bkSq =>
            let available := removeFromArray available bkSq in
            let board := mapSet board wkSq (Pc {| type := King; color := White |}) in
            let board := mapSet board bkSq (Pc {| type := King; color := Black |}) in
            placed <- placePieces pieces available board (S (S i)) ;;
            match placed with
            | (None, i') => Ok (None, i')
            | (Some board, i') =>
                ok <- validate board turn allowStartingCheck ;;
                Ok (if ok then Some board else None, i')
            end
        end
  end.

Fixpoint attemptLoop (attempts : nat) (pieces : list Piece) (turn : Color)
  (allowStartingCheck : bool) (i : nat) : result Position :=
  match attempts with
  | O => Ok {| board := createEmptyBoard; turn := turn |}
  | S attempts' =>
      r <- attempt pieces turn allowStartingCheck i ;;
      match r with
      | (Some board, _) => Ok {| board := board; turn := turn |}
      | (None, i') => attemptLoop attempts' pieces turn allowStartingCheck i'
      end
  end.

Definition optionsTurn (options : Options.t) : Color :=
  match Options.turn options with Some c => c | None => White end.

Definition optionsMaxAttempts (options : Options.t) : Z :=
  match Options.maxAttempts options with Some n => n | None => 3000 end.

Definition generateStartingPosition (userPieces : list Piece)
  (options : Options.t) : result Position :=
  let pieces := userPieces in
  let turn := optionsTurn options in
  let maxAttempts := optionsMaxAttempts options in
  let allowStartingCheck := Options.allowStartingCheck options in
  attemptLoop (Z.to_nat maxAttempts) pieces turn allowStartingCheck 0.


End Generator.

(** ** Method calls on a game object

    Every method of [ChessGame] declares [board = this.board]: a call that
    leaves the argument out reads the board of the receiver. *)

Definition boardArg (this : Position) (arg : option Board) : Board :=
  match arg with
  | Some b => b
  | None => board this
  end.

Definition callIsCheck (this : Position) (c : Color) (arg : option Board) :=
  isCheck c (boardArg this arg).
Definition callAllLegalMoves (this : Position) (c : Color) (arg : option Board) :=
  allLegalMoves c (boardArg this arg).
Definition callIsCheckmate (this : Position) (c : Color) (arg : option Board) :=
  isCheckmate c (boardArg this arg).
Definition callIsStalemate (this : Position) (c : Color) (arg : option Board) :=
  isStalemate c (boardArg this arg).

(** ** The other methods of [ChessGame] *)

(** [this.board.get(square) ?? null]; [null] and [undefined] are both
    rendered by [Undefined], the callers only test [!piece]. *)
Definition getPieceAt (this : Position) (square : string) : Slot :=
  mapGet (board this) square.

(** [setPieceAt]: [None] is a falsy [piece]. *)
Definition setPieceAt (this : Position) (square : string) (piece : option Piece)
  : Position :=
  match piece with
  | None => {| board := mapDelete (board this) square; turn := turn this |}
  | Some p =>
      {| board := mapSet (board this) square
                    (Pc {| type := type p; color := color p |});
         turn := turn this |}
  end.

Definition findKingSquare (this : Position) (c : Color) : result (option string) :=
  firstKing (board this) c.

(** ** The board frame

    [createBoardFrame]: the [.square] elements it appends to the container,
    in document order, each with its [data-square] and whether it got the
    class of the dark squares.  Ranks run from the last of [RANKS] to the
    first, files from the first of [FILES] to the last. *)

Record SquareEl : Type := { dataSquare : string; dark : bool }.

Definition createBoardFrame : list SquareEl :=
  flat_map
    (fun rank =>
       map (fun fi =>
              {| dataSquare :=
                   (elementText (FILES cfg) (Z.of_nat fi) ++ numberToString rank)%string;
                 dark := isDarkSquare (Z.of_nat fi) rank |})
           (seq 0 (List.length (FILES cfg))))
    (rev (RANKS cfg)).

(** [boardFrame.querySelector] for a [data-square]: whether the frame has
    such an element. *)
Definition hasSquare (frame : list SquareEl) (square : string) : bool :=
  existsb (fun e => String.eqb (dataSquare e) square) frame.

(** [highlightLegalMoves]: [true] when it throws.  The function is declared
    at top level and reads [current], a variable of [init] that is not in
    its scope: the read throws a ReferenceError for the first legal move
    that has an element in the frame.  What it writes to the page before
    that is not modelled. *)
Definition highlightLegalMoves (frame : list SquareEl) (from : string)
  (legalMoves : list string) : bool :=
  existsb (hasSquare frame) legalMoves.

(** ** The click handler

    The state of [init]: the game, the selected square and the score.  Writes
    to the page (highlights, messages, the modal) are the [Feedback] a click
    returns.  The frame is rebuilt by [startNewGame] each time it installs
    the tables, so it is the frame of [cfg].

    A click whose listener ends by the ReferenceError of
    [highlightLegalMoves] has stored the selection before; the page goes on
    from that state, which is the [Ok] state with the feedback
    [HighlightThrew].  [Fail] is a click in which the engine throws; the
    state that leaves behind is not modelled. *)

Inductive Display : Type :=
| CheckmateModal (winner : Color)
| StalemateModal
| CheckMessage (c : Color)
| MoveMessage.

Definition render (current : Position) : result Display :=
  mate <- isCheckmate (turn current) (board current) ;;
  if mate then Ok (CheckmateModal (oppositeColor (turn current)))
  else
    stale <- isStalemate (turn current) (board current) ;;
    if stale then Ok StalemateModal
    else
      chk <- isCheck (turn current) (board current) ;;
      if chk then Ok (CheckMessage (turn current)) else Ok MoveMessage.

Record Ui : Type := {
  current : Position;
  selectedSquare : option string;
  score : Z
}.

Inductive Feedback : Type :=
| Cleared
| Highlighted (square : string) (legal : list string)
| HighlightThrew (square : string) (legal : list string)
| WrongMove
| Moved (d : Display).

Definition select (ui : Ui) (sel : option string) : Ui :=
  {| current := current ui; selectedSquare := sel; score := score ui |}.

Definition handleSquareClick (ui : Ui) (square : string) : result (Ui * Feedback) :=
  let piece := getPieceAt (current ui) square in
  match selectedSquare ui with
  | None =>
      match piece with
      | Pc p =>
          if negb (Color_eqb (color p) (turn (current ui))) then Ok (ui, Cleared)
          else
            legal <- getLegalMoves p square (board (current ui)) ;;
            if highlightLegalMoves createBoardFrame square legal
            then Ok (select ui (Some square), HighlightThrew square legal)
            else Ok (select ui (Some square), Highlighted square legal)
      | _ => Ok (ui, Cleared)
      end
  | Some selected =>
      if String.eqb selected square then Ok (select ui None, Cleared)
      else
        match getPieceAt (current ui) selected with
        | Pc movingPiece =>
            if negb (Color_eqb (color movingPiece) (turn (current ui)))
            then Ok (select ui None, Cleared)
            else
              legal <- getLegalMoves movingPiece selected (board (current ui)) ;;
              if negb (includes square legal) then Ok (ui, WrongMove)
              else
                let nextBoard := applyMove (board (current ui)) selected square in
                let ui' :=
                  {| current := {| board := nextBoard;
                                   turn := oppositeColor (turn (current ui)) |};
                     selectedSquare := None;
                     score := score ui + 1 |} in
                d <- render (current ui') ;;
                Ok (ui', Moved d)
        | _ => Ok (select ui None, Cleared)
        end
  end.

(** A sequence of clicks: each one starts from the state the one before
    left, also when that one ended by the ReferenceError. *)
Fixpoint clicks (ui : Ui) (squares : list string) : result Ui :=
  match squares with
  | [] => Ok ui
  | square :: rest =>
      r <- handleSquareClick ui square ;;
      clicks (fst r) rest
  end.


(** ** Vocabulary of the properties *)

(** A square a piece of colour [c] may land on: empty, or held by anything
    but a piece of colour [c]. *)
Definition notOwn (board : Board) (c : Color) (sq : string) : bool :=
  match mapGet board sq with
  | Pc occ => negb (Color_eqb (color occ) c)
  | _ => true
  end.

Definition isEmptySquare (board : Board) (sq : string) : bool :=
  negb (truthy (mapGet board sq)).






(** A bound on the squares a ray still has to cross from [(fi, r)]. *)
Definition stepsLeft (df dr fi r : Z) : nat :=
  match toSquare fi r with
  | None => O
  | Some _ =>
      if 0 <? df then Z.to_nat (Z.of_nat (List.length (FILES cfg)) - fi)
      else if df <? 0 then Z.to_nat (fi + 1)
      else if 0 <? dr then List.length (filter (fun x => r <=? x) (RANKS cfg))
      else List.length (filter (fun x => x <=? r) (RANKS cfg))
  end.

(** Every value of the board is a piece object. *)
Definition piecesOnly (board : Board) : Prop :=
  Forall (fun e => exists p, snd e = Pc p) board.

Definition isKingOf (c : Color) (v : Slot) : bool :=
  match v with
  | Pc p => PieceType_eqb (type p) King && Color_eqb (color p) c
  | _ => false
  end.

Definition hasKing (c : Color) (board : Board) : bool :=
  existsb (fun e => isKingOf c (snd e)) board.

Definition kingCount (c : Color) (board : Board) : nat :=
  List.length (filter (fun e => isKingOf c (snd e)) board).

(** The board of an attempt once both kings are set. *)
Definition kingsBoard (wkSq bkSq : string) : Board :=
  mapSet (mapSet createEmptyBoard wkSq (Pc {| type := King; color := White |}))
    bkSq (Pc {| type := King; color := Black |}).

(** A position in which play can go on: a [Map] of pieces with one king of
    each colour, the kings apart, and the side that has just moved not in
    check. *)
Definition playable (pos : Position) : Prop :=
  piecesOnly (board pos) /\ NoDup (map fst (board pos)) /\
  kingCount White (board pos) = 1%nat /\ kingCount Black (board pos) = 1%nat /\
  kingsAreSeparated (board pos) = Ok true /\
  isCheck (oppositeColor (turn pos)) (board pos) = Ok false.

(** ** Sample data *)

Definition whiteKing : Piece := {| type := King; color := White |}.
Definition blackKing : Piece := {| type := King; color := Black |}.
Definition whiteRook : Piece := {| type := Rook; color := White |}.
Definition whiteQueen : Piece := {| type := Queen; color := White |}.
Definition blackBishop : Piece := {| type := Bishop; color := Black |}.

Definition rookA1 : Board := [("A1", Pc whiteRook); ("A3", Pc blackBishop)].

(** Black king in the corner, mated by a queen that the white king guards. *)
Definition cornerMate : Board :=
  [("A1", Pc blackKing); ("B2", Pc whiteQueen); ("C3", Pc whiteKing)].

(** Kings apart, and a white rook free to move. *)
Definition guarded : Board :=
  [("A1", Pc whiteKing); ("C3", Pc blackKing); ("D1", Pc whiteRook)].

(** The white rook guards the square of its own king. *)
Definition defended : Board :=
  [("A1", Pc whiteRook); ("A2", Pc whiteKing); ("D4", Pc blackKing)].

(** Black king in the corner with no move and no check. *)
Definition cornerStale : Board :=
  [("A1", Pc blackKing); ("B3", Pc whiteQueen); ("D4", Pc whiteKing)].

Definition loneRook : Board := [("A1", Pc whiteRook)].

(** Black king on D4, checked by the white queen on C3 that the white king
    on B2 guards: the corner of the 4x4 board, an inner square of the 5x5. *)
Definition queenCorner : Board :=
  [("D4", Pc blackKing); ("C3", Pc whiteQueen); ("B2", Pc whiteKing)].

Definition draw0 : Draw := {| mantissa := 0; scale := 1; draw_range := eq_refl |}.
Definition drawHalf : Draw := {| mantissa := 1; scale := 1; draw_range := eq_refl |}.

(** A draw just below 9/13: thirteen times it is below 9, and rounds to 9. *)
Definition drawRounds : Draw :=
  {| mantissa := 6235753330205302; scale := 53; draw_range := eq_refl |}.

Definition sampleRandom (i : nat) : Draw :=
  if Nat.even i then draw0 else drawHalf.

Definition sampleOptions (attempts : Z) : Options.t :=
  {| Options.turn := Some White; Options.maxAttempts := Some attempts;
     Options.allowStartingCheck := false |}.

Definition loadout4 : list Piece := [whiteRook; blackBishop].

(** What the generator returns on [sampleRandom] for [loadout4]. *)
Definition guardedStart : Board :=
  [("A1", Pc whiteKing); ("C3", Pc blackKing);
   ("B1", Pc whiteRook); ("A3", Pc blackBishop)].


(** The game on [guarded] before a click, and with the rook selected. *)
Definition freshGame : Ui :=
  {| current := {| board := guarded; turn := White |};
     selectedSquare := None; score := 0 |}.

Definition rookSelected : Ui :=
  {| current := {| board := guarded; turn := White |};
     selectedSquare := Some "D1"; score := 0 |}.

Definition sampleStore : Heap.Store :=
  [Heap.PieceObj whiteRook; Heap.PieceObj blackBishop;
   Heap.MapObj [("A1", Some 0%nat); ("A3", Some 1%nat)]].

(** * Properties *)

(** ** Monad and list helpers *)

Lemma bind_Ok {A B} (m : result A) (k : A -> result B) (b : B) :
  bind m k = Ok b -> exists a, m = Ok a /\ k a = Ok b.
Proof. destruct m; simpl; intros E; [eauto | discriminate]. Qed.

Ltac inv_bind H :=
  let a := fresh "a" in
  let E := fresh "E" in
  apply bind_Ok in H; destruct H as (a & E & H).

Lemma Color_eqb_eq (a b : Color) : Color_eqb a b = true <-> a = b.
Proof. destruct a, b; simpl; split; congruence. Qed.

Lemma PieceType_eqb_eq (a b : PieceType) : PieceType_eqb a b = true <-> a = b.
Proof. destruct a, b; simpl; split; congruence. Qed.

Lemma includes_In (x : string) (l : list string) : includes x l = true <-> In x l.
Proof.
  unfold includes. rewrite existsb_exists. split.
  - intros (y & Hy & E). apply String.eqb_eq in E. now subst.
  - intros Hx. exists x. split; [assumption | apply String.eqb_refl].
Qed.

Lemma includesZ_In (x : Z) (l : list Z) : includesZ x l = true <-> In x l.
Proof.
  unfold includesZ. rewrite existsb_exists. split.
  - intros (y & Hy & E). apply Z.eqb_eq in E. now subst.
  - intros Hx. exists x. split; [assumption | apply Z.eqb_refl].
Qed.

(** ** Coordinate system *)

Lemma toSquare_Some (fi r : Z) (sq : string) :
  toSquare fi r = Some sq ->
  0 <= fi < Z.of_nat (List.length (FILES cfg)) /\ In r (RANKS cfg).
Proof.
  unfold toSquare. intros E.
  destruct (fi <? 0) eqn:E1; [discriminate |].
  destruct (fi >=? Z.of_nat (List.length (FILES cfg))) eqn:E2; [discriminate |].
  destruct (includesZ r (RANKS cfg)) eqn:E3; [| discriminate].
  apply includesZ_In in E3. apply Z.ltb_ge in E1.
  rewrite Z.geb_leb in E2. apply Z.leb_gt in E2.
  split; [lia | assumption].
Qed.

Lemma parse_square_text `{!JsStringLaws js} (f d : ascii) (n : Z) :
  isUpperLetter f = true -> isDigitChar d = true ->
  0 <= n < 10 -> numberToString n = String d "" ->
  parseSquare (String f (String d "")) =
    if negb (includes (String f "") (FILES cfg)) then None
    else if negb (includesZ n (RANKS cfg)) then None
    else Some {| file := String f ""; rank := n;
                 fileIndex := indexOf (String f "") (FILES cfg) |}.
Proof.
  intros Hf Hd Hn Ht. unfold parseSquare.
  rewrite normal_square_text by assumption.
  cbn [String.length Nat.ltb Nat.leb substring Nat.sub].
  rewrite <- Ht, Number_digit by assumption. reflexivity.
Qed.

Ltac normal_text :=
  match goal with
  | |- parseSquare ?t = _ =>
      let t' := eval vm_compute in t in change t with t'
  end.

Ltac roundtrip_case HF HR :=
  match goal with
  | |- exists text s, toSquare ?fi ?r = Some text /\ _ =>
      eexists; eexists; split;
      [ unfold toSquare; rewrite HF, HR; reflexivity
      | split;
        [ normal_text;
          rewrite (parse_square_text _ _ r) by (reflexivity || lia);
          rewrite HF, HR; reflexivity
        | split; reflexivity ] ]
  end.

(** C8.  On a board of size 4 or 5, [toSquare] prints every in-bounds
    (file index, rank) pair, and [parseSquare] reads the printed text back
    to the same file index and rank. *)
Theorem parse_toSquare_roundtrip `{!JsStringLaws js} (size fi r : Z) :
  BOARD_SIZES size = Some cfg ->
  0 <= fi < size -> 1 <= r <= size ->
  exists text s,
    toSquare fi r = Some text /\ parseSquare text = Some s /\
    fileIndex s = fi /\ rank s = r.
Proof.
  intros Hcfg Hfi Hr. unfold BOARD_SIZES in Hcfg.
  destruct (size =? 4) eqn:E4; [apply Z.eqb_eq in E4 |
    destruct (size =? 5) eqn:E5; [apply Z.eqb_eq in E5 | discriminate]];
  injection Hcfg as Hcfg; subst size;
  pose proof (f_equal FILES Hcfg) as HF; pose proof (f_equal RANKS Hcfg) as HR;
  unfold size4, size5 in HF, HR; cbn [FILES RANKS] in HF, HR;
  symmetry in HF, HR.
  - assert (Hf : fi = 0 \/ fi = 1 \/ fi = 2 \/ fi = 3) by lia.
    assert (Hk : r = 1 \/ r = 2 \/ r = 3 \/ r = 4) by lia.
    destruct Hf as [-> | [-> | [-> | ->]]];
      destruct Hk as [-> | [-> | [-> | ->]]];
      roundtrip_case HF HR.
  - assert (Hf : fi = 0 \/ fi = 1 \/ fi = 2 \/ fi = 3 \/ fi = 4) by lia.
    assert (Hk : r = 1 \/ r = 2 \/ r = 3 \/ r = 4 \/ r = 5) by lia.
    destruct Hf as [-> | [-> | [-> | [-> | ->]]]];
      destruct Hk as [-> | [-> | [-> | [-> | ->]]]];
      roundtrip_case HF HR.
Qed.

(** ** Rays *)

Lemma filter_length_le {A} (f g : A -> bool) (l : list A) :
  (forall y, f y = true -> g y = true) ->
  (List.length (filter f l) <= List.length (filter g l))%nat.
Proof.
  intros Hfg. induction l as [| a l IH]; simpl; [lia |].
  destruct (f a) eqn:Ef.
  - rewrite (Hfg a Ef). simpl. lia.
  - destruct (g a); simpl; lia.
Qed.

Lemma filter_length_lt {A} (f g : A -> bool) (l : list A) (x : A) :
  (forall y, f y = true -> g y = true) ->
  In x l -> g x = true -> f x = false ->
  (List.length (filter f l) < List.length (filter g l))%nat.
Proof.
  intros Hfg Hin Hg Hf. induction l as [| a l IH]; simpl; [contradiction |].
  destruct Hin as [-> | Hin].
  - rewrite Hf, Hg. simpl. pose proof (filter_length_le f g l Hfg). lia.
  - specialize (IH Hin). destruct (f a) eqn:Ef.
    + rewrite (Hfg a Ef). simpl. lia.
    + destruct (g a); simpl; lia.
Qed.

Lemma stepsLeft_decr (df dr fi r : Z) (sq : string) :
  df <> 0 \/ dr <> 0 -> toSquare fi r = Some sq ->
  (stepsLeft df dr (fi + df) (r + dr) < stepsLeft df dr fi r)%nat.
Proof.
  intros Hd Hsq. unfold stepsLeft. rewrite Hsq.
  destruct (toSquare_Some _ _ _ Hsq) as [Hfi Hr].
  assert (Hpos : forall x, In x (RANKS cfg) ->
            (0 < List.length (filter (fun y => (x <=? y)%Z) (RANKS cfg)))%nat /\
            (0 < List.length (filter (fun y => (y <=? x)%Z) (RANKS cfg)))%nat).
  { intros x Hx. split.
    - pose proof (filter_length_lt (fun _ => false) (fun y => x <=? y)
                    (RANKS cfg) x) as L.
      assert (E : filter (fun _ : Z => false) (RANKS cfg) = []).
      { clear. induction (RANKS cfg); simpl; auto. }
      rewrite E in L. simpl in L. apply L; auto; [discriminate | lia].
    - pose proof (filter_length_lt (fun _ => false) (fun y => y <=? x)
                    (RANKS cfg) x) as L.
      assert (E : filter (fun _ : Z => false) (RANKS cfg) = []).
      { clear. induction (RANKS cfg); simpl; auto. }
      rewrite E in L. simpl in L. apply L; auto; [discriminate | lia]. }
  destruct (toSquare (fi + df) (r + dr)) eqn:Enext.
  - destruct (toSquare_Some _ _ _ Enext) as [Hfi' Hr'].
    destruct (0 <? df) eqn:E1; [lia |].
    destruct (df <? 0) eqn:E2; [lia |].
    assert (df = 0) by lia. subst df.
    destruct (0 <? dr) eqn:E3.
    + apply (filter_length_lt _ _ _ r); auto; lia.
    + apply (filter_length_lt _ _ _ r); auto; lia.
  - destruct (0 <? df) eqn:E1; [lia |].
    destruct (df <? 0) eqn:E2; [lia |].
    destruct (0 <? dr); apply Hpos; assumption.
Qed.

Lemma stepsLeft_bound (df dr fi r : Z) :
  (stepsLeft df dr fi r < rayFuel)%nat.
Proof.
  unfold stepsLeft, rayFuel.
  destruct (toSquare fi r) eqn:Hsq; [| lia].
  destruct (toSquare_Some _ _ _ Hsq) as [Hfi Hr].
  pose proof (filter_length_le (fun x => r <=? x) (fun _ => true) (RANKS cfg)
                ltac:(auto)) as L1.
  pose proof (filter_length_le (fun x => x <=? r) (fun _ => true) (RANKS cfg)
                ltac:(auto)) as L2.
  assert (E : filter (fun _ : Z => true) (RANKS cfg) = RANKS cfg).
  { clear. induction (RANKS cfg); simpl; congruence. }
  rewrite E in L1, L2.
  destruct (0 <? df); [lia |]. destruct (df <? 0); [lia |].
  destruct (0 <? dr); lia.
Qed.

Lemma rayAttacksLoop_fuel (b : Board) (df dr : Z) :
  df <> 0 \/ dr <> 0 ->
  forall (fuel : nat) (fi r : Z),
    (stepsLeft df dr fi r < fuel)%nat ->
    exists l, rayAttacksLoop fuel b fi r df dr = Ok l.
Proof.
  intros Hd. induction fuel as [| fuel IH]; intros fi r Hlt; [lia |].
  simpl. destruct (toSquare fi r) as [sq |] eqn:Hsq; [| eauto].
  destruct (truthy (mapGet b sq)); [eauto |].
  pose proof (stepsLeft_decr df dr fi r sq Hd Hsq) as Hdec.
  destruct (IH (fi + df) (r + dr)) as [l Hl]; [lia |].
  rewrite Hl. simpl. eauto.
Qed.

(** The loop of [rayAttacks] always leaves by [break] when the direction is
    not [(0, 0)]. *)
Lemma rayAttacks_total (from : string) (df dr : Z) (b : Board) (c : Color) :
  df <> 0 \/ dr <> 0 -> exists l, rayAttacks from df dr b c = Ok l.
Proof.
  intros Hd. unfold rayAttacks. destruct (parseSquare from); [| eauto].
  apply rayAttacksLoop_fuel; [assumption | apply stepsLeft_bound].
Qed.

(** A ray of the move generator pushes what the attack ray visits, less the
    squares held by the mover's own colour. *)
Lemma rayLoop_filter (b : Board) (c : Color) (df dr : Z) :
  forall (fuel : nat) (fi r : Z),
    rayLoop fuel b c fi r df dr =
    mapResult (filter (notOwn b c)) (rayAttacksLoop fuel b fi r df dr).
Proof.
  induction fuel as [| fuel IH]; intros fi r; simpl; [reflexivity |].
  destruct (toSquare fi r) as [sq |]; [| reflexivity].
  assert (N : notOwn b c sq = match mapGet b sq with
                              | Pc occ => negb (Color_eqb (color occ) c)
                              | _ => true
                              end) by reflexivity.
  unfold addIfOk. destruct (mapGet b sq) as [| | occ]; simpl.
  - rewrite IH. destruct (rayAttacksLoop fuel b (fi + df) (r + dr) df dr); simpl;
      [| reflexivity].
    now rewrite N.
  - now rewrite N.
  - rewrite N. destruct (negb (Color_eqb (color occ) c)); reflexivity.
Qed.

Lemma ray_filter (b : Board) (c : Color) (from : string) (df dr : Z) :
  ray b c from df dr = mapResult (filter (notOwn b c)) (rayAttacks from df dr b c).
Proof.
  unfold ray, rayAttacks. destruct (parseSquare from); [| reflexivity].
  apply rayLoop_filter.
Qed.

Lemma castRays_filter (f : string -> bool) (cast cast' : Z -> Z -> result (list string))
  (dirs : list (Z * Z)) :
  (forall df dr, cast df dr = mapResult (filter f) (cast' df dr)) ->
  castRays cast dirs = mapResult (filter f) (castRays cast' dirs).
Proof.
  intros Hc. induction dirs as [| [df dr] dirs IH]; simpl; [reflexivity |].
  rewrite Hc, IH. destruct (cast' df dr); simpl; [| reflexivity].
  destruct (castRays cast' dirs); simpl; [| reflexivity].
  now rewrite filter_app.
Qed.

Lemma castRays_total (cast : Z -> Z -> result (list string)) (dirs : list (Z * Z)) :
  (forall df dr, In (df, dr) dirs -> exists l, cast df dr = Ok l) ->
  exists l, castRays cast dirs = Ok l.
Proof.
  induction dirs as [| [df dr] dirs IH]; intros Hc; simpl; [eauto |].
  destruct (Hc df dr) as [a Ha]; [now left |]. rewrite Ha. simpl.
  destruct IH as [l Hl]; [intros; apply Hc; now right |].
  rewrite Hl. simpl. eauto.
Qed.

Lemma castRays_In (cast : Z -> Z -> result (list string)) (dirs : list (Z * Z))
  (l : list string) (q : string) :
  castRays cast dirs = Ok l ->
  (In q l <-> exists df dr a, In (df, dr) dirs /\ cast df dr = Ok a /\ In q a).
Proof.
  revert l. induction dirs as [| [df dr] dirs IH]; intros l; simpl.
  - intros [= <-]. split; [contradiction | intros (? & ? & ? & [] & _)].
  - intros E. inv_bind E. inv_bind E. injection E as <-.
    rewrite in_app_iff, (IH _ E1). split.
    + intros [Hq | (df' & dr' & a' & Hin & Hc & Hq)].
      * exists df, dr, a. auto.
      * exists df', dr', a'. auto.
    + intros (df' & dr' & a' & [[= <- <-] | Hin] & Hc & Hq).
      * left. congruence.
      * right. eauto 8.
Qed.

Lemma flat_map_addIfOk (b : Board) (c : Color) (l : list string) :
  flat_map (fun sq => fst (addIfOk b c sq)) l = filter (notOwn b c) l.
Proof.
  induction l as [| sq l IH]; simpl; [reflexivity |]. rewrite IH.
  unfold addIfOk, notOwn. destruct (mapGet b sq) as [| | occ]; simpl; try reflexivity.
  destruct (negb (Color_eqb (color occ) c)); reflexivity.
Qed.

(** The pseudo-legal destinations of a piece are its attacked squares less
    those held by its own colour, for every piece type. *)
Lemma pseudoMoves_filter_attacks (p : Piece) (from : string) (b : Board) :
  pseudoMovesForPiece p from b =
  mapResult (filter (notOwn b (color p))) (attacksFromSquare from p b).
Proof.
  unfold pseudoMovesForPiece, attacksFromSquare, attacksAs.
  pose proof (fun dirs => castRays_filter (notOwn b (color p))
    (ray b (color p) from) (fun df dr => rayAttacks from df dr b (color p)) dirs
    (ray_filter b (color p) from)) as R.
  destruct (type p); cbn -[castRays rookDirections bishopDirections];
    rewrite ?flat_map_addIfOk; try reflexivity.
  - rewrite !R.
    destruct (castRays (fun df dr => rayAttacks from df dr b (color p))
                rookDirections); cbn [bind mapResult]; [| reflexivity].
    destruct (castRays (fun df dr => rayAttacks from df dr b (color p))
                bishopDirections); cbn [bind mapResult]; [| reflexivity].
    now rewrite filter_app.
  - rewrite R.
    destruct (castRays (fun df dr => rayAttacks from df dr b (color p))
                rookDirections); cbn [bind mapResult]; [| reflexivity].
    now rewrite app_nil_r.
  - rewrite R.
    destruct (castRays (fun df dr => rayAttacks from df dr b (color p))
                bishopDirections); cbn [bind mapResult]; reflexivity.
Qed.

Lemma directions_nonzero (df dr : Z) :
  In (df, dr) (rookDirections ++ bishopDirections) -> df <> 0 \/ dr <> 0.
Proof.
  simpl. intros H.
  repeat (destruct H as [[= <- <-] | H]; [lia |]). contradiction.
Qed.

Lemma attacksFromSquare_total (sq : string) (p : Piece) (b : Board) :
  exists l, attacksFromSquare sq p b = Ok l.
Proof.
  assert (R : forall dirs, incl dirs (rookDirections ++ bishopDirections) ->
    exists l, castRays (fun df dr => rayAttacks sq df dr b (color p)) dirs = Ok l).
  { intros dirs Hi. apply castRays_total. intros df dr Hin.
    apply rayAttacks_total, directions_nonzero, Hi, Hin. }
  unfold attacksFromSquare, attacksAs. destruct (type p); eauto.
  - destruct (R rookDirections) as [a Ha]; [apply incl_appl, incl_refl |].
    destruct (R bishopDirections) as [a' Ha']; [apply incl_appr, incl_refl |].
    rewrite Ha, Ha'. simpl. eauto.
  - apply R, incl_appl, incl_refl.
  - apply R, incl_appr, incl_refl.
Qed.

Lemma pseudoMovesForPiece_total (p : Piece) (from : string) (b : Board) :
  exists l, pseudoMovesForPiece p from b = Ok l.
Proof.
  rewrite pseudoMoves_filter_attacks.
  destruct (attacksFromSquare_total from p b) as [l ->]. simpl. eauto.
Qed.

Lemma rayAttacksLoop_In (b : Board) (df dr : Z) :
  forall (fuel : nat) (fi r : Z) (l : list string),
    rayAttacksLoop fuel b fi r df dr = Ok l ->
    forall q, In q l <->
      exists k : nat,
        toSquare (fi + Z.of_nat k * df) (r + Z.of_nat k * dr) = Some q /\
        forall j : nat, (j < k)%nat ->
          exists qj, toSquare (fi + Z.of_nat j * df) (r + Z.of_nat j * dr) = Some qj /\
                     isEmptySquare b qj = true.
Proof.
  induction fuel as [| fuel IH]; intros fi r l E q; simpl in E; [discriminate |].
  assert (Z0 : forall x d, x + Z.of_nat 0 * d = x) by (intros; simpl; lia).
  assert (ZS : forall x d k, x + Z.of_nat (S k) * d = (x + d) + Z.of_nat k * d)
    by (intros; lia).
  destruct (toSquare fi r) as [sq |] eqn:Hsq.
  - destruct (truthy (mapGet b sq)) eqn:Hocc.
    + injection E as <-. simpl. split.
      * intros [<- | []]. exists O. rewrite !Z0. split; [assumption | intros; lia].
      * intros ([| k] & Hk & Hprev).
        -- rewrite !Z0 in Hk. left. congruence.
        -- destruct (Hprev O ltac:(lia)) as (qj & Hqj & Hempty).
           rewrite !Z0 in Hqj. unfold isEmptySquare in Hempty.
           assert (qj = sq) by congruence. subst qj. rewrite Hocc in Hempty.
           discriminate.
    + inv_bind E. injection E as <-. simpl. rewrite (IH _ _ _ E0 q). split.
      * intros [<- | (k & Hk & Hprev)].
        -- exists O. rewrite !Z0. split; [assumption | intros; lia].
        -- exists (S k). rewrite !ZS. split; [assumption |].
           intros [| j] Hj.
           ++ rewrite !Z0. exists sq. unfold isEmptySquare. now rewrite Hocc.
           ++ rewrite !ZS. apply Hprev. lia.
      * intros ([| k] & Hk & Hprev).
        -- rewrite !Z0 in Hk. left. congruence.
        -- right. exists k. rewrite !ZS in Hk. split; [assumption |].
           intros j Hj. specialize (Hprev (S j) ltac:(lia)).
           now rewrite !ZS in Hprev.
  - injection E as <-. simpl. split; [contradiction |].
    intros ([| k] & Hk & Hprev).
    + rewrite !Z0 in Hk. congruence.
    + destruct (Hprev O ltac:(lia)) as (qj & Hqj & _).
      rewrite !Z0 in Hqj. congruence.
Qed.




(** ** Boards *)

Lemma hasKing_kingCount (c : Color) (b : Board) :
  hasKing c b = false <-> kingCount c b = O.
Proof.
  unfold hasKing, kingCount. induction b as [| [k v] b IH]; simpl; [tauto |].
  destruct (isKingOf c v); simpl; [split; discriminate | exact IH].
Qed.

Lemma isKingOf_Pc (c : Color) (v : Slot) :
  isKingOf c v = true <-> v = Pc {| type := King; color := c |}.
Proof.
  destruct v as [| | [t c']]; simpl; try (split; discriminate).
  rewrite andb_true_iff, PieceType_eqb_eq, Color_eqb_eq.
  split; [intros [-> ->]; reflexivity | intros [= -> ->]; auto].
Qed.

Lemma kingCount_In (c : Color) (b : Board) (k : string) :
  In (k, Pc {| type := King; color := c |}) b -> (1 <= kingCount c b)%nat.
Proof.
  unfold kingCount. intros Hin.
  assert (H : In (k, Pc {| type := King; color := c |})
                (filter (fun e => isKingOf c (snd e)) b)).
  { apply filter_In. split; [assumption |]. now apply isKingOf_Pc. }
  destruct (filter (fun e => isKingOf c (snd e)) b); [contradiction | simpl; lia].
Qed.

Lemma kingCount_unique (c : Color) (b : Board) (k k' : string) :
  (kingCount c b <= 1)%nat ->
  In (k, Pc {| type := King; color := c |}) b ->
  In (k', Pc {| type := King; color := c |}) b -> k = k'.
Proof.
  unfold kingCount. intros Hc H1 H2.
  assert (F : forall x, In (x, Pc {| type := King; color := c |}) b ->
            In (x, Pc {| type := King; color := c |})
               (filter (fun e => isKingOf c (snd e)) b)).
  { intros x Hx. apply filter_In. split; [assumption |]. now apply isKingOf_Pc. }
  apply F in H1, H2.
  destruct (filter (fun e => isKingOf c (snd e)) b) as [| e [| e' l]];
    simpl in *; [contradiction | | lia].
  destruct H1 as [E1 | []], H2 as [E2 | []]. congruence.
Qed.

Lemma spread_isKingOf (c : Color) (v : Slot) : isKingOf c (spread v) = isKingOf c v.
Proof. destruct v; reflexivity. Qed.

Lemma kingCount_clone (c : Color) (b : Board) :
  kingCount c (cloneBoard b) = kingCount c b.
Proof.
  unfold kingCount, cloneBoard. induction b as [| [k v] b IH]; simpl; [reflexivity |].
  rewrite spread_isKingOf. destruct (isKingOf c v); simpl; congruence.
Qed.

Lemma kingCount_delete (c : Color) (b : Board) (k : string) :
  (kingCount c (mapDelete b k) + (if isKingOf c (mapGet b k) then 1 else 0)
   <= kingCount c b)%nat.
Proof.
  unfold kingCount. induction b as [| [k' v] b IH]; simpl; [lia |].
  destruct (String.eqb k' k).
  - pose proof (filter_length_le (fun e => isKingOf c (snd e))
                  (fun e => isKingOf c (snd e)) b ltac:(auto)).
    assert (L : (List.length (filter (fun e => isKingOf c (snd e)) (mapDelete b k))
                 <= List.length (filter (fun e => isKingOf c (snd e)) b))%nat).
    { destruct (isKingOf c (mapGet b k)); lia. }
    destruct (isKingOf c v); simpl; lia.
  - simpl. destruct (isKingOf c v); simpl; lia.
Qed.

Lemma kingCount_set (c : Color) (b : Board) (k : string) (v : Slot) :
  (kingCount c (mapSet b k v) <= kingCount c b + (if isKingOf c v then 1 else 0))%nat.
Proof.
  unfold kingCount. induction b as [| [k' v'] b IH]; simpl.
  - destruct (isKingOf c v); simpl; lia.
  - destruct (String.eqb k' k); simpl.
    + destruct (isKingOf c v), (isKingOf c v'); simpl; lia.
    + destruct (isKingOf c v'); simpl; lia.
Qed.

Lemma mapGet_clone (b : Board) (k : string) :
  mapGet (cloneBoard b) k = match mapGet b k with
                            | Pc p => Pc p
                            | _ => if mapHas b k then EmptyObject else Undefined
                            end.
Proof.
  unfold cloneBoard, mapHas. induction b as [| [k' v] b IH]; simpl; [reflexivity |].
  destruct (String.eqb k' k); simpl; [destruct v; reflexivity | exact IH].
Qed.

(** A move never adds a king of either colour. *)
Lemma kingCount_applyMove (c : Color) (b : Board) (from to : string) :
  (kingCount c (applyMove b from to) <= kingCount c b)%nat.
Proof.
  unfold applyMove.
  pose proof (kingCount_set c (mapDelete (cloneBoard b) from) to
                (mapGet (cloneBoard b) from)) as Hs.
  pose proof (kingCount_delete c (cloneBoard b) from) as Hd.
  rewrite kingCount_clone in Hd. lia.
Qed.

Lemma piecesOnly_clone (b : Board) : piecesOnly b -> cloneBoard b = b.
Proof.
  unfold piecesOnly, cloneBoard. induction 1 as [| [k v] b [p Hp] _ IH]; simpl;
    [reflexivity |].
  simpl in Hp. subst v. now rewrite IH.
Qed.

Lemma piecesOnly_delete (b : Board) (k : string) :
  piecesOnly b -> piecesOnly (mapDelete b k).
Proof.
  unfold piecesOnly. induction 1 as [| [k' v] b Hv _ IH]; simpl; [constructor |].
  destruct (String.eqb k' k); [assumption | now constructor].
Qed.

Lemma piecesOnly_set (b : Board) (k : string) (p : Piece) :
  piecesOnly b -> piecesOnly (mapSet b k (Pc p)).
Proof.
  unfold piecesOnly. induction 1 as [| [k' v] b Hv Hb IH]; simpl.
  - constructor; [simpl; eauto | constructor].
  - destruct (String.eqb k' k); constructor; simpl; eauto.
Qed.

Lemma applyMove_pieces (b : Board) (from to : string) (p : Piece) :
  piecesOnly b -> mapGet b from = Pc p ->
  applyMove b from to = mapSet (mapDelete b from) to (Pc p).
Proof.
  intros Hb Hp. unfold applyMove. now rewrite (piecesOnly_clone b Hb), Hp.
Qed.

Lemma applyMove_piecesOnly (b : Board) (from to : string) (p : Piece) :
  piecesOnly b -> mapGet b from = Pc p -> piecesOnly (applyMove b from to).
Proof.
  intros Hb Hp. rewrite (applyMove_pieces b from to p Hb Hp).
  now apply piecesOnly_set, piecesOnly_delete.
Qed.

Lemma piecesOnly_mapGet (b : Board) (k : string) (v : Slot) :
  piecesOnly b -> In (k, v) b -> exists p, mapGet b k = Pc p.
Proof.
  unfold piecesOnly. induction 1 as [| [k' v'] b [p Hp] _ IH]; simpl; [contradiction |].
  simpl in Hp. subst v'. intros [E | Hin].
  - inversion E; subst. rewrite String.eqb_refl. eauto.
  - destruct (String.eqb k' k); eauto.
Qed.

Lemma mapGet_In (b : Board) (k : string) (p : Piece) :
  mapGet b k = Pc p -> In (k, Pc p) b.
Proof.
  induction b as [| [k' v] b IH]; simpl; [discriminate |].
  destruct (String.eqb k' k) eqn:E.
  - apply String.eqb_eq in E. intros ->. left. congruence.
  - intros H. right. auto.
Qed.

(** ** The loops over the board run to their end on a board of pieces *)

Lemma lastKings_total (entries : Board) :
  piecesOnly entries -> forall wk bk, exists r, lastKings entries wk bk = Ok r.
Proof.
  unfold piecesOnly. induction 1 as [| [k v] b [p Hp] _ IH]; intros wk bk; simpl;
    [eauto |].
  simpl in Hp. subst v. apply IH.
Qed.

Lemma kingsAreSeparated_total (b : Board) :
  piecesOnly b -> exists v, kingsAreSeparated b = Ok v.
Proof.
  intros Hb. unfold kingsAreSeparated.
  destruct (lastKings_total b Hb None None) as [[wk bk] ->]. simpl.
  destruct (falsyKey wk || falsyKey bk); [eauto |].
  destruct wk, bk; eauto.
Qed.

Lemma firstKing_total (entries : Board) (c : Color) :
  piecesOnly entries -> exists r, firstKing entries c = Ok r.
Proof.
  unfold piecesOnly. induction 1 as [| [k v] b [p Hp] _ IH]; simpl; [eauto |].
  simpl in Hp. subst v.
  destruct (PieceType_eqb (type p) King && Color_eqb (color p) c); eauto.
Qed.

Lemma isSquareAttackedLoop_total (entries : Board) (q : string) (c : Color) (b : Board) :
  piecesOnly entries -> exists v, isSquareAttackedLoop entries q c b = Ok v.
Proof.
  unfold piecesOnly. induction 1 as [| [k v] es [p Hp] _ IH]; simpl; [eauto |].
  simpl in Hp. subst v.
  destruct (negb (Color_eqb (color p) c)); [assumption |].
  destruct (attacksFromSquare_total k p b) as [l ->]. simpl.
  destruct (includes q l); eauto.
Qed.

Lemma isCheck_total (c : Color) (b : Board) :
  piecesOnly b -> exists v, isCheck c b = Ok v.
Proof.
  intros Hb. unfold isCheck. destruct (firstKing_total b c Hb) as [r ->]. simpl.
  destruct (falsyKey r); [eauto |]. destruct r; [| eauto].
  now apply isSquareAttackedLoop_total.
Qed.

Lemma keepsLegal_total (p p' : Piece) (from to : string) (b : Board) :
  piecesOnly b -> mapGet b from = Pc p' -> exists v, keepsLegal p from b to = Ok v.
Proof.
  intros Hb Hp. pose proof (applyMove_piecesOnly b from to p' Hb Hp) as Hn.
  unfold keepsLegal.
  destruct (kingsAreSeparated_total _ Hn) as [sep ->]. simpl.
  destruct sep; simpl; [| eauto].
  destruct (isCheck_total (color p) _ Hn) as [chk ->]. simpl.
  destruct chk; [eauto |].
  destruct (PieceType_eqb (type p) King); [| eauto].
  destruct (isSquareAttackedLoop_total _ to (oppositeColor (color p))
              (applyMove b from to) Hn) as [att Ha].
  unfold isSquareAttacked. rewrite Ha. simpl. destruct att; eauto.
Qed.

Lemma legalLoop_total (p p' : Piece) (from : string) (b : Board) (cand : list string) :
  piecesOnly b -> mapGet b from = Pc p' -> exists l, legalLoop p from b cand = Ok l.
Proof.
  intros Hb Hp. induction cand as [| to cand [l IH]]; simpl; [eauto |].
  destruct (keepsLegal_total p p' from to b Hb Hp) as [v ->]. simpl.
  rewrite IH. simpl. eauto.
Qed.

Lemma getLegalMoves_total (p p' : Piece) (from : string) (b : Board) :
  piecesOnly b -> mapGet b from = Pc p' -> exists l, getLegalMoves p from b = Ok l.
Proof.
  intros Hb Hp. unfold getLegalMoves.
  destruct (pseudoMovesForPiece_total p from b) as [cand ->]. simpl.
  now apply (legalLoop_total p p').
Qed.

Lemma allLegalMovesLoop_total (entries : Board) (c : Color) (b : Board) :
  piecesOnly b -> incl entries b -> exists l, allLegalMovesLoop entries c b = Ok l.
Proof.
  intros Hb. induction entries as [| [k v] es IH]; intros Hi; simpl; [eauto |].
  assert (Hes : incl es b) by (intros x Hx; apply Hi; now right).
  destruct (piecesOnly_mapGet b k v Hb (Hi _ (or_introl eq_refl))) as [p' Hp'].
  assert (Hv : exists p, v = Pc p).
  { unfold piecesOnly in Hb. rewrite Forall_forall in Hb.
    exact (Hb _ (Hi _ (or_introl eq_refl))). }
  destruct Hv as [p ->].
  destruct (negb (Color_eqb (color p) c)); [auto |].
  destruct (getLegalMoves_total p p' k b Hb Hp') as [l ->]. simpl.
  destruct (IH Hes) as [out ->]. simpl. eauto.
Qed.

Lemma allLegalMoves_total (c : Color) (b : Board) :
  piecesOnly b -> exists l, allLegalMoves c b = Ok l.
Proof. intros Hb. apply allLegalMovesLoop_total; [assumption | apply incl_refl]. Qed.

Lemma isCheckmate_total (c : Color) (b : Board) :
  piecesOnly b -> exists v, isCheckmate c b = Ok v.
Proof.
  intros Hb. unfold isCheckmate. destruct (isCheck_total c b Hb) as [chk ->]. simpl.
  destruct chk; simpl; [| eauto].
  destruct (allLegalMoves_total c b Hb) as [l ->]. simpl. eauto.
Qed.

(** ** Kings *)

Lemma lastKings_spec (entries : Board) :
  forall wk0 bk0 wk bk,
    lastKings entries wk0 bk0 = Ok (wk, bk) ->
    (wk = wk0 /\ kingCount White entries = O \/
     exists sq, wk = Some sq /\ In (sq, Pc whiteKing) entries) /\
    (bk = bk0 /\ kingCount Black entries = O \/
     exists sq, bk = Some sq /\ In (sq, Pc blackKing) entries).
Proof.
  unfold kingCount.
  induction entries as [| [k v] es IH]; intros wk0 bk0 wk bk E; simpl in E.
  - injection E as <- <-. simpl. auto.
  - destruct v as [| | p]; [discriminate | |].
    + destruct (IH _ _ _ _ E) as [[[-> Hw] | (sq & -> & Hw)] [[-> Hb] | (sq' & -> & Hb)]];
        simpl; split; eauto 6.
    + destruct (IH _ _ _ _ E) as [HW HB]. simpl.
      pose proof (isKingOf_Pc White (Pc p)) as KW.
      pose proof (isKingOf_Pc Black (Pc p)) as KB. simpl in KW, KB.
      split.
      * destruct HW as [[-> Hw] | (sq & -> & Hw)]; [| right; eauto].
        destruct (PieceType_eqb (type p) King && Color_eqb (color p) White).
        -- right. exists k. split; [reflexivity |]. left.
           f_equal. now apply KW.
        -- left. auto.
      * destruct HB as [[-> Hb] | (sq & -> & Hb)]; [| right; eauto].
        destruct (PieceType_eqb (type p) King && Color_eqb (color p) Black).
        -- right. exists k. split; [reflexivity |]. left.
           f_equal. now apply KB.
        -- left. auto.
Qed.

Lemma kingsAreSeparated_true (b : Board) :
  kingsAreSeparated b = Ok true ->
  exists wk bk,
    In (wk, Pc whiteKing) b /\ In (bk, Pc blackKing) b /\
    wk <> "" /\ bk <> "" /\ squaresAreAdjacent wk bk = false.
Proof.
  unfold kingsAreSeparated. intros E. inv_bind E. destruct a as [wk bk].
  destruct (lastKings_spec _ _ _ _ _ E0) as [HW HB].
  destruct wk as [wk |]; [| discriminate].
  destruct bk as [bk |]; [| simpl in E; rewrite orb_true_r in E; discriminate].
  simpl in E. destruct (String.eqb_spec wk ""); [discriminate |].
  destruct (String.eqb_spec bk ""); [discriminate |]. simpl in E.
  injection E as E. apply negb_true_iff in E.
  destruct HW as [[[=] _] | (sq & [= <-] & Hw)].
  destruct HB as [[[=] _] | (sq' & [= <-] & Hb)].
  exists wk, bk. auto.
Qed.

Lemma kingsAreSeparated_noKing (b : Board) (c : Color) :
  piecesOnly b -> kingCount c b = O -> kingsAreSeparated b = Ok false.
Proof.
  intros Hb Hc. unfold kingsAreSeparated.
  destruct (lastKings_total b Hb None None) as [[wk bk] E]. rewrite E. simpl.
  destruct (lastKings_spec _ _ _ _ _ E) as [HW HB].
  destruct c.
  - destruct HW as [[-> _] | (sq & _ & Hin)]; [reflexivity |].
    apply kingCount_In in Hin. lia.
  - destruct HB as [[-> _] | (sq & _ & Hin)]; [now rewrite orb_true_r |].
    apply kingCount_In in Hin. lia.
Qed.

Lemma firstKing_spec (entries : Board) (c : Color) (r : option string) :
  firstKing entries c = Ok r ->
  (r = None /\ kingCount c entries = O) \/
  (exists sq, r = Some sq /\ In (sq, Pc {| type := King; color := c |}) entries).
Proof.
  unfold kingCount. induction entries as [| [k v] es IH]; simpl; intros E.
  - injection E as <-. auto.
  - destruct v as [| | p]; [discriminate | |].
    + destruct (IH E) as [[-> H] | (sq & -> & H)]; eauto.
    + pose proof (isKingOf_Pc c (Pc p)) as K. simpl in K. simpl.
      destruct (PieceType_eqb (type p) King && Color_eqb (color p) c).
      * injection E as <-. right. exists k. split; [reflexivity |]. left.
        f_equal. now apply K.
      * destruct (IH E) as [[-> H] | (sq & -> & H)]; eauto.
Qed.

Lemma isCheck_noKing (c : Color) (b : Board) :
  piecesOnly b -> kingCount c b = O -> isCheck c b = Ok false.
Proof.
  intros Hb Hc. unfold isCheck. destruct (firstKing_total b c Hb) as [r E].
  rewrite E. simpl.
  destruct (firstKing_spec _ _ _ E) as [[-> _] | (sq & _ & Hin)]; [reflexivity |].
  apply kingCount_In in Hin. lia.
Qed.

Lemma isCheck_false_king (c : Color) (b : Board) (k : string) :
  isCheck c b = Ok false -> (kingCount c b <= 1)%nat ->
  In (k, Pc {| type := King; color := c |}) b -> k <> "" ->
  isSquareAttacked k (oppositeColor c) b = Ok false.
Proof.
  unfold isCheck. intros E Hc Hin Hk. inv_bind E.
  destruct (firstKing_spec _ _ _ E0) as [[-> Hz] | (sq & -> & Hsq)].
  - apply kingCount_In in Hin. lia.
  - assert (sq = k) by (eapply kingCount_unique; eauto). subst sq.
    simpl in E. destruct (String.eqb_spec k ""); [contradiction | assumption].
Qed.

(** ** Map keys *)

Lemma mapDelete_keys (b : Board) (k : string) :
  map fst (mapDelete b k) = filter (fun x => negb (String.eqb x k)) (map fst b).
Proof.
  induction b as [| [k' v] b IH]; simpl; [reflexivity |].
  destruct (String.eqb k' k); simpl; congruence.
Qed.

Lemma mapSet_keys (b : Board) (k : string) (v : Slot) (x : string) :
  In x (map fst (mapSet b k v)) <-> x = k \/ In x (map fst b).
Proof.
  induction b as [| [k' v'] b IH]; simpl; [intuition congruence |].
  destruct (String.eqb_spec k' k); simpl; [subst; intuition congruence |].
  rewrite IH. tauto.
Qed.

Lemma NoDup_mapSet (b : Board) (k : string) (v : Slot) :
  NoDup (map fst b) -> NoDup (map fst (mapSet b k v)).
Proof.
  induction b as [| [k' v'] b IH]; simpl; intros Hn.
  - constructor; [intros [] | constructor].
  - inversion Hn as [| ? ? Hnot Hrest]; subst.
    destruct (String.eqb_spec k' k); simpl.
    + subst. now constructor.
    + constructor; [| auto]. rewrite mapSet_keys. intros [-> | Hin]; contradiction.
Qed.

Lemma NoDup_applyMove (b : Board) (from to : string) :
  NoDup (map fst b) -> NoDup (map fst (applyMove b from to)).
Proof.
  intros Hn. unfold applyMove. apply NoDup_mapSet. rewrite mapDelete_keys.
  apply NoDup_filter. unfold cloneBoard. now rewrite map_map, map_ext_in with (g := fst).
Qed.

Lemma NoDup_keys_value (b : Board) (k : string) (v v' : Slot) :
  NoDup (map fst b) -> In (k, v) b -> In (k, v') b -> v = v'.
Proof.
  induction b as [| [k' w] b IH]; simpl; [contradiction |].
  intros Hn H1 H2. inversion Hn as [| ? ? Hnot Hrest]; subst.
  assert (K : forall u, In (k', u) b -> False).
  { intros u Hu. apply Hnot. change k' with (fst (k', u)). now apply in_map. }
  destruct H1 as [E1 | H1], H2 as [E2 | H2].
  - congruence.
  - inversion E1; subst. exfalso. eauto.
  - inversion E2; subst. exfalso. eauto.
  - auto.
Qed.

(** ** Legality filter *)

Lemma legalLoop_In (p : Piece) (from : string) (b : Board) (cand l : list string)
  (to : string) :
  legalLoop p from b cand = Ok l -> In to l ->
  In to cand /\ keepsLegal p from b to = Ok true.
Proof.
  revert l. induction cand as [| x cand IH]; intros l E Hin; simpl in E.
  - injection E as <-. contradiction.
  - inv_bind E. inv_bind E. injection E as <-.
    destruct a; [destruct Hin as [<- | Hin] |].
    + split; [now left | assumption].
    + destruct (IH _ E1 Hin). split; [now right | assumption].
    + destruct (IH _ E1 Hin). split; [now right | assumption].
Qed.

Lemma keepsLegal_true (p : Piece) (from to : string) (b : Board) :
  keepsLegal p from b to = Ok true ->
  kingsAreSeparated (applyMove b from to) = Ok true /\
  isCheck (color p) (applyMove b from to) = Ok false /\
  (type p = King ->
   isSquareAttacked to (oppositeColor (color p)) (applyMove b from to) = Ok false).
Proof.
  unfold keepsLegal. intros E. inv_bind E. destruct a; [| discriminate].
  simpl in E. inv_bind E. destruct a; [discriminate |].
  split; [assumption |]. split; [assumption |]. intros Ht. rewrite Ht in E.
  simpl in E. inv_bind E. destruct a; [discriminate | assumption].
Qed.

(** C4.  On a board with one king of each colour, every destination that
    [getLegalMoves] returns for the piece standing on [from] leads to a
    board on which both kings stand, on distinct squares that are not
    adjacent, the mover's king is not attacked by the other colour, and a
    king that moved stands on a square the other colour does not attack. *)
Theorem legal_move_keeps_invariants (b : Board) (p : Piece) (from to : string)
  (l : list string) :
  NoDup (map fst b) ->
  kingCount White b = 1%nat -> kingCount Black b = 1%nat ->
  mapGet b from = Pc p ->
  getLegalMoves p from b = Ok l -> In to l ->
  let next := applyMove b from to in
  (exists wk bk, In (wk, Pc whiteKing) next /\ In (bk, Pc blackKing) next) /\
  (forall wk bk, In (wk, Pc whiteKing) next -> In (bk, Pc blackKing) next ->
     wk <> bk /\ squaresAreAdjacent wk bk = false) /\
  (forall k, In (k, Pc {| type := King; color := color p |}) next ->
     isSquareAttacked k (oppositeColor (color p)) next = Ok false) /\
  (type p = King -> isSquareAttacked to (oppositeColor (color p)) next = Ok false).
Proof.
  intros Hnd HW HB Hfrom E Hto next. unfold getLegalMoves in E. inv_bind E.
  destruct (legalLoop_In _ _ _ _ _ _ E Hto) as [_ Hkeep].
  destruct (keepsLegal_true _ _ _ _ Hkeep) as (Hsep & Hchk & Hking).
  fold next in Hsep, Hchk, Hking.
  destruct (kingsAreSeparated_true _ Hsep) as (wk & bk & Hwk & Hbk & Hwk0 & Hbk0 & Hadj).
  pose proof (kingCount_applyMove White b from to) as CW.
  pose proof (kingCount_applyMove Black b from to) as CB.
  fold next in CW, CB.
  pose proof (NoDup_applyMove b from to Hnd) as Hnd'. fold next in Hnd'.
  split; [eauto |]. split; [| split; [| assumption]].
  - intros wk' bk' Hwk' Hbk'.
    assert (wk' = wk) by (eapply (kingCount_unique White); eauto; lia).
    assert (bk' = bk) by (eapply (kingCount_unique Black); eauto; lia).
    subst wk' bk'. split; [| assumption]. intros ->.
    pose proof (NoDup_keys_value _ _ _ _ Hnd' Hwk Hbk). discriminate.
  - intros k Hk. apply isCheck_false_king; try assumption.
    + destruct (color p); lia.
    + destruct (color p).
      * assert (k = wk) by (eapply (kingCount_unique White); eauto; lia). congruence.
      * assert (k = bk) by (eapply (kingCount_unique Black); eauto; lia). congruence.
Qed.

(** ** Classification *)

(** C6.  Under every installed board size, called on any game object with
    any board argument, [isCheckmate] implies [isCheck] and an empty
    [allLegalMoves], and [isStalemate] implies that [isCheck] is false; with
    the board passed explicitly, the three classifiers give the same answer
    on every game object: besides the colour and the board they read the
    installed tables [FILES] and [RANKS] only, and nothing of the receiver. *)
Theorem classifier_implications (this : Position) (c : Color) (arg : option Board) :
  (callIsCheckmate this c arg = Ok true ->
   callIsCheck this c arg = Ok true /\ callAllLegalMoves this c arg = Ok []) /\
  (callIsStalemate this c arg = Ok true ->
   callIsCheck this c arg = Ok false /\ callAllLegalMoves this c arg = Ok []) /\
  (forall (this' : Position) (B : Board),
     callIsCheck this c (Some B) = callIsCheck this' c (Some B) /\
     callIsCheckmate this c (Some B) = callIsCheckmate this' c (Some B) /\
     callIsStalemate this c (Some B) = callIsStalemate this' c (Some B)).
Proof.
  unfold callIsCheckmate, callIsStalemate, callIsCheck, callAllLegalMoves,
    isCheckmate, isStalemate.
  split; [| split].
  - intros E. inv_bind E. destruct a; [| discriminate]. simpl in E. inv_bind E.
    destruct a; [| discriminate]. auto.
  - intros E. inv_bind E. destruct a; [discriminate |]. inv_bind E.
    destruct a; [| discriminate]. auto.
  - intros this' B. simpl. auto.
Qed.

(** ** Boards that lack a king *)

Lemma legalLoop_rejected (p : Piece) (from : string) (b : Board) (cand : list string) :
  (forall to, keepsLegal p from b to = Ok false) -> legalLoop p from b cand = Ok [].
Proof.
  intros H. induction cand as [| to cand IH]; simpl; [reflexivity |].
  now rewrite H, IH.
Qed.

Lemma getLegalMoves_noKing (b : Board) (c : Color) (p p' : Piece) (from : string) :
  piecesOnly b -> kingCount c b = O -> mapGet b from = Pc p' ->
  getLegalMoves p from b = Ok [].
Proof.
  intros Hb Hc Hfrom. unfold getLegalMoves.
  destruct (pseudoMovesForPiece_total p from b) as [cand ->]. simpl.
  apply legalLoop_rejected. intros to. unfold keepsLegal.
  rewrite (kingsAreSeparated_noKing _ c); [reflexivity | |].
  - now apply (applyMove_piecesOnly b from to p').
  - pose proof (kingCount_applyMove c b from to). lia.
Qed.

Lemma allLegalMovesLoop_noKing (b : Board) (c c' : Color) (entries : Board) :
  piecesOnly b -> kingCount c b = O -> incl entries b ->
  allLegalMovesLoop entries c' b = Ok [].
Proof.
  intros Hb Hc. induction entries as [| [k v] es IH]; intros Hi; simpl; [reflexivity |].
  assert (Hes : incl es b) by (intros x Hx; apply Hi; now right).
  destruct (piecesOnly_mapGet b k v Hb (Hi _ (or_introl eq_refl))) as [p' Hp'].
  destruct v as [| | p]; [| auto |].
  - unfold piecesOnly in Hb. rewrite Forall_forall in Hb.
    destruct (Hb _ (Hi _ (or_introl eq_refl))) as [? [=]].
  - destruct (negb (Color_eqb (color p) c')); [auto |].
    rewrite (getLegalMoves_noKing b c p p' k Hb Hc Hp'). simpl.
    now rewrite (IH Hes).
Qed.

Lemma lastKings_undefined (entries : Board) (k : string) :
  In (k, Undefined) entries -> forall wk bk, lastKings entries wk bk = Fail TypeError.
Proof.
  induction entries as [| [k' v] es IH]; simpl; [contradiction |].
  intros [E | Hin] wk bk.
  - inversion E. reflexivity.
  - destruct v; auto.
Qed.

(** On a square that holds nothing, [getLegalMoves] throws at the first
    candidate: the simulated board maps the destination to [undefined]. *)
Lemma getLegalMoves_empty_square (b : Board) (p : Piece) (from to : string)
  (cand : list string) :
  mapGet b from = Undefined -> mapHas b from = false ->
  pseudoMovesForPiece p from b = Ok (to :: cand) ->
  getLegalMoves p from b = Fail TypeError.
Proof.
  intros Hget Hhas Hcand. unfold getLegalMoves. rewrite Hcand. simpl.
  unfold keepsLegal, kingsAreSeparated.
  rewrite (lastKings_undefined _ to); [reflexivity |].
  unfold applyMove. rewrite mapGet_clone, Hget, Hhas.
  generalize (mapDelete (cloneBoard b) from). intros m.
  induction m as [| [k' v'] m IH]; simpl; [now left |].
  destruct (String.eqb k' to); simpl; auto.
Qed.

(** C10 (amended).  On a board of pieces that lacks a king of some colour:
    [isCheck] is false for a colour without king; [getLegalMoves] returns
    the empty list for every piece and every occupied square; no colour has
    a legal move; [isStalemate] is true for a colour without king, and so
    for both colours on the empty board. *)
Theorem kingless_board (b : Board) (c : Color) :
  piecesOnly b -> hasKing c b = false ->
  isCheck c b = Ok false /\
  (forall (p p' : Piece) (from : string),
     mapGet b from = Pc p' -> getLegalMoves p from b = Ok []) /\
  (forall c', allLegalMoves c' b = Ok []) /\
  isStalemate c b = Ok true /\
  (forall c', isStalemate c' createEmptyBoard = Ok true).
Proof.
  intros Hb Hk. apply hasKing_kingCount in Hk.
  pose proof (isCheck_noKing c b Hb Hk) as Hchk.
  assert (Hall : forall c', allLegalMoves c' b = Ok []).
  { intros c'. apply (allLegalMovesLoop_noKing b c c'); auto using incl_refl. }
  split; [assumption |]. split; [| split; [assumption | split]].
  - intros p p' from Hfrom. now apply (getLegalMoves_noKing b c p p').
  - unfold isStalemate. rewrite Hchk. simpl. now rewrite Hall.
  - intros c'. reflexivity.
Qed.

(** ** Attack map *)

Lemma isSquareAttackedLoop_true (entries : Board) (q : string) (c : Color) (b : Board) :
  piecesOnly entries ->
  (isSquareAttackedLoop entries q c b = Ok true <->
   exists s p l, In (s, Pc p) entries /\ color p = c /\
                 attacksFromSquare s p b = Ok l /\ In q l).
Proof.
  unfold piecesOnly. induction 1 as [| [k v] es [p Hp] _ IH]; simpl.
  - split; [discriminate | intros (? & ? & ? & [] & _)].
  - simpl in Hp. subst v.
    destruct (attacksFromSquare_total k p b) as [targets Ht].
    destruct (Color_eqb (color p) c) eqn:Ec; simpl.
    + apply Color_eqb_eq in Ec. rewrite Ht. simpl.
      destruct (includes q targets) eqn:Ei.
      * apply includes_In in Ei. split; [| reflexivity].
        intros _. exists k, p, targets. auto.
      * rewrite IH. split.
        -- intros (s & p0 & l & Hin & Hc & Hl & Hq). exists s, p0, l. auto.
        -- intros (s & p0 & l & [E | Hin] & Hc & Hl & Hq).
           ++ inversion E; subst. rewrite Ht in Hl. injection Hl as <-.
              apply includes_In in Hq. congruence.
           ++ exists s, p0, l. auto.
    + rewrite IH. split.
      * intros (s & p0 & l & Hin & Hc & Hl & Hq). exists s, p0, l. auto.
      * intros (s & p0 & l & [E | Hin] & Hc & Hl & Hq).
        -- inversion E; subst. rewrite (proj2 (Color_eqb_eq _ _) eq_refl) in Ec.
           discriminate.
        -- exists s, p0, l. auto.
Qed.

(** C3 (amended).  On a board of pieces, a square that some piece of colour
    [c] can move to pseudo-legally is attacked by [c]; an attacked square is
    such a destination provided it is not held by a piece of colour [c]
    itself; and the attack set of every piece, filtered to the squares not
    held by its own colour, is its pseudo-legal move list. *)
Theorem attacked_iff_pseudo_move (b : Board) (c : Color) (q : string) :
  piecesOnly b ->
  ((exists s p l, In (s, Pc p) b /\ color p = c /\
                  pseudoMovesForPiece p s b = Ok l /\ In q l) ->
   isSquareAttacked q c b = Ok true) /\
  (isSquareAttacked q c b = Ok true -> notOwn b c q = true ->
   exists s p l, In (s, Pc p) b /\ color p = c /\
                 pseudoMovesForPiece p s b = Ok l /\ In q l) /\
  (forall s p, pseudoMovesForPiece p s b =
               mapResult (filter (notOwn b (color p))) (attacksFromSquare s p b)).
Proof.
  intros Hb. unfold isSquareAttacked.
  pose proof (isSquareAttackedLoop_true b q c b Hb) as A.
  split; [| split].
  - intros (s & p & l & Hin & Hc & Hl & Hq). apply A.
    rewrite pseudoMoves_filter_attacks in Hl.
    destruct (attacksFromSquare s p b) as [l' |] eqn:El'; [| discriminate].
    injection Hl as <-. apply filter_In in Hq. exists s, p, l'. tauto.
  - intros Hatt Hown. apply A in Hatt.
    destruct Hatt as (s & p & l & Hin & Hc & Hl & Hq).
    exists s, p, (filter (notOwn b (color p)) l).
    rewrite pseudoMoves_filter_attacks, Hl. simpl.
    repeat split; try assumption. apply filter_In. subst c. auto.
  - intros s p. apply pseudoMoves_filter_attacks.
Qed.

(** ** Position generator *)

(** Rounding moves a value by at most half a unit of the last place. *)
Lemma roundShift_bounds (m k : Z) :
  0 <= m -> 0 < k ->
  0 <= roundShift m k /\ roundShift m k * 2 ^ k <= m + 2 ^ (k - 1).
Proof.
  intros Hm Hk. unfold roundShift.
  destruct (Z.leb_spec k 0) as [H | _]; [lia |].
  assert (Hp : 2 ^ k = 2 * 2 ^ (k - 1)).
  { replace k with (Z.succ (k - 1)) at 1 by lia. apply Z.pow_succ_r. lia. }
  assert (Hh : 0 < 2 ^ (k - 1)) by (apply Z.pow_pos_nonneg; lia).
  pose proof (Z.div_mod m (2 ^ k) ltac:(lia)) as Hdm.
  pose proof (Z.mod_pos_bound m (2 ^ k) ltac:(lia)) as Hr.
  assert (Hq : 0 <= m / 2 ^ k) by (apply Z.div_pos; lia).
  set (q := m / 2 ^ k) in *. set (r := m mod 2 ^ k) in *.
  set (h := 2 ^ (k - 1)) in *. rewrite Hp in *.
  cbv zeta.
  destruct (Z.ltb_spec r h); [split; nia |].
  destruct (Z.ltb_spec h r); [split; nia |].
  destruct (Z.even q); split; nia.
Qed.

Lemma excessBits_cases (m : Z) :
  0 <= m ->
  (excessBits m = 0 /\ m < 2 ^ 53) \/
  (0 < excessBits m /\ 2 ^ 53 * 2 ^ (excessBits m - 1) <= m).
Proof.
  intros Hm. unfold excessBits.
  destruct (Z.eq_dec m 0) as [-> | Hne]; [left; split; reflexivity |].
  destruct (Z.log2_spec m ltac:(lia)) as [Hlo Hhi].
  pose proof (Z.log2_nonneg m) as Hl.
  destruct (Z.le_gt_cases (Z.log2 m + 1 - 53) 0) as [Hle | Hgt].
  - left. split; [lia |].
    eapply Z.lt_le_trans; [exact Hhi |]. apply Z.pow_le_mono_r; lia.
  - right. rewrite Z.max_r by lia. split; [lia |].
    rewrite <- Z.pow_add_r by lia.
    replace (53 + (Z.log2 m + 1 - 53 - 1)) with (Z.log2 m) by lia. exact Hlo.
Qed.

(** The rounded product stays below [n]: a product that needs rounding has
    [n] above half a unit of its last place, and the draw is at least
    [2^-scale] below 1. *)
Lemma randomInt_scaled (d : Draw) (n : Z) :
  0 < n ->
  let k := excessBits (mantissa d * n) in
  let m := roundShift (mantissa d * n) k in
  0 <= k /\ 0 <= m /\ m * 2 ^ k < n * 2 ^ scale d.
Proof.
  intros Hn. destruct d as [m s H]. cbn [mantissa scale].
  repeat (apply andb_true_iff in H; destruct H as [H ?]).
  apply Z.leb_le in H. apply Z.ltb_lt in H3, H2. apply Z.leb_le in H1, H0.
  assert (HM : 0 <= m * n) by nia.
  assert (Hs : 0 < 2 ^ s) by (apply Z.pow_pos_nonneg; lia).
  destruct (excessBits_cases (m * n) HM) as [[-> Hsmall] | [Hk Hbig]]; cbv zeta.
  - unfold roundShift. simpl. split; [lia |]. split; [lia |]. nia.
  - destruct (roundShift_bounds (m * n) _ HM Hk) as [H0' Hup].
    set (k := excessBits (m * n)) in *. set (R := roundShift (m * n) k) in *.
    assert (Hh : 0 < 2 ^ (k - 1)) by (apply Z.pow_pos_nonneg; lia).
    split; [lia |]. split; [assumption |].
    assert (Hn' : 2 ^ (k - 1) < n) by nia.
    assert (m * n <= (2 ^ s - 1) * n) by nia.
    nia.
Qed.

Lemma randomInt_range (d : Draw) (n : Z) :
  0 < n -> 0 <= randomInt d n < n.
Proof.
  intros Hn.
  assert (Hs : 0 <= scale d).
  { pose proof (draw_range d) as H.
    repeat (apply andb_true_iff in H; destruct H as [H ?]).
    apply Z.leb_le. assumption. }
  destruct (randomInt_scaled d n Hn) as (Hk & Hm & Hlt).
  unfold randomInt. cbv zeta in *.
  set (k := excessBits (mantissa d * n)) in *.
  set (m := roundShift (mantissa d * n) k) in *.
  destruct (Z.leb_spec (scale d) k) as [Hle | Hgt].
  - assert (Hp : 2 ^ k = 2 ^ (k - scale d) * 2 ^ scale d).
    { rewrite <- Z.pow_add_r by lia. f_equal. lia. }
    assert (0 < 2 ^ (k - scale d)) by (apply Z.pow_pos_nonneg; lia).
    assert (0 < 2 ^ scale d) by (apply Z.pow_pos_nonneg; lia).
    rewrite Hp in Hlt. split; [nia |]. nia.
  - assert (Hp : 2 ^ scale d = 2 ^ (scale d - k) * 2 ^ k).
    { rewrite <- Z.pow_add_r by lia. f_equal. lia. }
    assert (0 < 2 ^ (scale d - k)) by (apply Z.pow_pos_nonneg; lia).
    assert (0 < 2 ^ k) by (apply Z.pow_pos_nonneg; lia).
    rewrite Hp in Hlt. split; [apply Z.div_pos; lia |].
    apply Z.div_lt_upper_bound; [lia |]. nia.
Qed.

Lemma pickRandom_Some (arr : list string) (d : Draw) :
  arr <> [] -> exists x, pickRandom arr d = Some x /\ In x arr.
Proof.
  intros Hne. unfold pickRandom.
  assert (Hlen : 0 < Z.of_nat (List.length arr)) by (destruct arr; simpl; [congruence | lia]).
  pose proof (randomInt_range d _ Hlen) as Hr.
  destruct (nth_error arr (Z.to_nat (randomInt d (Z.of_nat (List.length arr))))) as [x |] eqn:E.
  - exists x. split; [reflexivity |]. eapply nth_error_In, E.
  - apply nth_error_None in E. lia.
Qed.


Section GeneratorProperties.

Variable random : nat -> Draw.


(** Whatever [board.set] preserves when it stores a piece of the list holds
    of the board that [placePieces] hands back. *)
Lemma placePieces_invariant (P : Board -> Prop) (pieces : list Piece) :
  (forall b sq up, In up pieces -> P b ->
     P (mapSet b sq (Pc {| type := type up; color := color up |}))) ->
  forall available board i board' i',
    P board ->
    placePieces random pieces available board i = Ok (Some board', i') -> P board'.
Proof.
  induction pieces as [| up pieces IH]; intros Hstep available board i board' i' HP E;
    simpl in E.
  - injection E as <- _. assumption.
  - destruct (Nat.eqb (List.length available) 0); [discriminate |].
    destruct (pickRandom available (random i)) as [sq |]; [| discriminate].
    eapply IH; [| | exact E].
    + intros b sq' up' Hin. apply Hstep. now right.
    + apply Hstep; [now left | assumption].
Qed.


Lemma validate_true (b : Board) (turn : Color) :
  validate b turn false = Ok true ->
  kingsAreSeparated b = Ok true /\
  isCheck White b = Ok false /\ isCheck Black b = Ok false /\
  isCheckmate White b = Ok false /\ isCheckmate Black b = Ok false.
Proof.
  unfold validate. intros E. inv_bind E. destruct a; [| discriminate].
  simpl in E. inv_bind E. destruct a; [discriminate |].
  inv_bind E. destruct a; [discriminate |].
  inv_bind E. destruct a; [discriminate |].
  inv_bind E. destruct a; [discriminate |].
  destruct turn; simpl in *; auto.
Qed.


Lemma kingsBoard_facts (wkSq bkSq : string) :
  piecesOnly (kingsBoard wkSq bkSq) /\ NoDup (map fst (kingsBoard wkSq bkSq)) /\
  (kingCount White (kingsBoard wkSq bkSq) <= 1)%nat /\
  (kingCount Black (kingsBoard wkSq bkSq) <= 1)%nat.
Proof.
  unfold kingsBoard, createEmptyBoard, piecesOnly, kingCount. simpl.
  destruct (String.eqb_spec wkSq bkSq); simpl.
  - repeat split; try lia.
    + repeat constructor. simpl. eauto.
    + repeat constructor. intros [].
  - repeat split; try lia.
    + repeat constructor; simpl; eauto.
    + repeat constructor; simpl; intuition.
Qed.


(** What an attempt returns has passed [validate]; it has unique keys, and
    one king of each colour when the extra pieces hold no king. *)
Lemma attempt_Some (pieces : list Piece) (turn : Color) (allow : bool) (i i' : nat)
  (b : Board) :
  attempt random pieces turn allow i = Ok (Some b, i') ->
  validate b turn allow = Ok true /\ NoDup (map fst b) /\
  (Forall (fun up => type up <> King) pieces ->
   (kingCount White b <= 1)%nat /\ (kingCount Black b <= 1)%nat).
Proof.
  unfold attempt. intros E.
  destruct (pickRandom allSquares (random i)) as [wkSq |]; [| discriminate].
  destruct (Nat.eqb (List.length (filter _ (removeFromArray allSquares wkSq))) 0);
    [discriminate |].
  destruct (pickRandom _ (random (S i))) as [bkSq |]; [| discriminate].
  fold (kingsBoard wkSq bkSq) in E. inv_bind E. destruct a as [[b' |] j]; [| discriminate].
  inv_bind E. destruct a; [| discriminate]. injection E as <- <-.
  destruct (kingsBoard_facts wkSq bkSq) as (_ & Hnd & HW & HB).
  split; [assumption |]. split.
  - eapply (placePieces_invariant (fun b => NoDup (map fst b))); [| exact Hnd | exact E0].
    intros b0 sq up _. apply NoDup_mapSet.
  - intros Hk. rewrite Forall_forall in Hk.
    eapply (placePieces_invariant
              (fun b => (kingCount White b <= 1)%nat /\ (kingCount Black b <= 1)%nat));
      [| split; [exact HW | exact HB] | exact E0].
    intros b0 sq up Hin [H1 H2]. specialize (Hk up Hin).
    pose proof (kingCount_set White b0 sq (Pc {| type := type up; color := color up |})).
    pose proof (kingCount_set Black b0 sq (Pc {| type := type up; color := color up |})).
    simpl in *. destruct (type up); simpl in *; try lia. congruence.
Qed.


Lemma attemptLoop_result (pieces : list Piece) (t : Color) (allow : bool) :
  forall attempts i pos,
    attemptLoop random attempts pieces t allow i = Ok pos ->
    turn pos = t /\
    (board pos = createEmptyBoard \/
     exists j j', attempt random pieces t allow j = Ok (Some (board pos), j')).
Proof.
  induction attempts as [| n IH]; intros i pos E; simpl in E.
  - injection E as <-. simpl. auto.
  - inv_bind E. destruct a as [[b |] i'].
    + injection E as <-. simpl. eauto.
    + eauto.
Qed.



(** C5.  With the check-allowed flag unset, a board returned by the
    generator that is not empty holds a white and a black king on distinct
    squares that are not adjacent, neither colour is in check and neither
    is checkmated; when the extra pieces hold no king these are the only
    kings. *)
Theorem generated_position_valid (userPieces : list Piece) (options : Options.t)
  (pos : Position) :
  generateStartingPosition random userPieces options = Ok pos ->
  Options.allowStartingCheck options = false ->
  board pos <> createEmptyBoard ->
  (exists wk bk,
     In (wk, Pc whiteKing) (board pos) /\ In (bk, Pc blackKing) (board pos) /\
     wk <> bk /\ squaresAreAdjacent wk bk = false) /\
  kingsAreSeparated (board pos) = Ok true /\
  isCheck White (board pos) = Ok false /\ isCheck Black (board pos) = Ok false /\
  isCheckmate White (board pos) = Ok false /\
  isCheckmate Black (board pos) = Ok false /\
  (Forall (fun up => type up <> King) userPieces ->
   kingCount White (board pos) = 1%nat /\ kingCount Black (board pos) = 1%nat).
Proof.
  unfold generateStartingPosition. intros E Hallow Hne.
  destruct (attemptLoop_result _ _ _ _ _ _ E) as [_ [He | (j & j' & Ha)]];
    [contradiction |].
  rewrite Hallow in Ha.
  destruct (attempt_Some _ _ _ _ _ _ Ha) as (Hv & Hnd & Hk).
  destruct (validate_true _ _ Hv) as (Hsep & Hcw & Hcb & Hmw & Hmb).
  destruct (kingsAreSeparated_true _ Hsep) as (wk & bk & Hwk & Hbk & _ & _ & Hadj).
  split; [| repeat (split; [assumption |])].
  - exists wk, bk. repeat (split; [assumption |]). split; [| assumption].
    intros ->. pose proof (NoDup_keys_value _ _ _ _ Hnd Hwk Hbk). discriminate.
  - intros Hno. destruct (Hk Hno) as [H1 H2].
    pose proof (kingCount_In White _ _ Hwk). pose proof (kingCount_In Black _ _ Hbk).
    lia.
Qed.


End GeneratorProperties.

End Engine.

(** * The store: [applyMove] works on a copy *)

(** ** Map operations *)

Section JsMapFacts.

Context {V : Type} `{HasUndefined V}.

Lemma mapGet_set_same (m : JsMap V) (k : string) (v : V) :
  mapGet (mapSet m k v) k = v.
Proof.
  induction m as [| [k' v'] m IH]; simpl.
  - now rewrite String.eqb_refl.
  - destruct (String.eqb k' k) eqn:E; simpl; [now rewrite String.eqb_refl |].
    now rewrite E.
Qed.

Lemma mapGet_set_other (m : JsMap V) (k k' : string) (v : V) :
  k <> k' -> mapGet (mapSet m k v) k' = mapGet m k'.
Proof.
  intros Hne. induction m as [| [k0 v0] m IH]; simpl.
  - destruct (String.eqb_spec k k'); [contradiction | reflexivity].
  - destruct (String.eqb_spec k0 k); simpl.
    + subst. destruct (String.eqb_spec k k'); [contradiction | reflexivity].
    + now rewrite IH.
Qed.

Lemma mapGet_delete_same (m : JsMap V) (k : string) :
  mapGet (mapDelete m k) k = undefined.
Proof.
  induction m as [| [k' v'] m IH]; simpl; [reflexivity |].
  destruct (String.eqb k' k) eqn:E; simpl; [assumption | now rewrite E].
Qed.

Lemma mapGet_delete_other (m : JsMap V) (k k' : string) :
  k <> k' -> mapGet (mapDelete m k) k' = mapGet m k'.
Proof.
  intros Hne. induction m as [| [k0 v0] m IH]; simpl; [reflexivity |].
  destruct (String.eqb_spec k0 k); simpl.
  - subst. destruct (String.eqb_spec k k'); [contradiction | assumption].
  - now rewrite IH.
Qed.

Lemma mapHas_In (m : JsMap V) (k : string) :
  mapHas m k = true <-> In k (map fst m).
Proof.
  unfold mapHas. rewrite existsb_exists. split.
  - intros (e & He & E). apply String.eqb_eq in E. subst. now apply in_map.
  - intros Hin. apply in_map_iff in Hin. destruct Hin as (e & <- & He).
    exists e. split; [assumption | apply String.eqb_refl].
Qed.

Lemma mapDelete_absent (m : JsMap V) (k : string) :
  ~ In k (map fst m) -> mapDelete m k = m.
Proof.
  induction m as [| [k' v'] m IH]; simpl; [reflexivity |]. intros Hn.
  destruct (String.eqb_spec k' k); [exfalso; apply Hn; now left |].
  rewrite IH; [reflexivity | intros Hin; apply Hn; now right].
Qed.

Lemma mapSet_absent (m : JsMap V) (k : string) (v : V) :
  ~ In k (map fst m) -> mapSet m k v = m ++ [(k, v)].
Proof.
  induction m as [| [k' v'] m IH]; simpl; [reflexivity |]. intros Hn.
  destruct (String.eqb_spec k' k); [exfalso; apply Hn; now left |].
  rewrite IH; [reflexivity | intros Hin; apply Hn; now right].
Qed.

Lemma In_mapSet (m : JsMap V) (k : string) (v : V) (e : string * V) :
  In e (mapSet m k v) -> e = (k, v) \/ In e m.
Proof.
  induction m as [| [k' v'] m IH]; simpl.
  - intros [<- | []]. now left.
  - destruct (String.eqb k' k); simpl; intros [E | Hin]; auto.
    destruct (IH Hin); auto.
Qed.

Lemma In_mapDelete (m : JsMap V) (k : string) (e : string * V) :
  In e (mapDelete m k) -> In e m.
Proof.
  induction m as [| [k' v'] m IH]; simpl; [tauto |].
  destruct (String.eqb k' k); simpl; [auto |]. intros [E | Hin]; auto.
Qed.

End JsMapFacts.

(** ** What a move does to the board *)

Lemma isPiece_spread (v : Slot) : isPiece (spread v) = isPiece v.
Proof. destruct v; reflexivity. Qed.

Lemma pieceCount_clone (b : Board) : pieceCount (cloneBoard b) = pieceCount b.
Proof.
  unfold pieceCount, cloneBoard. induction b as [| [k v] b IH]; simpl; [reflexivity |].
  rewrite isPiece_spread. destruct (isPiece v); simpl; congruence.
Qed.

Lemma pieceCount_delete (b : Board) (k : string) :
  NoDup (map fst b) ->
  (pieceCount (mapDelete b k) + (if isPiece (mapGet b k) then 1 else 0)
   = pieceCount b)%nat.
Proof.
  unfold pieceCount. induction b as [| [k' v] b IH]; simpl; intros Hn; [reflexivity |].
  inversion Hn as [| ? ? Hnot Hrest]; subst.
  destruct (String.eqb_spec k' k).
  - subst. rewrite (mapDelete_absent b k Hnot).
    destruct (isPiece v); simpl; lia.
  - simpl. specialize (IH Hrest). destruct (isPiece v); simpl; lia.
Qed.

Lemma pieceCount_set (b : Board) (k : string) (v : Slot) :
  (pieceCount (mapSet b k v) + (if isPiece (mapGet b k) then 1 else 0)
   = pieceCount b + (if isPiece v then 1 else 0))%nat.
Proof.
  unfold pieceCount. induction b as [| [k' v'] b IH]; simpl.
  - destruct (isPiece v); simpl; lia.
  - destruct (String.eqb k' k); simpl.
    + destruct (isPiece v), (isPiece v'); simpl; lia.
    + destruct (isPiece v'); simpl; lia.
Qed.

Lemma cloneBoard_keys (b : Board) : map fst (cloneBoard b) = map fst b.
Proof. unfold cloneBoard. rewrite map_map. now apply map_ext. Qed.

(** The loop of [cloneBoard], one [next.set] per entry, builds the map that
    [cloneBoard] is defined to be. *)
Lemma clone_loop (b acc : Board) :
  NoDup (map fst acc ++ map fst b) ->
  fold_left (fun m e => mapSet m (fst e) (spread (snd e))) b acc
  = acc ++ cloneBoard b.
Proof.
  revert acc. induction b as [| [k v] b IH]; intros acc Hn; simpl.
  - now rewrite app_nil_r.
  - rewrite mapSet_absent.
    + rewrite IH.
      * now rewrite <- app_assoc.
      * rewrite map_app. simpl. now rewrite <- app_assoc.
    + intros Hin. apply NoDup_remove_2 in Hn. apply Hn.
      apply in_or_app. now left.
Qed.

Lemma applyMove_facts (b : Board) (from to : string) (p : Piece) :
  NoDup (map fst b) -> mapGet b from = Pc p -> from <> to ->
  (pieceCount (applyMove b from to) + (if isPiece (mapGet b to) then 1 else 0)
   = pieceCount b)%nat /\
  mapHas (applyMove b from to) from = false /\
  mapGet (applyMove b from to) from = Undefined /\
  mapGet (applyMove b from to) to = Pc p.
Proof.
  intros Hn Hfrom Hne. unfold applyMove.
  assert (Hc : mapGet (cloneBoard b) from = Pc p) by (now rewrite mapGet_clone, Hfrom).
  rewrite Hc. split; [| split; [| split]].
  - pose proof (pieceCount_set (mapDelete (cloneBoard b) from) to (Pc p)) as Hs.
    pose proof (pieceCount_delete (cloneBoard b) from) as Hd.
    rewrite cloneBoard_keys in Hd. specialize (Hd Hn).
    rewrite Hc, pieceCount_clone in Hd. simpl in Hs, Hd.
    rewrite mapGet_delete_other in Hs by assumption.
    rewrite mapGet_clone in Hs.
    destruct (mapGet b to); simpl in *; try destruct (mapHas b to); simpl in *; lia.
  - destruct (mapHas _ from) eqn:E; [| reflexivity].
    apply mapHas_In, mapSet_keys in E. destruct E as [E | E]; [congruence |].
    rewrite mapDelete_keys in E. apply filter_In in E.
    rewrite String.eqb_refl in E. destruct E; discriminate.
  - rewrite mapGet_set_other by congruence. apply mapGet_delete_same.
  - apply mapGet_set_same.
Qed.

(** ** Reading and writing the store *)

Lemma read_lt (st : Heap.Store) (l : Heap.loc) (c : Heap.cell) :
  Heap.read st l = Some c -> (l < List.length st)%nat.
Proof. unfold Heap.read. intros E. apply nth_error_Some. congruence. Qed.

Lemma read_alloc_old (st : Heap.Store) (c : Heap.cell) (l : Heap.loc) :
  (l < List.length st)%nat -> Heap.read (st ++ [c]) l = Heap.read st l.
Proof. intros Hl. unfold Heap.read. now apply nth_error_app1. Qed.

Lemma read_alloc_new (st : Heap.Store) (c : Heap.cell) :
  Heap.read (st ++ [c]) (List.length st) = Some c.
Proof.
  unfold Heap.read. rewrite nth_error_app2 by lia. now rewrite Nat.sub_diag.
Qed.

Lemma read_write_same (st : Heap.Store) (l : Heap.loc) (c : Heap.cell) :
  (l < List.length st)%nat -> Heap.read (Heap.write st l c) l = Some c.
Proof.
  revert l. induction st as [| x st IH]; intros [| l] Hl; simpl in *; try lia.
  - reflexivity.
  - apply IH. lia.
Qed.

Lemma read_write_other (st : Heap.Store) (l l' : Heap.loc) (c : Heap.cell) :
  l <> l' -> Heap.read (Heap.write st l c) l' = Heap.read st l'.
Proof.
  revert l l'. induction st as [| x st IH]; intros [| l] [| l'] Hne; simpl;
    try reflexivity; try congruence.
  apply IH. congruence.
Qed.

Lemma length_write (st : Heap.Store) (l : Heap.loc) (c : Heap.cell) :
  List.length (Heap.write st l c) = List.length st.
Proof.
  revert l. induction st as [| x st IH]; intros [| l]; simpl; auto.
Qed.

(** ** The board a [Map] of the store stands for *)

Lemma slotsOf_cons (st : Heap.Store) (sq : string) (v : option Heap.loc)
  (rest : JsMap (option Heap.loc)) (E : Board) :
  Heap.slotsOf st ((sq, v) :: rest) = Some E ->
  exists s E', Heap.slotOf st v = Some s /\ Heap.slotsOf st rest = Some E' /\
               E = (sq, s) :: E'.
Proof.
  simpl. destruct (Heap.slotOf st v) as [s |]; [| discriminate].
  destruct (Heap.slotsOf st rest) as [E' |]; [| discriminate].
  intros [= <-]. eauto.
Qed.

Lemma slotsOf_get (st : Heap.Store) (m : JsMap (option Heap.loc)) (A : Board)
  (k : string) :
  Heap.slotsOf st m = Some A -> Heap.slotOf st (mapGet m k) = Some (mapGet A k).
Proof.
  revert A. induction m as [| [k' v] m IH]; intros A E.
  - injection E as <-. reflexivity.
  - destruct (slotsOf_cons _ _ _ _ _ E) as (s & A' & Hs & HA & ->). simpl.
    destruct (String.eqb k' k); auto.
Qed.

Lemma slotsOf_delete (st : Heap.Store) (m : JsMap (option Heap.loc)) (A : Board)
  (k : string) :
  Heap.slotsOf st m = Some A ->
  Heap.slotsOf st (mapDelete m k) = Some (mapDelete A k).
Proof.
  revert A. induction m as [| [k' v] m IH]; intros A E.
  - injection E as <-. reflexivity.
  - destruct (slotsOf_cons _ _ _ _ _ E) as (s & A' & Hs & HA & ->). simpl.
    destruct (String.eqb k' k); [auto |]. simpl. now rewrite Hs, (IH _ HA).
Qed.

Lemma slotsOf_set (st : Heap.Store) (m : JsMap (option Heap.loc)) (A : Board)
  (k : string) (v : option Heap.loc) (s : Slot) :
  Heap.slotsOf st m = Some A -> Heap.slotOf st v = Some s ->
  Heap.slotsOf st (mapSet m k v) = Some (mapSet A k s).
Proof.
  revert A. induction m as [| [k' v'] m IH]; intros A E Hv.
  - injection E as <-. simpl. now rewrite Hv.
  - destruct (slotsOf_cons _ _ _ _ _ E) as (s' & A' & Hs & HA & ->). simpl.
    destruct (String.eqb k' k); simpl.
    + now rewrite Hv, HA.
    + now rewrite Hs, (IH _ HA Hv).
Qed.

Lemma slotOf_keeps (st st' : Heap.Store) (v : option Heap.loc) (s : Slot) :
  Heap.keeps st st' -> Heap.slotOf st v = Some s -> Heap.slotOf st' v = Some s.
Proof.
  intros Hk. destruct v as [l |]; simpl; [| auto].
  destruct (Heap.read st l) as [[p | | m] |] eqn:E; try discriminate; intros Hs.
  - rewrite (Hk l _ E); [assumption | discriminate].
  - rewrite (Hk l _ E); [assumption | discriminate].
Qed.

Lemma slotsOf_keeps (st st' : Heap.Store) (m : JsMap (option Heap.loc)) (A : Board) :
  Heap.keeps st st' -> Heap.slotsOf st m = Some A -> Heap.slotsOf st' m = Some A.
Proof.
  intros Hk. revert A. induction m as [| [k v] m IH]; intros A E; [assumption |].
  destruct (slotsOf_cons _ _ _ _ _ E) as (s & A' & Hs & HA & ->). simpl.
  now rewrite (slotOf_keeps _ _ _ _ Hk Hs), (IH _ HA).
Qed.

Lemma slotsOf_keys (st : Heap.Store) (m : JsMap (option Heap.loc)) (A : Board) :
  Heap.slotsOf st m = Some A -> map fst A = map fst m.
Proof.
  revert A. induction m as [| [k v] m IH]; intros A E.
  - injection E as <-. reflexivity.
  - destruct (slotsOf_cons _ _ _ _ _ E) as (s & A' & Hs & HA & ->). simpl.
    now rewrite (IH _ HA).
Qed.

Lemma slotOf_spread (st : Heap.Store) (v : option Heap.loc) (s : Slot) :
  Heap.slotOf st v = Some s ->
  Heap.slotOf (st ++ [Heap.spread st v]) (Some (List.length st)) = Some (spread s).
Proof.
  unfold Heap.slotOf at 2. rewrite read_alloc_new.
  destruct v as [l |]; simpl.
  - destruct (Heap.read st l) as [[p | | m] |]; intros [= <-]; reflexivity.
  - intros [= <-]. reflexivity.
Qed.

(** One [next.set] on the [Map] at [next], after an allocation. *)
Lemma setAt_alloc (st : Heap.Store) (next : Heap.loc) (acc : JsMap (option Heap.loc))
  (c : Heap.cell) (sq : string) :
  Heap.read st next = Some (Heap.MapObj acc) ->
  (forall m, c <> Heap.MapObj m) ->
  exists st2,
    Heap.setAt (st ++ [c]) next sq (Some (List.length st)) = Some st2 /\
    List.length st2 = S (List.length st) /\
    Heap.read st2 next =
      Some (Heap.MapObj (mapSet acc sq (Some (List.length st)))) /\
    Heap.read st2 (List.length st) = Some c /\
    (forall l, l <> next -> (l < List.length st)%nat ->
               Heap.read st2 l = Heap.read st l) /\
    Heap.keeps st st2.
Proof.
  intros Hnext Hc. pose proof (read_lt _ _ _ Hnext) as Hlt.
  unfold Heap.setAt. rewrite read_alloc_old, Hnext by assumption.
  eexists. split; [reflexivity |].
  assert (Hlen : List.length (st ++ [c]) = S (List.length st))
    by (rewrite length_app; simpl; lia).
  split; [now rewrite length_write |].
  split; [apply read_write_same; lia |].
  split; [rewrite read_write_other by lia; apply read_alloc_new |].
  assert (F : forall l, l <> next -> (l < List.length st)%nat ->
            Heap.read (Heap.write (st ++ [c]) next
              (Heap.MapObj (mapSet acc sq (Some (List.length st))))) l
            = Heap.read st l).
  { intros l Hne Hl. rewrite read_write_other by congruence.
    now apply read_alloc_old. }
  split; [exact F |].
  intros l c' Hl Hc'. rewrite F; [assumption | | exact (read_lt _ _ _ Hl)].
  intros ->. rewrite Hnext in Hl. injection Hl as <-. now apply (Hc' acc).
Qed.

Lemma spread_not_map (st : Heap.Store) (v : option Heap.loc) (m : JsMap (option Heap.loc)) :
  Heap.spread st v <> Heap.MapObj m.
Proof.
  unfold Heap.spread. destruct v as [l |]; [| discriminate].
  destruct (Heap.read st l) as [[p | | m'] |]; discriminate.
Qed.

Lemma cloneEntries_spec (n0 : nat) :
  forall (entries : JsMap (option Heap.loc)) (st : Heap.Store) (next : Heap.loc)
         (acc : JsMap (option Heap.loc)) (A E : Board),
    (n0 <= List.length st)%nat -> (n0 <= next)%nat ->
    Heap.read st next = Some (Heap.MapObj acc) ->
    Heap.slotsOf st acc = Some A -> Heap.slotsOf st entries = Some E ->
    (forall sq l, In (sq, Some l) acc -> (n0 <= l)%nat) ->
    exists st' acc',
      Heap.cloneEntries st next entries = Some st' /\
      (forall l, (l < n0)%nat -> Heap.read st' l = Heap.read st l) /\
      Heap.keeps st st' /\
      Heap.read st' next = Some (Heap.MapObj acc') /\
      Heap.slotsOf st' acc' =
        Some (fold_left (fun m e => mapSet m (fst e) (spread (snd e))) E A) /\
      (forall sq l, In (sq, Some l) acc' -> (n0 <= l)%nat).
Proof.
  induction entries as [| [sq v] rest IH];
    intros st next acc A E Hn0 Hnext Hread HA HE Hfresh.
  - injection HE as <-. exists st, acc. simpl.
    repeat split; auto. intros l c Hl _. exact Hl.
  - destruct (slotsOf_cons _ _ _ _ _ HE) as (s & E' & Hs & HE' & ->).
    destruct (setAt_alloc st next acc (Heap.spread st v) sq Hread
                (spread_not_map st v))
      as (st2 & Hset & Hlen & Hread2 & Hcopy & Hframe & Hkeep).
    assert (Hcopy' : Heap.slotOf st2 (Some (List.length st)) = Some (spread s)).
    { pose proof (slotOf_spread st v s Hs) as S0. unfold Heap.slotOf in S0 |- *.
      rewrite read_alloc_new in S0. now rewrite Hcopy. }
    destruct (IH st2 next (mapSet acc sq (Some (List.length st)))
                (mapSet A sq (spread s)) E') as (st' & acc' & Hc & Hf & Hk & Hr & Ha & Hfr).
    + lia.
    + assumption.
    + assumption.
    + apply slotsOf_set; [eapply slotsOf_keeps; eassumption | assumption].
    + eapply slotsOf_keeps; eassumption.
    + intros sq' l Hin. apply In_mapSet in Hin. destruct Hin as [[= _ ->] | Hin];
        [assumption | eauto].
    + exists st', acc'.
      split; [simpl; rewrite Hset; exact Hc |].
      split; [| split; [| split; [exact Hr | split; [exact Ha | exact Hfr]]]].
      * intros l Hl. rewrite Hf by assumption. apply Hframe; lia.
      * intros l c Hl Hc'. apply Hk; [| assumption]. now apply Hkeep.
Qed.

Lemma cloneBoard_spec (st : Heap.Store) (board : Heap.loc) (b : Board) :
  Heap.readBoard st board = Some b -> NoDup (map fst b) ->
  exists st1 acc,
    Heap.cloneBoard st board = Some (st1, List.length st) /\
    (forall l, (l < List.length st)%nat -> Heap.read st1 l = Heap.read st l) /\
    Heap.keeps st st1 /\
    Heap.read st1 (List.length st) = Some (Heap.MapObj acc) /\
    Heap.slotsOf st1 acc = Some (cloneBoard b) /\
    (forall sq l, In (sq, Some l) acc -> (List.length st <= l)%nat).
Proof.
  unfold Heap.readBoard, Heap.cloneBoard. intros Hb Hn.
  destruct (Heap.read st board) as [[p | | entries] |] eqn:Hboard; try discriminate.
  simpl.
  assert (K0 : Heap.keeps st (st ++ [Heap.MapObj []])).
  { intros l c Hl _. rewrite read_alloc_old; [assumption | exact (read_lt _ _ _ Hl)]. }
  destruct (cloneEntries_spec (List.length st) entries (st ++ [Heap.MapObj []])
              (List.length st) [] [] b)
    as (st1 & acc & Hc & Hf & Hk & Hr & Ha & Hfr).
  - rewrite length_app. simpl. lia.
  - lia.
  - apply read_alloc_new.
  - reflexivity.
  - eapply slotsOf_keeps; eassumption.
  - intros sq l [].
  - rewrite Hc. exists st1, acc. split; [reflexivity |].
    split; [| split; [| split; [assumption | split; [| assumption]]]].
    + intros l Hl. rewrite Hf by assumption. now apply read_alloc_old.
    + intros l c Hl Hc'. apply Hk; [| assumption]. now apply K0.
    + rewrite Ha. f_equal. now rewrite (clone_loop b []).
Qed.

(** C7.  Let the [Map] at [board] stand for a board that holds a piece [p]
    on [from], and let [to] differ from [from].  [applyMove] returns a new
    [Map] that stands for the moved board: its piece count is that of the
    input less one when [to] held a piece, [from] is gone and [to] holds
    [p].  Every object allocated before the call is left as it was, so the
    input [Map] still stands for the same board, and the new [Map] and all
    the piece objects it refers to were allocated by the call. *)
Theorem applyMove_on_a_copy (st : Heap.Store) (board : Heap.loc) (b : Board)
  (from to : string) (p : Piece) :
  Heap.readBoard st board = Some b -> NoDup (map fst b) ->
  mapGet b from = Pc p -> from <> to ->
  exists st' next,
    Heap.applyMove st board from to = Some (st', next) /\
    Heap.readBoard st' next = Some (applyMove b from to) /\
    (pieceCount (applyMove b from to) + (if isPiece (mapGet b to) then 1 else 0)
     = pieceCount b)%nat /\
    mapHas (applyMove b from to) from = false /\
    mapGet (applyMove b from to) to = Pc p /\
    (forall l, (l < List.length st)%nat -> Heap.read st' l = Heap.read st l) /\
    Heap.readBoard st' board = Some b /\
    (List.length st <= next)%nat /\
    Heap.refsFrom st' next (List.length st).
Proof.
  intros Hb Hn Hfrom Hne.
  destruct (cloneBoard_spec st board b Hb Hn)
    as (st1 & acc & Hc & Hf & Hk & Hr & Ha & Hfr).
  destruct (applyMove_facts b from to p Hn Hfrom Hne) as (Hcount & Hhas & _ & Hto).
  pose proof (read_lt _ _ _ Hr) as Hlt.
  set (next := List.length st) in *.
  set (acc2 := mapDelete acc from).
  set (acc3 := mapSet acc2 to (mapGet acc from)).
  set (st2 := Heap.write st1 next (Heap.MapObj acc2)).
  set (st3 := Heap.write st2 next (Heap.MapObj acc3)).
  assert (H2 : Heap.read st2 next = Some (Heap.MapObj acc2))
    by (apply read_write_same; assumption).
  assert (E : Heap.applyMove st board from to = Some (st3, next)).
  { unfold Heap.applyMove, Heap.getAt, Heap.deleteAt, Heap.setAt.
    rewrite Hc, Hr. fold acc2 st2. rewrite H2. reflexivity. }
  assert (F3 : forall l, l <> next -> Heap.read st3 l = Heap.read st1 l).
  { intros l Hl. unfold st3, st2. now rewrite !read_write_other by congruence. }
  assert (K3 : Heap.keeps st1 st3).
  { intros l c Hl Hc'. rewrite F3; [assumption |]. intros ->.
    rewrite Hr in Hl. injection Hl as <-. now apply (Hc' acc). }
  assert (R3 : Heap.read st3 next = Some (Heap.MapObj acc3)).
  { apply read_write_same. unfold st2. now rewrite length_write. }
  exists st3, next. split; [exact E |].
  split; [| split; [exact Hcount | split; [exact Hhas | split; [exact Hto |]]]].
  - unfold Heap.readBoard. rewrite R3. unfold acc3, acc2, applyMove.
    apply slotsOf_set.
    + apply slotsOf_delete. eapply slotsOf_keeps; eassumption.
    + apply slotsOf_get. eapply slotsOf_keeps; eassumption.
  - split; [| split; [| split; [lia |]]].
    + intros l Hl. rewrite F3 by lia. now apply Hf.
    + unfold Heap.readBoard in Hb |- *.
      destruct (Heap.read st board) as [[q | | entries] |] eqn:Hboard;
        try discriminate.
      pose proof (read_lt _ _ _ Hboard) as Hbl. fold next in Hbl.
      rewrite F3 by lia. rewrite Hf, Hboard by assumption.
      eapply slotsOf_keeps; [| exact Hb].
      intros l c Hl Hc'. apply K3; [| assumption]. now apply Hk.
    + exists acc3. split; [exact R3 |]. intros sq l Hin.
      unfold acc3 in Hin. apply In_mapSet in Hin. destruct Hin as [Heq | Hin].
      * injection Heq as _ Hg.
        assert (Hin : In (from, Some l) acc).
        { clear - Hg. induction acc as [| [k v] acc IH]; simpl in *; [discriminate |].
          destruct (String.eqb_spec k from); [subst; now left | right; auto]. }
        eauto.
      * apply In_mapDelete in Hin. eauto.
Qed.

(** * The model at work *)

Lemma upperLetter_plain (c : ascii) :
  isUpperLetter c = true -> isBlank c = false /\ asciiUpper c = c.
Proof.
  destruct c as [[] [] [] [] [] [] [] []]; intros H; try discriminate H;
    split; reflexivity.
Qed.

Lemma digitChar_plain (c : ascii) :
  isDigitChar c = true -> isBlank c = false /\ asciiUpper c = c.
Proof.
  destruct c as [[] [] [] [] [] [] [] []]; intros H; try discriminate H;
    split; reflexivity.
Qed.

Lemma asciiJs_laws : JsStringLaws asciiJs.
Proof.
  split.
  - intros f d Hf Hd.
    destruct (upperLetter_plain f Hf) as [Bf Uf].
    destruct (digitChar_plain d Hd) as [Bd Ud].
    cbn [trim toUpperCase asciiJs trimStart]. rewrite Bf.
    cbn [trimEnd]. rewrite Bd. cbn [mapString]. now rewrite Uf, Ud.
  - intros n Hn. assert (Hk : (Z.to_nat n < 10)%nat) by lia.
    rewrite <- (Z2Nat.id n) by lia.
    set (k := Z.to_nat n) in *. clearbody k.
    do 10 (destruct k as [| k]; [reflexivity |]). lia.
Qed.

(** The example of the specification, on the 4x4 board: with A2 empty and a
    black piece on A3, the ray of a white rook on A1 up its file is A2, A3,
    whatever else the board holds. *)
Lemma rook_file_example (js : JsString) (laws : JsStringLaws js) (b : Board)
  (occ : Piece) :
  mapGet b "A2" = Undefined -> mapGet b "A3" = Pc occ -> color occ = Black ->
  @ray js size4 b White "A1" 0 1 = Ok ["A2"; "A3"].
Proof.
  intros H2 H3 Hc. unfold ray.
  rewrite (@parse_square_text js size4 laws "A" "1" 1) by (reflexivity || lia).
  cbn -[mapGet]. unfold addIfOk. rewrite H2. cbn -[mapGet].
  unfold addIfOk. rewrite H3, Hc. reflexivity.
Qed.

Example rook_file_A :
  @ray asciiJs size4 rookA1 White "A1" 0 1 = Ok ["A2"; "A3"] /\
  @pseudoMovesForPiece asciiJs size4 whiteRook "A1" rookA1
    = Ok ["B1"; "C1"; "D1"; "A2"; "A3"].
Proof. split; reflexivity. Qed.

(** C1.  [allSquares] counts files and ranks up to the constant 4 whatever
    the board size: on the 5x5 board it yields the sixteen squares A1..D4,
    so no square of file E or of rank 5, although [toSquare] knows them. *)
Theorem allSquares_ignores_board_size :
  BOARD_SIZES 5 = Some size5 /\
  allSquares size5 =
    ["A1"; "B1"; "C1"; "D1"; "A2"; "B2"; "C2"; "D2";
     "A3"; "B3"; "C3"; "D3"; "A4"; "B4"; "C4"; "D4"] /\
  List.length (allSquares size5) = 16%nat /\
  toSquare size5 4 5 = Some "E5" /\
  ~ In "E5" (allSquares size5).
Proof.
  repeat split; try reflexivity.
  simpl. intros H. repeat (destruct H as [H | H]; [discriminate H |]). exact H.
Qed.

(** On the 4x4 board the pool is complete. *)
Lemma allSquares_size4_complete (fi r : Z) (sq : string) :
  BOARD_SIZES 4 = Some size4 /\
  (toSquare size4 fi r = Some sq -> In sq (allSquares size4)).
Proof.
  split; [reflexivity |]. intros E.
  destruct (toSquare_Some size4 fi r sq E) as [Hfi Hr]. simpl in Hfi, Hr.
  assert (Hf : fi = 0 \/ fi = 1 \/ fi = 2 \/ fi = 3) by lia.
  destruct Hf as [-> | [-> | [-> | ->]]];
    repeat (destruct Hr as [<- | Hr];
            [vm_compute in E; injection E as <-; vm_compute; tauto |]);
    contradiction.
Qed.

Lemma parse_toSquare_roundtrip_witness :
  exists text s,
    toSquare size5 4 5 = Some text /\ @parseSquare asciiJs size5 text = Some s /\
    fileIndex s = 4 /\ rank s = 5.
Proof.
  apply (@parse_toSquare_roundtrip asciiJs size5 asciiJs_laws 5 4 5);
    [reflexivity | lia | lia].
Defined.

(** C3, as stated, fails: on [defended] the white rook attacks A2, where the
    white king stands, and no white piece has A2 among its pseudo-legal
    moves. *)
Lemma attack_without_pseudo_move :
  ~ (@isSquareAttacked asciiJs size4 "A2" White defended = Ok true <->
     exists s p l, In (s, Pc p) defended /\ color p = White /\
       @pseudoMovesForPiece asciiJs size4 p s defended = Ok l /\ In "A2" l).
Proof.
  intros [H _]. destruct (H eq_refl) as (s & p & l & Hin & Hc & Hl & Hq).
  unfold defended in Hin. simpl in Hin.
  destruct Hin as [E | [E | [E | []]]]; inversion E; subst; clear E;
    vm_compute in Hl; injection Hl as <-; simpl in Hq;
    try discriminate Hc;
    repeat (destruct Hq as [Hq | Hq]; [discriminate Hq |]); exact Hq.
Qed.

Lemma attacked_iff_pseudo_move_witness :
  ((exists s p l, In (s, Pc p) defended /\ color p = White /\
      @pseudoMovesForPiece asciiJs size4 p s defended = Ok l /\ In "B1" l) ->
   @isSquareAttacked asciiJs size4 "B1" White defended = Ok true) /\
  (@isSquareAttacked asciiJs size4 "B1" White defended = Ok true ->
   notOwn defended White "B1" = true ->
   exists s p l, In (s, Pc p) defended /\ color p = White /\
     @pseudoMovesForPiece asciiJs size4 p s defended = Ok l /\ In "B1" l) /\
  (forall s p, @pseudoMovesForPiece asciiJs size4 p s defended =
               mapResult (filter (notOwn defended (color p)))
                 (@attacksFromSquare asciiJs size4 s p defended)).
Proof.
  apply (@attacked_iff_pseudo_move asciiJs size4 defended White "B1").
  unfold piecesOnly, defended. repeat constructor; simpl; eauto.
Defined.

Lemma legal_move_keeps_invariants_witness :
  let next := applyMove guarded "D1" "D3" in
  (exists wk bk, In (wk, Pc whiteKing) next /\ In (bk, Pc blackKing) next) /\
  (forall wk bk, In (wk, Pc whiteKing) next -> In (bk, Pc blackKing) next ->
     wk <> bk /\ @squaresAreAdjacent asciiJs size4 wk bk = false) /\
  (forall k, In (k, Pc {| type := King; color := color whiteRook |}) next ->
     @isSquareAttacked asciiJs size4 k (oppositeColor (color whiteRook)) next
     = Ok false) /\
  (type whiteRook = King ->
   @isSquareAttacked asciiJs size4 "D3" (oppositeColor (color whiteRook)) next
   = Ok false).
Proof.
  apply (@legal_move_keeps_invariants asciiJs size4 guarded whiteRook "D1" "D3"
           ["C1"; "B1"; "D2"; "D3"; "D4"]).
  - unfold guarded. simpl. repeat constructor; simpl; intuition discriminate.
  - reflexivity.
  - reflexivity.
  - reflexivity.
  - vm_compute. reflexivity.
  - simpl. tauto.
Defined.

(** C6, as stated, fails: the classifiers are no functions of colour and
    board alone.  On [queenCorner] Black is checkmated under the tables of
    size 4 and has the moves D5 and E4 under those of size 5. *)
Lemma classifiers_depend_on_board_size :
  ~ (exists classify : Color -> Board -> result bool,
       forall cfg, In cfg [size4; size5] ->
         @isCheckmate asciiJs cfg Black queenCorner = classify Black queenCorner).
Proof.
  intros [classify H].
  pose proof (H size4 (or_introl eq_refl)) as H4.
  pose proof (H size5 (or_intror (or_introl eq_refl))) as H5.
  assert (E4 : @isCheckmate asciiJs size4 Black queenCorner = Ok true)
    by (vm_compute; reflexivity).
  assert (E5 : @isCheckmate asciiJs size5 Black queenCorner = Ok false)
    by (vm_compute; reflexivity).
  congruence.
Qed.

Lemma classifier_implications_witness :
  (@callIsCheck asciiJs size4 {| board := []; turn := White |} Black
     (Some cornerMate) = Ok true /\
   @callAllLegalMoves asciiJs size4 {| board := []; turn := White |} Black
     (Some cornerMate) = Ok []) /\
  (@callIsCheck asciiJs size4 {| board := cornerStale; turn := Black |} Black None
     = Ok false /\
   @callAllLegalMoves asciiJs size4 {| board := cornerStale; turn := Black |}
     Black None = Ok []).
Proof.
  split.
  - apply (proj1 (@classifier_implications asciiJs size4
                    {| board := []; turn := White |} Black (Some cornerMate))).
    vm_compute. reflexivity.
  - apply (proj1 (proj2 (@classifier_implications asciiJs size4
                    {| board := cornerStale; turn := Black |} Black None))).
    vm_compute. reflexivity.
Defined.

Lemma kingless_board_witness :
  @isCheck asciiJs size4 White loneRook = Ok false /\
  (forall (p p' : Piece) (from : string),
     mapGet loneRook from = Pc p' ->
     @getLegalMoves asciiJs size4 p from loneRook = Ok []) /\
  (forall c', @allLegalMoves asciiJs size4 c' loneRook = Ok []) /\
  @isStalemate asciiJs size4 White loneRook = Ok true /\
  (forall c', @isStalemate asciiJs size4 c' createEmptyBoard = Ok true).
Proof.
  apply (@kingless_board asciiJs size4 loneRook White).
  - unfold piecesOnly, loneRook. repeat constructor; simpl; eauto.
  - reflexivity.
Defined.

(** C10, as stated, fails: for a rook and the square A1 of the empty board,
    which holds nothing, [getLegalMoves] throws instead of returning the
    empty list. *)
Lemma getLegalMoves_throws_on_empty_board :
  @getLegalMoves asciiJs size4 whiteRook "A1" createEmptyBoard = Fail TypeError /\
  @getLegalMoves asciiJs size4 whiteRook "A1" createEmptyBoard <> Ok [].
Proof. split; [reflexivity | discriminate]. Qed.

Lemma generated_position_valid_witness :
  (exists wk bk,
     In (wk, Pc whiteKing) guardedStart /\ In (bk, Pc blackKing) guardedStart /\
     wk <> bk /\ @squaresAreAdjacent asciiJs size4 wk bk = false) /\
  @kingsAreSeparated asciiJs size4 guardedStart = Ok true /\
  @isCheck asciiJs size4 White guardedStart = Ok false /\
  @isCheck asciiJs size4 Black guardedStart = Ok false /\
  @isCheckmate asciiJs size4 White guardedStart = Ok false /\
  @isCheckmate asciiJs size4 Black guardedStart = Ok false /\
  (Forall (fun up => type up <> King) loadout4 ->
   kingCount White guardedStart = 1%nat /\ kingCount Black guardedStart = 1%nat).
Proof.
  apply (@generated_position_valid asciiJs size4 sampleRandom loadout4
           (sampleOptions 3) {| board := guardedStart; turn := White |}).
  - vm_compute. reflexivity.
  - reflexivity.
  - discriminate.
Defined.


Lemma applyMove_on_a_copy_witness :
  exists st' next,
    Heap.applyMove sampleStore 2 "A1" "A3" = Some (st', next) /\
    Heap.readBoard st' next = Some (applyMove rookA1 "A1" "A3") /\
    (pieceCount (applyMove rookA1 "A1" "A3") +
     (if isPiece (mapGet rookA1 "A3") then 1 else 0) = pieceCount rookA1)%nat /\
    mapHas (applyMove rookA1 "A1" "A3") "A1" = false /\
    mapGet (applyMove rookA1 "A1" "A3") "A3" = Pc whiteRook /\
    (forall l, (l < List.length sampleStore)%nat ->
               Heap.read st' l = Heap.read sampleStore l) /\
    Heap.readBoard st' 2 = Some rookA1 /\
    (List.length sampleStore <= next)%nat /\
    Heap.refsFrom st' next (List.length sampleStore).
Proof.
  apply (applyMove_on_a_copy sampleStore 2 rookA1 "A1" "A3" whiteRook).
  - reflexivity.
  - unfold rookA1. simpl. repeat constructor; simpl; intuition discriminate.
  - reflexivity.
  - discriminate.
Defined.

(** * Further properties of the engine *)

Ltac split_bind H :=
  let a := fresh "a" in
  let E := fresh "E" in
  apply bind_Ok in H; destruct H as (a & E & H).

(** ** Coordinates *)

Lemma indexOf_In (x : string) (l : list string) :
  In x l ->
  0 <= indexOf x l < Z.of_nat (List.length l) /\
  nth (Z.to_nat (indexOf x l)) l "undefined" = x.
Proof.
  induction l as [| a l IH]; simpl; [contradiction |]. intros Hin.
  destruct (String.eqb_spec a x) as [-> | Hne].
  - split; [lia | reflexivity].
  - destruct Hin as [Heq | Hin]; [contradiction |].
    destruct (IH Hin) as [Hr Hn].
    destruct (indexOf x l <? 0) eqn:E; [lia |].
    split; [lia |]. rewrite Z2Nat.inj_add by lia.
    rewrite Nat.add_comm. simpl. exact Hn.
Qed.

(** X1.  Whatever [parseSquare] accepts is a square of the board: its file
    is one of [FILES], at position [fileIndex], its rank one of [RANKS], and
    [toSquare] prints it as the file letter followed by the rank. *)
Theorem parseSquare_in_bounds {js : JsString} (cfg : Config) (square : string)
  (s : ParsedSquare) :
  parseSquare cfg square = Some s ->
  In (file s) (FILES cfg) /\ In (rank s) (RANKS cfg) /\
  0 <= fileIndex s < Z.of_nat (List.length (FILES cfg)) /\
  toSquare cfg (fileIndex s) (rank s)
  = Some (file s ++ numberToString (rank s))%string.
Proof.
  unfold parseSquare. intros E.
  destruct (String.length (toUpperCase (trim square)) <? 2)%nat; [discriminate |].
  destruct (includes _ (FILES cfg)) eqn:Ef; [| discriminate]. simpl in E.
  destruct (Number _) as [rk |]; [| discriminate].
  destruct (includesZ rk (RANKS cfg)) eqn:Er; [| discriminate]. simpl in E.
  injection E as <-. simpl.
  apply includes_In in Ef. pose proof Er as Er'. apply includesZ_In in Er'.
  destruct (indexOf_In _ _ Ef) as [Hr Hn].
  repeat split; try assumption; try lia.
  unfold toSquare, elementText. rewrite Er.
  destruct (indexOf _ (FILES cfg) <? 0) eqn:E0; [lia |].
  destruct (indexOf _ (FILES cfg) >=? _) eqn:E1;
    [rewrite Z.geb_leb in E1; lia |].
  simpl. now rewrite Hn.
Qed.

Lemma board_size_cases (size : Z) (cfg : Config) :
  BOARD_SIZES size = Some cfg ->
  (size = 4 /\ cfg = size4) \/ (size = 5 /\ cfg = size5).
Proof.
  unfold BOARD_SIZES.
  destruct (size =? 4) eqn:E4; [intros [= <-]; left; split; [lia | reflexivity] |].
  destruct (size =? 5) eqn:E5;
    [intros [= <-]; right; split; [lia | reflexivity] | discriminate].
Qed.

Lemma toSquare_bounds (size : Z) (cfg : Config) (fi r : Z) :
  BOARD_SIZES size = Some cfg ->
  ((exists t, toSquare cfg fi r = Some t) <-> 0 <= fi < size /\ 1 <= r <= size).
Proof.
  intros Hc.
  destruct (board_size_cases _ _ Hc) as [[-> ->] | [-> ->]]; split.
  - intros [t Ht]. destruct (toSquare_Some _ _ _ _ Ht) as [Hf Hr].
    simpl in Hf, Hr. lia.
  - intros [Hf Hr]. unfold toSquare. simpl.
    destruct (fi <? 0) eqn:E0; [lia |].
    destruct (fi >=? 4) eqn:E1; [rewrite Z.geb_leb in E1; lia |].
    assert (Hk : r = 1 \/ r = 2 \/ r = 3 \/ r = 4) by lia.
    destruct Hk as [-> | [-> | [-> | ->]]]; simpl; eauto.
  - intros [t Ht]. destruct (toSquare_Some _ _ _ _ Ht) as [Hf Hr].
    simpl in Hf, Hr. lia.
  - intros [Hf Hr]. unfold toSquare. simpl.
    destruct (fi <? 0) eqn:E0; [lia |].
    destruct (fi >=? 5) eqn:E1; [rewrite Z.geb_leb in E1; lia |].
    assert (Hk : r = 1 \/ r = 2 \/ r = 3 \/ r = 4 \/ r = 5) by lia.
    destruct Hk as [-> | [-> | [-> | [-> | ->]]]]; simpl; eauto.
Qed.

(** What [toSquare] prints reads back to the coordinates it was given. *)
Lemma toSquare_parse {js : JsString} (laws : JsStringLaws js) (size : Z)
  (cfg : Config) (fi r : Z) (t : string) :
  BOARD_SIZES size = Some cfg -> toSquare cfg fi r = Some t ->
  exists s, parseSquare cfg t = Some s /\ fileIndex s = fi /\ rank s = r.
Proof.
  intros Hc Ht.
  assert (Hb : 0 <= fi < size /\ 1 <= r <= size)
    by (apply (toSquare_bounds size cfg fi r Hc); eauto).
  destruct (board_size_cases _ _ Hc) as [[-> ->] | [-> ->]].
  - assert (Hf : fi = 0 \/ fi = 1 \/ fi = 2 \/ fi = 3) by lia.
    assert (Hk : r = 1 \/ r = 2 \/ r = 3 \/ r = 4) by lia.
    destruct Hf as [-> | [-> | [-> | ->]]];
      destruct Hk as [E | [E | [E | E]]];
      (rewrite E in Ht; vm_compute in Ht; injection Ht as <-;
       rewrite (@parse_square_text js size4 laws _ _ r) by (subst r; reflexivity || lia);
       subst r; eexists; split; [reflexivity | split; reflexivity]).
  - assert (Hf : fi = 0 \/ fi = 1 \/ fi = 2 \/ fi = 3 \/ fi = 4) by lia.
    assert (Hk : r = 1 \/ r = 2 \/ r = 3 \/ r = 4 \/ r = 5) by lia.
    destruct Hf as [-> | [-> | [-> | [-> | ->]]]];
      destruct Hk as [E | [E | [E | [E | E]]]];
      (rewrite E in Ht; vm_compute in Ht; injection Ht as <-;
       rewrite (@parse_square_text js size5 laws _ _ r) by (subst r; reflexivity || lia);
       subst r; eexists; split; [reflexivity | split; reflexivity]).
Qed.

(** ** The sliding-ray rule on the squares of the specification *)





(** X2.  [setBoardSize] knows the sizes 4 and 5 only and throws on any
    other; under the tables it installs, [toSquare] answers exactly for
    file indices [0 .. size-1] and ranks [1 .. size], and gives distinct
    coordinates distinct identifiers. *)
Theorem toSquare_on_board_size (size : Z) :
  (setBoardSize size = Fail TypeError <-> size <> 4 /\ size <> 5) /\
  ((exists cfg, setBoardSize size = Ok cfg) <-> size = 4 \/ size = 5) /\
  forall cfg, setBoardSize size = Ok cfg ->
    List.length (FILES cfg) = Z.to_nat size /\
    List.length (RANKS cfg) = Z.to_nat size /\
    (forall fi r, (exists t, toSquare cfg fi r = Some t) <->
                  0 <= fi < size /\ 1 <= r <= size) /\
    (forall fi r fi' r' t,
       toSquare cfg fi r = Some t -> toSquare cfg fi' r' = Some t ->
       fi = fi' /\ r = r').
Proof.
  split.
  - unfold setBoardSize, BOARD_SIZES.
    destruct (size =? 4) eqn:E4; [split; [discriminate | lia] |].
    destruct (size =? 5) eqn:E5; [split; [discriminate | lia] |].
    split; [lia | reflexivity].
  - split.
    { unfold setBoardSize, BOARD_SIZES.
      destruct (size =? 4) eqn:E4; [split; [lia | eauto] |].
      destruct (size =? 5) eqn:E5; [split; [lia | eauto] |].
      split; [intros [cfg H]; discriminate | lia]. }
    intros cfg Hs.
    assert (Hc : BOARD_SIZES size = Some cfg).
    { unfold setBoardSize in Hs. destruct (BOARD_SIZES size); congruence. }
    split; [| split; [| split]].
    + destruct (board_size_cases _ _ Hc) as [[-> ->] | [-> ->]]; reflexivity.
    + destruct (board_size_cases _ _ Hc) as [[-> ->] | [-> ->]]; reflexivity.
    + intros fi r. apply toSquare_bounds, Hc.
    + intros fi r fi' r' t H1 H2.
      destruct (toSquare_parse asciiJs_laws size cfg fi r t Hc H1)
        as (s & Hs1 & <- & <-).
      destruct (toSquare_parse asciiJs_laws size cfg fi' r' t Hc H2)
        as (s' & Hs2 & <- & <-).
      rewrite Hs1 in Hs2. injection Hs2 as <-. split; reflexivity.
Qed.

(** X3.  Adjacency is symmetric, no square is adjacent to itself, and a text
    that is no square is adjacent to nothing. *)
Theorem squaresAreAdjacent_symmetric {js : JsString} (cfg : Config) (a b : string) :
  squaresAreAdjacent cfg a b = squaresAreAdjacent cfg b a /\
  squaresAreAdjacent cfg a a = false /\
  (parseSquare cfg a = None ->
   squaresAreAdjacent cfg a b = false /\ squaresAreAdjacent cfg b a = false).
Proof.
  unfold squaresAreAdjacent. split; [| split].
  - destruct (parseSquare cfg a) as [sa |], (parseSquare cfg b) as [sb |];
      try reflexivity.
    replace (Z.abs (fileIndex sb - fileIndex sa))
      with (Z.abs (fileIndex sa - fileIndex sb)) by lia.
    replace (Z.abs (rank sb - rank sa)) with (Z.abs (rank sa - rank sb)) by lia.
    reflexivity.
  - destruct (parseSquare cfg a) as [sa |]; [| reflexivity].
    now rewrite !Z.sub_diag.
  - intros ->. split; [reflexivity |]. now destruct (parseSquare cfg b).
Qed.

(** ** King and knight steps *)

Lemma targetAt_In {js : JsString} (cfg : Config) (s : ParsedSquare) (df dr : Z)
  (t : string) :
  In t (targetAt cfg s df dr) <->
  toSquare cfg (fileIndex s + df) (rank s + dr) = Some t.
Proof.
  unfold targetAt. destruct (toSquare cfg _ _) as [q |]; simpl.
  - split; [intros [-> | []]; reflexivity | intros [= ->]; now left].
  - split; [contradiction | discriminate].
Qed.

Lemma kingTargets_In {js : JsString} (cfg : Config) (from : string)
  (s : ParsedSquare) (t : string) :
  parseSquare cfg from = Some s ->
  (In t (kingTargets cfg from) <->
   exists df dr, Z.max (Z.abs df) (Z.abs dr) = 1 /\
                 toSquare cfg (fileIndex s + df) (rank s + dr) = Some t).
Proof.
  intros Hs. unfold kingTargets. rewrite Hs, in_flat_map. split.
  - intros (df & Hdf & Hin). apply in_flat_map in Hin.
    destruct Hin as (dr & Hdr & Hin).
    destruct ((df =? 0) && (dr =? 0)) eqn:E; [contradiction |].
    apply targetAt_In in Hin. exists df, dr. split; [| assumption].
    simpl in Hdf, Hdr. lia.
  - intros (df & dr & Hd & Ht). exists df. split; [simpl; lia |].
    apply in_flat_map. exists dr. split; [simpl; lia |].
    destruct ((df =? 0) && (dr =? 0)) eqn:E; [lia |].
    now apply targetAt_In.
Qed.

Lemma knightTargets_In {js : JsString} (cfg : Config) (from : string)
  (s : ParsedSquare) (t : string) :
  parseSquare cfg from = Some s ->
  (In t (knightTargets cfg from) <->
   exists df dr,
     (Z.abs df = 1 /\ Z.abs dr = 2 \/ Z.abs df = 2 /\ Z.abs dr = 1) /\
     toSquare cfg (fileIndex s + df) (rank s + dr) = Some t).
Proof.
  intros Hs. unfold knightTargets. rewrite Hs, in_flat_map. split.
  - intros ([df dr] & Hd & Hin). apply targetAt_In in Hin. simpl in Hin.
    exists df, dr. split; [| assumption].
    unfold knightDeltas in Hd. simpl in Hd.
    repeat (destruct Hd as [[= <- <-] | Hd]; [lia |]). contradiction.
  - intros (df & dr & Hd & Ht). exists (df, dr). split.
    + unfold knightDeltas. simpl.
      assert (C : (df = 1 /\ dr = 2) \/ (df = 2 /\ dr = 1) \/ (df = -1 /\ dr = 2) \/
                  (df = -2 /\ dr = 1) \/ (df = 1 /\ dr = -2) \/ (df = 2 /\ dr = -1) \/
                  (df = -1 /\ dr = -2) \/ (df = -2 /\ dr = -1)) by lia.
      repeat (destruct C as [[-> ->] | C]; [tauto |]). destruct C as [-> ->]. tauto.
    + now apply targetAt_In.
Qed.

(** X4.  On a board of size 4 or 5 the targets of a king are exactly the
    squares of the board adjacent to its own. *)
Theorem kingTargets_are_adjacent_squares {js : JsString} (laws : JsStringLaws js)
  (size : Z) (cfg : Config) (from : string) (s : ParsedSquare) (t : string) :
  BOARD_SIZES size = Some cfg -> parseSquare cfg from = Some s ->
  (In t (kingTargets cfg from) <->
   (exists fi r, toSquare cfg fi r = Some t) /\
   squaresAreAdjacent cfg from t = true).
Proof.
  intros Hc Hs. rewrite (kingTargets_In cfg from s t Hs).
  unfold squaresAreAdjacent. rewrite Hs. split.
  - intros (df & dr & Hd & Ht).
    destruct (toSquare_parse laws size cfg _ _ t Hc Ht) as (s' & -> & Hf & Hr).
    split; [eauto |]. rewrite Hf, Hr. apply Z.eqb_eq. lia.
  - intros [(fi & r & Ht) Hadj].
    destruct (toSquare_parse laws size cfg _ _ t Hc Ht) as (s' & Hs' & Hf & Hr).
    rewrite Hs' in Hadj. apply Z.eqb_eq in Hadj.
    exists (fi - fileIndex s), (r - rank s). split; [lia |].
    now replace (fileIndex s + (fi - fileIndex s)) with fi by lia;
      replace (rank s + (r - rank s)) with r by lia.
Qed.

(** X5.  The targets of a knight are the squares of the board one file and
    two ranks, or two files and one rank, away; on a board of size 4 or 5
    none of them is adjacent to the knight's square. *)
Theorem knightTargets_are_leaps {js : JsString} (laws : JsStringLaws js)
  (size : Z) (cfg : Config) (from : string) (s : ParsedSquare) (t : string) :
  BOARD_SIZES size = Some cfg -> parseSquare cfg from = Some s ->
  (In t (knightTargets cfg from) <->
   exists df dr,
     (Z.abs df = 1 /\ Z.abs dr = 2 \/ Z.abs df = 2 /\ Z.abs dr = 1) /\
     toSquare cfg (fileIndex s + df) (rank s + dr) = Some t) /\
  (In t (knightTargets cfg from) -> squaresAreAdjacent cfg from t = false).
Proof.
  intros Hc Hs. split; [apply knightTargets_In, Hs |].
  intros Hin. apply (knightTargets_In cfg from s t Hs) in Hin.
  destruct Hin as (df & dr & Hd & Ht).
  destruct (toSquare_parse laws size cfg _ _ t Hc Ht) as (s' & Hs' & Hf & Hr).
  unfold squaresAreAdjacent. rewrite Hs, Hs', Hf, Hr. apply Z.eqb_neq. lia.
Qed.

(** ** Pseudo-legal and legal moves *)

Lemma attacks_offset {js : JsString} (cfg : Config) (sq : string) (p : Piece)
  (b : Board) (l : list string) (q : string) :
  attacksFromSquare cfg sq p b = Ok l -> In q l ->
  exists s df dr,
    parseSquare cfg sq = Some s /\ (df <> 0 \/ dr <> 0) /\
    toSquare cfg (fileIndex s + df) (rank s + dr) = Some q.
Proof.
  assert (K : In q (kingTargets cfg sq) -> exists s df dr,
    parseSquare cfg sq = Some s /\ (df <> 0 \/ dr <> 0) /\
    toSquare cfg (fileIndex s + df) (rank s + dr) = Some q).
  { intros Hin. destruct (parseSquare cfg sq) as [s |] eqn:Hs;
      [| unfold kingTargets in Hin; rewrite Hs in Hin; contradiction].
    apply (kingTargets_In cfg sq s q Hs) in Hin.
    destruct Hin as (df & dr & Hd & Ht). exists s, df, dr.
    split; [reflexivity | split; [lia | assumption]]. }
  assert (N : In q (knightTargets cfg sq) -> exists s df dr,
    parseSquare cfg sq = Some s /\ (df <> 0 \/ dr <> 0) /\
    toSquare cfg (fileIndex s + df) (rank s + dr) = Some q).
  { intros Hin. destruct (parseSquare cfg sq) as [s |] eqn:Hs;
      [| unfold knightTargets in Hin; rewrite Hs in Hin; contradiction].
    apply (knightTargets_In cfg sq s q Hs) in Hin.
    destruct Hin as (df & dr & Hd & Ht). exists s, df, dr.
    split; [reflexivity | split; [lia | assumption]]. }
  assert (R : forall dirs a,
    incl dirs (rookDirections ++ bishopDirections) ->
    castRays (fun df dr => rayAttacks cfg sq df dr b (color p)) dirs = Ok a ->
    In q a -> exists s df dr,
      parseSquare cfg sq = Some s /\ (df <> 0 \/ dr <> 0) /\
      toSquare cfg (fileIndex s + df) (rank s + dr) = Some q).
  { intros dirs a Hi Ha Hq.
    apply (castRays_In _ _ _ q Ha) in Hq.
    destruct Hq as (df & dr & a' & Hin & Hc & Hq).
    pose proof (directions_nonzero df dr (Hi _ Hin)) as Hd.
    unfold rayAttacks in Hc.
    destruct (parseSquare cfg sq) as [s |] eqn:Hs;
      [| injection Hc as <-; contradiction].
    apply (rayAttacksLoop_In cfg b df dr _ _ _ _ Hc q) in Hq.
    destruct Hq as (k & Hk & _).
    exists s, (Z.of_nat (S k) * df), (Z.of_nat (S k) * dr).
    split; [reflexivity |]. split; [nia |].
    replace (fileIndex s + Z.of_nat (S k) * df)
      with (fileIndex s + df + Z.of_nat k * df) by lia.
    replace (rank s + Z.of_nat (S k) * dr)
      with (rank s + dr + Z.of_nat k * dr) by lia.
    assumption. }
  unfold attacksFromSquare, attacksAs. intros E Hq.
  destruct (type p).
  - injection E as <-. auto.
  - split_bind E. split_bind E. injection E as <-. apply in_app_or in Hq.
    destruct Hq as [Hq | Hq].
    + eapply R; [apply incl_appl, incl_refl | exact E0 | exact Hq].
    + eapply R; [apply incl_appr, incl_refl | exact E1 | exact Hq].
  - eapply R; [apply incl_appl, incl_refl | exact E | exact Hq].
  - eapply R; [apply incl_appr, incl_refl | exact E | exact Hq].
  - injection E as <-. auto.
Qed.

(** X6.  Every pseudo-legal destination, of any piece type, is a square of
    the board other than the piece's own, and never one held by a piece of
    the mover's colour; a piece on a text that is no square has none. *)
Theorem pseudo_moves_sound {js : JsString} (cfg : Config) (p : Piece)
  (from : string) (b : Board) (l : list string) :
  pseudoMovesForPiece cfg p from b = Ok l ->
  (parseSquare cfg from = None -> l = []) /\
  forall q, In q l ->
    notOwn b (color p) q = true /\
    exists s df dr,
      parseSquare cfg from = Some s /\ (df <> 0 \/ dr <> 0) /\
      toSquare cfg (fileIndex s + df) (rank s + dr) = Some q.
Proof.
  rewrite pseudoMoves_filter_attacks. intros E.
  destruct (attacksFromSquare cfg from p b) as [a |] eqn:Ea; [| discriminate].
  injection E as <-.
  assert (H : forall q, In q (filter (notOwn b (color p)) a) ->
    notOwn b (color p) q = true /\
    exists s df dr,
      parseSquare cfg from = Some s /\ (df <> 0 \/ dr <> 0) /\
      toSquare cfg (fileIndex s + df) (rank s + dr) = Some q).
  { intros q Hq. apply filter_In in Hq. destruct Hq as [Hq Hown].
    split; [assumption |]. exact (attacks_offset cfg from p b a q Ea Hq). }
  split; [| exact H].
  intros Hnone. destruct (filter (notOwn b (color p)) a) as [| q l'] eqn:El;
    [reflexivity |].
  destruct (H q (or_introl eq_refl)) as (_ & s & _ & _ & Hs & _). congruence.
Qed.

Lemma kingCount_set_exact (c : Color) (b : Board) (k : string) (v : Slot) :
  (kingCount c (mapSet b k v) + (if isKingOf c (mapGet b k) then 1 else 0)
   = kingCount c b + (if isKingOf c v then 1 else 0))%nat.
Proof.
  unfold kingCount. induction b as [| [k' v'] b IH]; simpl.
  - destruct (isKingOf c v); simpl; lia.
  - destruct (String.eqb k' k); simpl.
    + destruct (isKingOf c v), (isKingOf c v'); simpl; lia.
    + destruct (isKingOf c v'); simpl; lia.
Qed.

Lemma pseudoMoves_notOwn {js : JsString} (cfg : Config) (p : Piece)
  (from : string) (b : Board) (l : list string) (q : string) :
  pseudoMovesForPiece cfg p from b = Ok l -> In q l -> notOwn b (color p) q = true.
Proof.
  rewrite pseudoMoves_filter_attacks. intros E Hq.
  destruct (attacksFromSquare cfg from p b) as [a |]; [| discriminate].
  injection E as <-. apply filter_In in Hq. tauto.
Qed.

(** X7.  On a board with at most one king of each colour, a destination
    that [getLegalMoves] returns for the piece standing on [from] is one of
    its pseudo-legal destinations, holds no piece of the mover's colour and
    holds no king: a king is never captured. *)
Theorem legal_move_takes_no_king {js : JsString} (cfg : Config) (b : Board)
  (p : Piece) (from to : string) (l : list string) :
  (kingCount White b <= 1)%nat -> (kingCount Black b <= 1)%nat ->
  mapGet b from = Pc p ->
  getLegalMoves cfg p from b = Ok l -> In to l ->
  (exists cand, pseudoMovesForPiece cfg p from b = Ok cand /\ In to cand) /\
  notOwn b (color p) to = true /\
  forall c, isKingOf c (mapGet b to) = false.
Proof.
  intros HW HB Hfrom E Hto. unfold getLegalMoves in E. split_bind E.
  rename a into cand.
  destruct (legalLoop_In cfg _ _ _ _ _ _ E Hto) as [Hcand Hkeep].
  pose proof (pseudoMoves_notOwn cfg p from b cand to E0 Hcand) as Hown.
  split; [eauto |]. split; [assumption |].
  intros c. destruct (isKingOf c (mapGet b to)) eqn:Hk; [exfalso | reflexivity].
  destruct (keepsLegal_true cfg _ _ _ _ Hkeep) as (Hsep & _ & _).
  destruct (kingsAreSeparated_true cfg _ Hsep) as (wk & bk & Hwk & Hbk & _).
  assert (Hpresent : (1 <= kingCount c (applyMove b from to))%nat).
  { destruct c; [exact (kingCount_In White _ _ Hwk) | exact (kingCount_In Black _ _ Hbk)]. }
  assert (Hone : (kingCount c b <= 1)%nat) by (destruct c; assumption).
  apply isKingOf_Pc in Hk.
  assert (Hpc : isKingOf c (Pc p) = false).
  { unfold notOwn in Hown. rewrite Hk in Hown. simpl in Hown.
    simpl. destruct (Color_eqb (color p) c) eqn:Ec; [| now rewrite andb_false_r].
    apply Color_eqb_eq in Ec. subst c.
    rewrite (proj2 (Color_eqb_eq _ _) eq_refl) in Hown. discriminate. }
  assert (Hne : from <> to).
  { intros ->. rewrite Hfrom in Hk. rewrite Hk in Hpc. simpl in Hpc.
    rewrite (proj2 (Color_eqb_eq _ _) eq_refl) in Hpc. discriminate. }
  unfold applyMove in Hpresent.
  assert (Hc : mapGet (cloneBoard b) from = Pc p) by (now rewrite mapGet_clone, Hfrom).
  rewrite Hc in Hpresent.
  pose proof (kingCount_set_exact c (mapDelete (cloneBoard b) from) to (Pc p)) as Hs.
  rewrite mapGet_delete_other, mapGet_clone, Hk, Hpc in Hs by assumption.
  simpl in Hs. rewrite (proj2 (Color_eqb_eq _ _) eq_refl) in Hs.
  pose proof (kingCount_delete c (cloneBoard b) from) as Hd.
  rewrite kingCount_clone in Hd. lia.
Qed.

Lemma allLegalMovesLoop_In {js : JsString} (cfg : Config) (c : Color) (b : Board) :
  forall (entries : Board) (l : list Move),
    allLegalMovesLoop cfg entries c b = Ok l ->
    forall m, In m l <->
      In (from m, Pc (piece m)) entries /\ color (piece m) = c /\
      exists legal, getLegalMoves cfg (piece m) (from m) b = Ok legal /\
                    In (to m) legal.
Proof.
  induction entries as [| [sq v] es IH]; intros l E m; simpl in E.
  - injection E as <-. simpl. tauto.
  - destruct v as [| | p]; [discriminate | |].
    + rewrite (IH _ E m). simpl. split.
      * intros (Hin & H). split; [now right | exact H].
      * intros ([Heq | Hin] & H); [discriminate Heq | tauto].
    + destruct (Color_eqb (color p) c) eqn:Ec; simpl in E.
      * apply Color_eqb_eq in Ec. split_bind E. split_bind E. injection E as <-.
        rename a into moves. rewrite in_app_iff, in_map_iff, (IH _ E1 m).
        simpl. split.
        -- intros [(t & <- & Ht) | (Hin & H)].
           ++ simpl. split; [now left |]. split; [assumption | eauto].
           ++ split; [now right | exact H].
        -- intros ([Heq | Hin] & Hc & legal & Hl & Ht).
           ++ injection Heq as -> ->. rewrite E0 in Hl. injection Hl as <-.
              left. exists (to m). split; [now destruct m | assumption].
           ++ right. eauto.
      * rewrite (IH _ E m). simpl. split.
        -- intros (Hin & H). split; [now right | exact H].
        -- intros ([Heq | Hin] & Hc & H).
           ++ injection Heq as _ ->. subst c.
              rewrite (proj2 (Color_eqb_eq _ _) eq_refl) in Ec. discriminate.
           ++ tauto.
Qed.

(** X8.  [allLegalMoves] lists exactly the moves [{from, to, piece}] where
    [piece] is an entry of the board at [from], has the asked colour, and
    [to] is one of its legal destinations. *)
Theorem allLegalMoves_spec {js : JsString} (cfg : Config) (c : Color) (b : Board)
  (l : list Move) :
  allLegalMoves cfg c b = Ok l ->
  forall m, In m l <->
    In (from m, Pc (piece m)) b /\ color (piece m) = c /\
    exists legal, getLegalMoves cfg (piece m) (from m) b = Ok legal /\
                  In (to m) legal.
Proof. apply allLegalMovesLoop_In. Qed.

(** X9.  What [render] shows is decided by two facts, whether the side to
    move is in check and whether it has a legal move: checkmate (won by the
    other colour) with check and no move, stalemate with no check and no
    move, the check message with check and a move, the plain message
    otherwise. *)
Theorem render_table {js : JsString} (cfg : Config) (pos : Position) (d : Display) :
  render cfg pos = Ok d ->
  exists chk moves,
    isCheck cfg (turn pos) (board pos) = Ok chk /\
    allLegalMoves cfg (turn pos) (board pos) = Ok moves /\
    d = match chk, moves with
        | true, [] => CheckmateModal (oppositeColor (turn pos))
        | false, [] => StalemateModal
        | true, _ :: _ => CheckMessage (turn pos)
        | false, _ :: _ => MoveMessage
        end.
Proof.
  unfold render, isCheckmate, isStalemate. intros E.
  destruct (isCheck cfg (turn pos) (board pos)) as [chk |] eqn:Ec; [| discriminate].
  simpl in E. destruct chk; simpl in E.
  - destruct (allLegalMoves cfg (turn pos) (board pos)) as [moves |] eqn:Em;
      [| discriminate].
    simpl in E. exists true, moves. split; [reflexivity | split; [reflexivity |]].
    destruct moves; simpl in E; congruence.
  - destruct (allLegalMoves cfg (turn pos) (board pos)) as [moves |] eqn:Em;
      [| discriminate].
    simpl in E. exists false, moves. split; [reflexivity | split; [reflexivity |]].
    destruct moves; simpl in E; congruence.
Qed.

(** ** Arrays and random picks *)

Lemma removeFromArray_length (arr : list string) (v : string) :
  In v arr -> S (List.length (removeFromArray arr v)) = List.length arr.
Proof.
  induction arr as [| x arr IH]; simpl; [contradiction |]. intros Hin.
  destruct (String.eqb_spec x v); [reflexivity |].
  destruct Hin as [Heq | Hin]; [contradiction |]. simpl. now rewrite IH.
Qed.

Lemma removeFromArray_incl (arr : list string) (v x : string) :
  In x (removeFromArray arr v) -> In x arr.
Proof.
  induction arr as [| y arr IH]; simpl; [tauto |].
  destruct (String.eqb y v); simpl; tauto.
Qed.

Lemma removeFromArray_NoDup (arr : list string) (v : string) :
  NoDup arr -> NoDup (removeFromArray arr v) /\ ~ In v (removeFromArray arr v).
Proof.
  induction arr as [| y arr IH]; simpl; intros Hn; [split; [constructor | tauto] |].
  inversion Hn as [| ? ? Hnot Hrest]; subst.
  destruct (String.eqb_spec y v) as [-> | Hne]; [tauto |].
  destruct (IH Hrest) as [H1 H2]. split.
  - constructor; [| assumption]. intros Hin. apply Hnot.
    eapply removeFromArray_incl, Hin.
  - simpl. tauto.
Qed.

Lemma removeFromArray_first (pre post : list string) (v : string) :
  ~ In v pre -> removeFromArray (pre ++ v :: post) v = pre ++ post.
Proof.
  induction pre as [| x pre IH]; simpl; intros Hn.
  - now rewrite String.eqb_refl.
  - destruct (String.eqb_spec x v) as [-> | _]; [tauto |].
    rewrite IH; tauto.
Qed.

Lemma removeFromArray_split (arr : list string) (v : string) :
  In v arr ->
  exists pre post, arr = pre ++ v :: post /\ ~ In v pre.
Proof.
  induction arr as [| x arr IH]; simpl; [contradiction |]. intros Hin.
  destruct (String.eqb_spec x v) as [-> | Hne].
  - exists [], arr. simpl. tauto.
  - destruct Hin as [Heq | Hin]; [contradiction |].
    destruct (IH Hin) as (pre & post & -> & Hn).
    exists (x :: pre), post. simpl. split; [reflexivity |].
    intros [Heq | H]; [contradiction | tauto].
Qed.

(** X10.  [removeFromArray] takes out the first occurrence of the value and
    nothing else: when the array is [pre], the value, [post], with the value
    not in [pre], the result is [pre] followed by [post], in this order; an
    array that holds the value splits that way, and one that does not is
    unchanged.  So the array is one shorter when the value was in it, every
    other element stays, and an array without repetition no longer holds
    the value. *)
Theorem removeFromArray_spec (arr : list string) (v : string) :
  (forall pre post, arr = pre ++ v :: post -> ~ In v pre ->
     removeFromArray arr v = pre ++ post) /\
  (In v arr ->
   exists pre post, arr = pre ++ v :: post /\ ~ In v pre /\
                    removeFromArray arr v = pre ++ post) /\
  (~ In v arr -> removeFromArray arr v = arr) /\
  (In v arr -> S (List.length (removeFromArray arr v)) = List.length arr) /\
  (forall x, In x (removeFromArray arr v) -> In x arr) /\
  (forall x, x <> v -> In x arr -> In x (removeFromArray arr v)) /\
  (NoDup arr -> NoDup (removeFromArray arr v) /\ ~ In v (removeFromArray arr v)).
Proof.
  split; [intros pre post -> Hn; now apply removeFromArray_first |].
  split.
  { intros Hin. destruct (removeFromArray_split arr v Hin) as (pre & post & -> & Hn).
    exists pre, post. split; [reflexivity |]. split; [assumption |].
    now apply removeFromArray_first. }
  split; [| split; [apply removeFromArray_length |
                    split; [intros x; apply removeFromArray_incl |
                            split; [| apply removeFromArray_NoDup]]]].
  - induction arr as [| y arr IH]; simpl; [reflexivity |]. intros Hn.
    destruct (String.eqb_spec y v); [tauto |]. rewrite IH; tauto.
  - intros x Hx. induction arr as [| y arr IH]; simpl; [tauto |].
    intros [-> | Hin].
    + destruct (String.eqb_spec x v); [contradiction | now left].
    + destruct (String.eqb y v); [assumption | right; auto].
Qed.

(** X11.  For every double that [Math.random()] can return, [randomInt(n)]
    lies in [0 .. n-1] for a positive [n] and is 0 for [n = 0], although the
    product is rounded before [Math.floor]: thirteen times the draw
    [drawRounds] is below 9 and [randomInt(13)] is 9.  [pickRandom] answers
    [undefined] for the empty array only, and otherwise an element of the
    array. *)
Theorem pickRandom_in_array (arr : list string) (d : Draw) :
  (forall n, 0 < n -> 0 <= randomInt d n < n) /\
  randomInt d 0 = 0 /\
  (mantissa drawRounds * 13 < 9 * 2 ^ scale drawRounds /\
   randomInt drawRounds 13 = 9) /\
  (pickRandom arr d = None <-> arr = []) /\
  (forall x, pickRandom arr d = Some x -> In x arr).
Proof.
  split; [intros n; apply randomInt_range |].
  split.
  - unfold randomInt. rewrite Z.mul_0_r. cbn. now destruct (scale d <=? 0).
  - split; [split; [vm_compute; reflexivity | vm_compute; reflexivity] |].
    split.
    + split.
      * intros E. destruct arr as [| x arr]; [reflexivity |].
        destruct (pickRandom_Some (x :: arr) d) as (y & Hy & _);
          [discriminate | congruence].
      * intros ->. unfold pickRandom. simpl. now destruct (Z.to_nat _).
    + intros x E. unfold pickRandom in E. eapply nth_error_In, E.
Qed.

(** ** The position generator *)









(** ** Squares a move leaves alone *)

Lemma mapHas_set (b : Board) (k : string) (v : Slot) : mapHas (mapSet b k v) k = true.
Proof. apply mapHas_In, mapSet_keys. now left. Qed.

Lemma mapGet_absent (b : Board) (k : string) :
  mapHas b k = false -> mapGet b k = Undefined.
Proof.
  unfold mapHas. induction b as [| [k' v] b IH]; simpl; [reflexivity |].
  destruct (String.eqb k' k); simpl; [discriminate | exact IH].
Qed.

(** X14.  [applyMove] touches the two squares of the move only: every other
    square keeps its key and (a copy of) its value.  Moving a square onto
    itself changes nothing, the destination is always a key of the result,
    and moving from a square that is no key stores [undefined] there. *)
Theorem applyMove_other_squares (b : Board) (from to : string) :
  (forall k, k <> from -> k <> to ->
     mapGet (applyMove b from to) k = mapGet (cloneBoard b) k /\
     mapHas (applyMove b from to) k = mapHas b k) /\
  (from = to ->
   forall k, mapGet (applyMove b from to) k = mapGet (cloneBoard b) k) /\
  mapHas (applyMove b from to) to = true /\
  (mapHas b from = false -> mapGet (applyMove b from to) to = Undefined).
Proof.
  unfold applyMove. split; [| split; [| split]].
  - intros k Hf Ht. split.
    + rewrite mapGet_set_other, mapGet_delete_other; auto.
    + apply eq_true_iff_eq.
      rewrite !mapHas_In, mapSet_keys, mapDelete_keys, filter_In, cloneBoard_keys.
      split.
      * intros [-> | [Hin _]]; [contradiction | assumption].
      * intros Hin. right. split; [assumption |].
        now apply negb_true_iff, String.eqb_neq.
  - intros <- k. destruct (String.eqb_spec from k) as [<- | Hne].
    + apply mapGet_set_same.
    + rewrite mapGet_set_other, mapGet_delete_other; auto.
  - apply mapHas_set.
  - intros Hh. rewrite mapGet_set_same, mapGet_clone, (mapGet_absent _ _ Hh), Hh.
    reflexivity.
Qed.

(** ** Reading and writing squares *)

Lemma mapDelete_set (b : Board) (k : string) (v : Slot) :
  mapDelete (mapSet b k v) k = mapDelete b k.
Proof.
  induction b as [| [k' v'] b IH]; simpl; [now rewrite String.eqb_refl |].
  destruct (String.eqb k' k) eqn:E; simpl.
  - now rewrite String.eqb_refl.
  - now rewrite E, IH.
Qed.

(** X15.  [getPieceAt] after [setPieceAt]: the written square holds a copy
    of the piece (nothing after a falsy piece), every other square reads as
    before, the turn is untouched, and clearing a square forgets what was
    written there. *)
Theorem setPieceAt_getPieceAt (this : Position) (sq k : string) (p : Piece) :
  getPieceAt (setPieceAt this sq (Some p)) k
    = (if String.eqb sq k then Pc p else getPieceAt this k) /\
  getPieceAt (setPieceAt this sq None) k
    = (if String.eqb sq k then Undefined else getPieceAt this k) /\
  (forall o, turn (setPieceAt this sq o) = turn this) /\
  setPieceAt (setPieceAt this sq (Some p)) sq None = setPieceAt this sq None.
Proof.
  unfold getPieceAt, setPieceAt. simpl. repeat split.
  - destruct (String.eqb_spec sq k) as [<- | Hne].
    + rewrite mapGet_set_same. now destruct p.
    + now rewrite mapGet_set_other.
  - destruct (String.eqb_spec sq k) as [<- | Hne].
    + apply mapGet_delete_same.
    + now rewrite mapGet_delete_other.
  - now intros [o |].
  - now rewrite mapDelete_set.
Qed.

Lemma firstKing_set_new (b : Board) (c : Color) (sq : string) :
  piecesOnly b -> kingCount c b = O ->
  firstKing (mapSet b sq (Pc {| type := King; color := c |})) c = Ok (Some sq).
Proof.
  unfold piecesOnly, kingCount.
  induction 1 as [| [k v] b [p Hp] _ IH]; simpl; intros Hc.
  - now destruct c.
  - simpl in Hp. subst v. simpl in Hc.
    destruct (String.eqb k sq); simpl.
    + now destruct c.
    + destruct (PieceType_eqb (type p) King && Color_eqb (color p) c);
        [discriminate | auto].
Qed.

(** X16.  On a board of pieces [findKingSquare] does not throw; it answers
    [null] exactly when the board holds no king of the colour, a square it
    answers holds such a king, and once a king is set on a board that had
    none of its colour the answer is that square. *)
Theorem findKingSquare_spec (this : Position) (c : Color) :
  piecesOnly (board this) ->
  exists r, findKingSquare this c = Ok r /\
    (r = None <-> kingCount c (board this) = O) /\
    (forall sq, r = Some sq ->
       In (sq, Pc {| type := King; color := c |}) (board this)) /\
    (r = None ->
     forall sq, findKingSquare
                  (setPieceAt this sq (Some {| type := King; color := c |})) c
                = Ok (Some sq)).
Proof.
  intros Hb. unfold findKingSquare.
  destruct (firstKing_total (board this) c Hb) as [r E]. exists r.
  split; [assumption |].
  destruct (firstKing_spec _ _ _ E) as [[-> Hz] | (k & -> & Hin)].
  - split; [tauto |]. split; [discriminate |]. intros _ sq. simpl.
    now apply firstKing_set_new.
  - pose proof (kingCount_In _ _ _ Hin). split; [| split].
    + split; [discriminate | lia].
    + now intros sq [= <-].
    + discriminate.
Qed.

(** ** The click handler *)

Lemma oppositeColor_involutive (c : Color) : oppositeColor (oppositeColor c) = c.
Proof. now destruct c. Qed.

Lemma isStalemate_total {js : JsString} (cfg : Config) (c : Color) (b : Board) :
  piecesOnly b -> exists v, isStalemate cfg c b = Ok v.
Proof.
  intros Hb. unfold isStalemate.
  destruct (isCheck_total cfg c b Hb) as [chk ->]. cbn [bind].
  destruct chk; [eauto |].
  destruct (allLegalMoves_total cfg c b Hb) as [l ->]. cbn [bind]. eauto.
Qed.

Lemma render_total {js : JsString} (cfg : Config) (pos : Position) :
  piecesOnly (board pos) -> exists d, render cfg pos = Ok d.
Proof.
  intros Hb. unfold render.
  destruct (isCheckmate_total cfg (turn pos) _ Hb) as [m ->]. cbn [bind].
  destruct m; [eauto |].
  destruct (isStalemate_total cfg (turn pos) _ Hb) as [s ->]. cbn [bind].
  destruct s; [eauto |].
  destruct (isCheck_total cfg (turn pos) _ Hb) as [chk ->]. cbn [bind].
  destruct chk; eauto.
Qed.

(** A legal move of the side to move leads from a playable position to a
    playable position. *)
Lemma legal_move_playable {js : JsString} (cfg : Config) (pos : Position)
  (p : Piece) (from to : string) (l : list string) :
  playable cfg pos -> getPieceAt pos from = Pc p -> color p = turn pos ->
  getLegalMoves cfg p from (board pos) = Ok l -> In to l ->
  playable cfg {| board := applyMove (board pos) from to;
                  turn := oppositeColor (turn pos) |}.
Proof.
  intros (Hp & Hn & HW & HB & Hs & Hc) Hfrom Hcol E Hto.
  unfold getLegalMoves in E. split_bind E.
  destruct (legalLoop_In cfg _ _ _ _ _ _ E Hto) as [_ Hkeep].
  destruct (keepsLegal_true cfg _ _ _ _ Hkeep) as (Hsep & Hchk & _).
  destruct (kingsAreSeparated_true cfg _ Hsep) as (wk & bk & Hwk & Hbk & _).
  pose proof (kingCount_In White _ _ Hwk).
  pose proof (kingCount_In Black _ _ Hbk).
  pose proof (kingCount_applyMove White (board pos) from to).
  pose proof (kingCount_applyMove Black (board pos) from to).
  unfold playable. simpl. rewrite oppositeColor_involutive, <- Hcol.
  split; [eapply applyMove_piecesOnly; eauto |].
  split; [now apply NoDup_applyMove |].
  split; [lia |]. split; [lia |]. split; assumption.
Qed.

(** *** The frame holds every square of the board *)

Lemma createBoardFrame_In (cfg : Config) (e : SquareEl) :
  In e (createBoardFrame cfg) <->
  exists fi r, toSquare cfg fi r = Some (dataSquare e) /\
               dark e = isDarkSquare fi r.
Proof.
  unfold createBoardFrame. rewrite in_flat_map. split.
  - intros (r & Hr & He). apply in_map_iff in He.
    destruct He as (i & <- & Hi). apply in_seq in Hi. apply in_rev in Hr.
    exists (Z.of_nat i), r. cbn [dataSquare dark]. split; [| reflexivity].
    unfold toSquare.
    destruct (Z.ltb_spec (Z.of_nat i) 0); [lia |].
    rewrite Z.geb_leb.
    destruct (Z.leb_spec (Z.of_nat (List.length (FILES cfg))) (Z.of_nat i)); [lia |].
    cbn [orb]. now rewrite (proj2 (includesZ_In r (RANKS cfg)) Hr).
  - intros (fi & r & Ht & Hd).
    destruct (toSquare_Some cfg fi r _ Ht) as [Hfi Hr].
    exists r. split; [now apply in_rev in Hr |].
    apply in_map_iff. exists (Z.to_nat fi). split; [| apply in_seq; lia].
    rewrite Z2Nat.id by lia. unfold toSquare in Ht.
    destruct ((fi <? 0) || (fi >=? Z.of_nat (List.length (FILES cfg))));
      [discriminate |].
    destruct (negb (includesZ r (RANKS cfg))); [discriminate |].
    injection Ht as Ht. destruct e as [q dk]. cbn [dataSquare dark] in *.
    now subst.
Qed.

Lemma hasSquare_toSquare (cfg : Config) (fi r : Z) (q : string) :
  toSquare cfg fi r = Some q -> hasSquare (createBoardFrame cfg) q = true.
Proof.
  intros Ht. unfold hasSquare. apply existsb_exists.
  exists {| dataSquare := q; dark := isDarkSquare fi r |}.
  split; [| apply String.eqb_refl].
  apply createBoardFrame_In. exists fi, r. auto.
Qed.

Lemma legal_moves_in_frame {js : JsString} (cfg : Config) (p : Piece)
  (from : string) (b : Board) (legal : list string) (to : string) :
  getLegalMoves cfg p from b = Ok legal -> In to legal ->
  hasSquare (createBoardFrame cfg) to = true.
Proof.
  intros E Hto. unfold getLegalMoves in E. split_bind E.
  destruct (legalLoop_In cfg _ _ _ _ _ _ E Hto) as [Hcand _].
  rewrite pseudoMoves_filter_attacks in E0.
  destruct (attacksFromSquare cfg from p b) as [att |] eqn:Ea; [| discriminate].
  injection E0 as <-. apply filter_In in Hcand. destruct Hcand as [Hatt _].
  destruct (attacks_offset cfg from p b att to Ea Hatt) as (s & df & dr & _ & _ & Ht).
  eapply hasSquare_toSquare, Ht.
Qed.

(** [highlightLegalMoves] throws exactly when there is a legal move. *)
Lemma highlightLegalMoves_throws {js : JsString} (cfg : Config) (p : Piece)
  (from : string) (b : Board) (legal : list string) :
  getLegalMoves cfg p from b = Ok legal ->
  highlightLegalMoves (createBoardFrame cfg) from legal
  = negb (Nat.eqb (List.length legal) 0).
Proof.
  intros E. unfold highlightLegalMoves.
  destruct legal as [| to rest]; [reflexivity |].
  cbn [existsb List.length Nat.eqb negb].
  now rewrite (legal_moves_in_frame cfg p from b _ to E (or_introl eq_refl)).
Qed.

(** What one click does to a playable position. *)
Lemma click_step {js : JsString} (cfg : Config) (ui : Ui) (sq : string) :
  playable cfg (current ui) ->
  exists ui' fb,
    handleSquareClick cfg ui sq = Ok (ui', fb) /\
    playable cfg (current ui') /\
    ((exists legal, fb = HighlightThrew sq legal) <->
     selectedSquare ui = None /\
     exists p legal,
       getPieceAt (current ui) sq = Pc p /\ color p = turn (current ui) /\
       getLegalMoves cfg p sq (board (current ui)) = Ok legal /\ legal <> []) /\
    (forall s legal, fb = HighlightThrew s legal ->
       s = sq /\ ui' = select ui (Some sq)) /\
    ((current ui' = current ui /\ score ui' = score ui) \/
     exists from p legal,
       selectedSquare ui = Some from /\ from <> sq /\
       getPieceAt (current ui) from = Pc p /\ color p = turn (current ui) /\
       getLegalMoves cfg p from (board (current ui)) = Ok legal /\ In sq legal /\
       ui' = {| current := {| board := applyMove (board (current ui)) from sq;
                              turn := oppositeColor (turn (current ui)) |};
                selectedSquare := None;
                score := score ui + 1 |}).
Proof.
  intros Hplay. pose proof Hplay as (Hb & _).
  assert (Quiet : forall (u : Ui) (fb : Feedback),
            selectedSquare ui <> None \/
            (forall p legal, getPieceAt (current ui) sq = Pc p ->
               color p = turn (current ui) ->
               getLegalMoves cfg p sq (board (current ui)) = Ok legal ->
               legal = []) ->
            (forall s legal, fb <> HighlightThrew s legal) ->
            ((exists legal, fb = HighlightThrew sq legal) <->
             selectedSquare ui = None /\
             exists p legal,
               getPieceAt (current ui) sq = Pc p /\ color p = turn (current ui) /\
               getLegalMoves cfg p sq (board (current ui)) = Ok legal /\
               legal <> []) /\
            (forall s legal, fb = HighlightThrew s legal ->
               s = sq /\ u = select ui (Some sq))).
  { intros u fb Hno Hfb. split; [split |].
    - intros [legal E]. now elim (Hfb sq legal).
    - intros (Hsel & p & legal & Hg & Hc & El & Hne).
      destruct Hno as [Hno | Hno]; [contradiction |].
      elim Hne. eapply Hno; eauto.
    - intros s legal E. now elim (Hfb s legal). }
  unfold handleSquareClick.
  destruct (selectedSquare ui) as [selected |] eqn:Hsel.
  - destruct (String.eqb_spec selected sq) as [-> | Hne].
    { exists (select ui None), Cleared. split; [reflexivity |].
      split; [exact Hplay |].
      destruct (Quiet (select ui None) Cleared) as [Q1 Q2];
        [left; congruence | intros; discriminate |].
      split; [exact Q1 |]. split; [exact Q2 |]. left. split; reflexivity. }
    destruct (getPieceAt (current ui) selected) as [| | mp] eqn:Hg.
    1,2: exists (select ui None), Cleared; split; [reflexivity |];
         split; [exact Hplay |];
         destruct (Quiet (select ui None) Cleared) as [Q1 Q2];
           [left; congruence | intros; discriminate |];
         split; [exact Q1 |]; split; [exact Q2 |]; left; split; reflexivity.
    destruct (Color_eqb (color mp) (turn (current ui))) eqn:Hc; cbn [negb].
    2:{ exists (select ui None), Cleared. split; [reflexivity |].
        split; [exact Hplay |].
        destruct (Quiet (select ui None) Cleared) as [Q1 Q2];
          [left; congruence | intros; discriminate |].
        split; [exact Q1 |]. split; [exact Q2 |]. left. split; reflexivity. }
    apply Color_eqb_eq in Hc.
    destruct (getLegalMoves_total cfg mp mp selected _ Hb Hg) as [legal El].
    rewrite El. cbn [bind].
    destruct (includes sq legal) eqn:Hin; cbn [negb].
    2:{ exists ui, WrongMove. split; [reflexivity |]. split; [exact Hplay |].
        destruct (Quiet ui WrongMove) as [Q1 Q2];
          [left; congruence | intros; discriminate |].
        split; [exact Q1 |]. split; [exact Q2 |]. left. split; reflexivity. }
    apply includes_In in Hin.
    pose proof (legal_move_playable cfg _ _ _ _ _ Hplay Hg Hc El Hin) as Hnext.
    destruct (render_total cfg
                {| board := applyMove (board (current ui)) selected sq;
                   turn := oppositeColor (turn (current ui)) |}
                (proj1 Hnext)) as [d Hd].
    cbn [current]. rewrite Hd. cbn [bind].
    eexists _, (Moved d). split; [reflexivity |]. split; [exact Hnext |].
    destruct (Quiet {| current := {| board := applyMove (board (current ui)) selected sq;
                                     turn := oppositeColor (turn (current ui)) |};
                       selectedSquare := None; score := score ui + 1 |} (Moved d))
      as [Q1 Q2]; [left; congruence | intros; discriminate |].
    split; [exact Q1 |]. split; [exact Q2 |].
    right. exists selected, mp, legal. auto 10.
  - destruct (getPieceAt (current ui) sq) as [| | p] eqn:Hg.
    1,2: exists ui, Cleared; split; [reflexivity |]; split; [exact Hplay |];
         destruct (Quiet ui Cleared) as [Q1 Q2];
           [right; intros p0 l0 H0; congruence | intros; discriminate |];
         split; [exact Q1 |]; split; [exact Q2 |]; left; split; reflexivity.
    destruct (Color_eqb (color p) (turn (current ui))) eqn:Hc; cbn [negb].
    2:{ exists ui, Cleared. split; [reflexivity |]. split; [exact Hplay |].
        destruct (Quiet ui Cleared) as [Q1 Q2]; [| intros; discriminate |].
        { right. intros p0 l0 H0 H1. assert (p0 = p) by congruence. subst p0.
          apply Color_eqb_eq in H1. congruence. }
        split; [exact Q1 |]. split; [exact Q2 |]. left. split; reflexivity. }
    pose proof Hc as Hc'. apply Color_eqb_eq in Hc'.
    destruct (getLegalMoves_total cfg p p sq _ Hb Hg) as [legal El].
    rewrite El. cbn [bind].
    rewrite (highlightLegalMoves_throws cfg p sq _ legal El).
    destruct legal as [| to rest]; cbn [List.length Nat.eqb negb].
    + exists (select ui (Some sq)), (Highlighted sq []).
      split; [reflexivity |]. split; [exact Hplay |].
      destruct (Quiet (select ui (Some sq)) (Highlighted sq [])) as [Q1 Q2];
        [| intros; discriminate |].
      { right. intros p0 l0 H0 _ H2. assert (p0 = p) by congruence. subst p0.
        congruence. }
      split; [exact Q1 |]. split; [exact Q2 |]. left. split; reflexivity.
    + exists (select ui (Some sq)), (HighlightThrew sq (to :: rest)).
      split; [reflexivity |]. split; [exact Hplay |].
      split; [| split].
      * split; [| eauto].
        intros _. split; [reflexivity |]. exists p, (to :: rest).
        split; [reflexivity |]. split; [assumption |].
        split; [assumption | discriminate].
      * intros s legal [= <- _]. split; reflexivity.
      * left. split; reflexivity.
Qed.

(** X17.  On a playable position a click never
    makes the engine throw and leaves a playable position.  It ends by the
    ReferenceError of [highlightLegalMoves] exactly when no square was
    selected and the clicked square holds a piece of the side to move that
    has a legal move; the clicked square is then selected and nothing else
    has changed.  The game changes in one case only: a square was selected,
    it holds a piece of the side to move, and the clicked square is one of
    its legal moves; then the piece is moved, the turn passes to the other
    side, the score grows by one and the selection is dropped. *)
Theorem handleSquareClick_keeps_playable {js : JsString} (cfg : Config)
  (ui : Ui) (sq : string) :
  playable cfg (current ui) ->
  exists ui' fb,
    handleSquareClick cfg ui sq = Ok (ui', fb) /\
    playable cfg (current ui') /\
    ((exists legal, fb = HighlightThrew sq legal) <->
     selectedSquare ui = None /\
     exists p legal,
       getPieceAt (current ui) sq = Pc p /\ color p = turn (current ui) /\
       getLegalMoves cfg p sq (board (current ui)) = Ok legal /\ legal <> []) /\
    (forall s legal, fb = HighlightThrew s legal ->
       s = sq /\ ui' = select ui (Some sq)) /\
    ((current ui' = current ui /\ score ui' = score ui) \/
     exists from p legal,
       selectedSquare ui = Some from /\ from <> sq /\
       getPieceAt (current ui) from = Pc p /\ color p = turn (current ui) /\
       getLegalMoves cfg p from (board (current ui)) = Ok legal /\ In sq legal /\
       ui' = {| current := {| board := applyMove (board (current ui)) from sq;
                              turn := oppositeColor (turn (current ui)) |};
                selectedSquare := None;
                score := score ui + 1 |}).
Proof. apply click_step. Qed.

Lemma pieceCount_applyMove (b : Board) (from to : string) (p : Piece) :
  NoDup (map fst b) -> mapGet b from = Pc p -> from <> to ->
  (pieceCount (applyMove b from to) <= pieceCount b)%nat.
Proof.
  intros Hn Hp Hne.
  destruct (applyMove_facts b from to p Hn Hp Hne) as (Hc & _). lia.
Qed.

(** X18.  From a playable position, in every sequence of clicks the engine
    never throws (a click may end by the ReferenceError of
    [highlightLegalMoves], and the next one goes on from the state it left),
    and the sequence ends in a playable position.  The score counts the
    moves made: it never decreases, grows by at most one per click, the turn
    is the starting one exactly when the number of moves is even, and with
    no move made board and turn are unchanged.  No click adds a piece. *)
Theorem clicks_keep_playable {js : JsString} (cfg : Config) (squares : list string) :
  forall ui, playable cfg (current ui) ->
  exists ui',
    clicks cfg ui squares = Ok ui' /\
    playable cfg (current ui') /\
    score ui <= score ui' <= score ui + Z.of_nat (List.length squares) /\
    turn (current ui') = (if Z.even (score ui' - score ui) then turn (current ui)
                         else oppositeColor (turn (current ui))) /\
    (score ui' = score ui -> current ui' = current ui) /\
    (pieceCount (board (current ui')) <= pieceCount (board (current ui)))%nat.
Proof.
  induction squares as [| sq rest IH]; intros ui Hplay.
  - exists ui. rewrite Z.sub_diag. cbn [clicks List.length].
    split; [reflexivity |]. split; [assumption |]. split; [lia |].
    split; [reflexivity |]. split; [reflexivity | lia].
  - destruct (click_step cfg ui sq Hplay) as (u & f & E & Hu & _ & _ & Hcase).
    destruct (IH u Hu) as (ui' & Ec & Hp' & Hs & Ht & Hsame & Hcount).
    exists ui'. cbn [clicks]. rewrite E. cbn [bind fst].
    split; [assumption |]. split; [assumption |].
    replace (Z.of_nat (List.length (sq :: rest)))
      with (Z.of_nat (List.length rest) + 1) by (simpl List.length; lia).
    destruct Hcase as [[Hcur Hsc] | (from & p & legal & _ & Hne & Hg & _ & _ & _ & ->)].
    + rewrite Hcur, Hsc in *. repeat split; try assumption; lia.
    + cbn [current score board turn] in *.
      destruct Hplay as (_ & Hn & _).
      pose proof (pieceCount_applyMove _ _ _ _ Hn Hg Hne).
      split; [lia |]. split; [| split; [intros; lia | lia]].
      rewrite Ht.
      replace (score ui' - score ui) with (Z.succ (score ui' - (score ui + 1))) by lia.
      rewrite Z.even_succ, <- Z.negb_even.
      destruct (Z.even (score ui' - (score ui + 1))); simpl;
        [reflexivity | apply oppositeColor_involutive].
Qed.

(** X24.  Two clicks make a move.  With nothing selected, a click on a piece
    of the side to move that has the legal move [to] ends by the
    ReferenceError of [highlightLegalMoves] with the piece's square
    selected; the following click on [to] moves the piece, passes the turn,
    adds one to the score and drops the selection. *)
Theorem select_then_move {js : JsString} (cfg : Config) (ui : Ui)
  (from to : string) (p : Piece) (legal : list string) :
  playable cfg (current ui) ->
  selectedSquare ui = None ->
  getPieceAt (current ui) from = Pc p -> color p = turn (current ui) ->
  getLegalMoves cfg p from (board (current ui)) = Ok legal -> In to legal ->
  handleSquareClick cfg ui from
    = Ok (select ui (Some from), HighlightThrew from legal) /\
  exists d,
    handleSquareClick cfg (select ui (Some from)) to
      = Ok ({| current := {| board := applyMove (board (current ui)) from to;
                             turn := oppositeColor (turn (current ui)) |};
               selectedSquare := None;
               score := score ui + 1 |}, Moved d) /\
    clicks cfg ui [from; to]
      = Ok {| current := {| board := applyMove (board (current ui)) from to;
                            turn := oppositeColor (turn (current ui)) |};
              selectedSquare := None;
              score := score ui + 1 |}.
Proof.
  intros Hplay Hsel Hg Hc El Hto.
  assert (Hne : from <> to).
  { intros <-. unfold getLegalMoves in El. split_bind El.
    destruct (legalLoop_In cfg _ _ _ _ _ _ El Hto) as [Hcand _].
    pose proof (pseudoMoves_notOwn cfg p from _ _ _ E Hcand) as Hown.
    unfold notOwn in Hown. unfold getPieceAt in Hg. rewrite Hg in Hown.
    rewrite (proj2 (Color_eqb_eq _ _) eq_refl) in Hown. discriminate. }
  assert (E1 : handleSquareClick cfg ui from
               = Ok (select ui (Some from), HighlightThrew from legal)).
  { unfold handleSquareClick. rewrite Hsel, Hg.
    rewrite (proj2 (Color_eqb_eq _ _) Hc). cbn [negb]. rewrite El. cbn [bind].
    rewrite (highlightLegalMoves_throws cfg p from _ legal El).
    destruct legal as [| x rest]; [contradiction | reflexivity]. }
  pose proof (legal_move_playable cfg _ _ _ _ _ Hplay Hg Hc El Hto) as Hnext.
  destruct (render_total cfg
              {| board := applyMove (board (current ui)) from to;
                 turn := oppositeColor (turn (current ui)) |}
              (proj1 Hnext)) as [d Hd].
  assert (E2 : handleSquareClick cfg (select ui (Some from)) to
               = Ok ({| current := {| board := applyMove (board (current ui)) from to;
                                      turn := oppositeColor (turn (current ui)) |};
                        selectedSquare := None;
                        score := score ui + 1 |}, Moved d)).
  { unfold handleSquareClick. cbn [select selectedSquare current score].
    destruct (String.eqb_spec from to) as [Heq | _]; [contradiction |].
    rewrite Hg. rewrite (proj2 (Color_eqb_eq _ _) Hc). cbn [negb].
    rewrite El. cbn [bind].
    rewrite (proj2 (includes_In to legal) Hto). cbn [negb].
    rewrite Hd. reflexivity. }
  split; [exact E1 |]. exists d. split; [exact E2 |].
  cbn [clicks]. rewrite E1. cbn [bind fst]. rewrite E2. reflexivity.
Qed.

(** X25.  [createBoardFrame] makes one element for each square of the
    installed board and no other: an element is in the frame exactly when
    its [data-square] is [toSquare] of some file index and rank, and it is
    dark exactly when [isDarkSquare] says so of these; on a board of size 4
    or 5 there are [size * size] elements with distinct names, the first in
    document order is the top left square and the last the bottom right
    one. *)
Theorem createBoardFrame_squares (size : Z) (cfg : Config) :
  BOARD_SIZES size = Some cfg ->
  (forall e, In e (createBoardFrame cfg) <->
     exists fi r, toSquare cfg fi r = Some (dataSquare e) /\
                  dark e = isDarkSquare fi r) /\
  Z.of_nat (List.length (createBoardFrame cfg)) = size * size /\
  NoDup (map dataSquare (createBoardFrame cfg)) /\
  option_map dataSquare (hd_error (createBoardFrame cfg)) = toSquare cfg 0 size /\
  option_map dataSquare (hd_error (rev (createBoardFrame cfg)))
    = toSquare cfg (size - 1) 1.
Proof.
  intros Hc. split; [intros e; apply createBoardFrame_In |].
  destruct (board_size_cases _ _ Hc) as [[-> ->] | [-> ->]].
  - split; [reflexivity |].
    split; [| split; reflexivity].
    vm_compute. repeat (constructor; [simpl; intuition discriminate |]).
    constructor.
  - split; [reflexivity |].
    split; [| split; reflexivity].
    vm_compute. repeat (constructor; [simpl; intuition discriminate |]).
    constructor.
Qed.

(** ** A new game *)






(** ** Square colours *)

Lemma isDarkSquare_even (fi r : Z) : isDarkSquare fi r = Z.even (fi + (r - 1)).
Proof. unfold isDarkSquare. now rewrite Zeven_rem. Qed.

Lemma even_plus_odd (a m : Z) : Z.even (a + (2 * m + 1)) = negb (Z.even a).
Proof. rewrite Z.even_add, Z.even_odd. now destruct (Z.even a). Qed.

(** X20.  [isDarkSquare] colours the integer grid as a checkerboard, also
    outside the board and for negative coordinates: A1 is dark, a step along
    a file or a rank changes the colour, and any number of steps along a
    diagonal keeps it. *)
Theorem isDarkSquare_checkerboard (fi r : Z) :
  isDarkSquare 0 1 = true /\
  isDarkSquare (fi + 1) r = negb (isDarkSquare fi r) /\
  isDarkSquare fi (r + 1) = negb (isDarkSquare fi r) /\
  forall k, isDarkSquare (fi + k) (r + k) = isDarkSquare fi r /\
            isDarkSquare (fi + k) (r - k) = isDarkSquare fi r.
Proof.
  rewrite !isDarkSquare_even. split; [reflexivity |].
  split; [| split].
  - replace (fi + 1 + (r - 1)) with (fi + (r - 1) + (2 * 0 + 1)) by lia.
    apply even_plus_odd.
  - replace (fi + (r + 1 - 1)) with (fi + (r - 1) + (2 * 0 + 1)) by lia.
    apply even_plus_odd.
  - intros k. rewrite !isDarkSquare_even. split.
    + replace (fi + k + (r + k - 1)) with (fi + (r - 1) + 2 * k) by lia.
      apply Z.even_add_mul_2.
    + replace (fi + k + (r - k - 1)) with (fi + (r - 1)) by lia. reflexivity.
Qed.

(** X21.  On a board of size 4 or 5 every pseudo-legal destination parses
    back to a square; that of a bishop has the colour of the square the
    bishop stands on, that of a knight the other colour. *)
Theorem bishop_keeps_knight_flips {js : JsString} (laws : JsStringLaws js)
  (size : Z) (cfg : Config) (p : Piece) (from : string) (b : Board)
  (l : list string) (q : string) (s : ParsedSquare) :
  BOARD_SIZES size = Some cfg ->
  parseSquare cfg from = Some s ->
  pseudoMovesForPiece cfg p from b = Ok l -> In q l ->
  exists s',
    parseSquare cfg q = Some s' /\
    (type p = Bishop ->
     isDarkSquare (fileIndex s') (rank s') = isDarkSquare (fileIndex s) (rank s)) /\
    (type p = Knight ->
     isDarkSquare (fileIndex s') (rank s')
       = negb (isDarkSquare (fileIndex s) (rank s))).
Proof.
  intros Hc Hs E Hq. rewrite pseudoMoves_filter_attacks in E.
  destruct (attacksFromSquare cfg from p b) as [a |] eqn:Ea; [| discriminate].
  injection E as <-. apply filter_In in Hq. destruct Hq as [Hq _].
  destruct (attacks_offset cfg from p b a q Ea Hq) as (s0 & df0 & dr0 & Hs0 & _ & Ht0).
  destruct (toSquare_parse laws size cfg _ _ _ Hc Ht0) as (s' & Hs' & _).
  exists s'. split; [assumption |].
  unfold attacksFromSquare, attacksAs in Ea. split; intros Ht; rewrite Ht in Ea.
  - apply (castRays_In _ _ _ q Ea) in Hq.
    destruct Hq as (df & dr & a' & Hd & Hr & Hq).
    unfold rayAttacks in Hr. rewrite Hs in Hr.
    apply (rayAttacksLoop_In cfg b df dr _ _ _ _ Hr q) in Hq.
    destruct Hq as (k & Hk & _).
    destruct (toSquare_parse laws size cfg _ _ _ Hc Hk) as (s1 & Hs1 & Hf & Hrk).
    assert (s1 = s') by congruence. subst s1.
    rewrite !isDarkSquare_even, Hf, Hrk.
    unfold bishopDirections in Hd. simpl in Hd.
    destruct Hd as [[= <- <-] | [[= <- <-] | [[= <- <-] | [[= <- <-] | []]]]].
    + replace (fileIndex s + 1 + Z.of_nat k * 1 + (rank s + 1 + Z.of_nat k * 1 - 1))
        with (fileIndex s + (rank s - 1) + 2 * (Z.of_nat k + 1)) by lia.
      apply Z.even_add_mul_2.
    + f_equal. lia.
    + f_equal. lia.
    + replace (fileIndex s + -1 + Z.of_nat k * -1 + (rank s + -1 + Z.of_nat k * -1 - 1))
        with (fileIndex s + (rank s - 1) + 2 * (- Z.of_nat k - 1)) by lia.
      apply Z.even_add_mul_2.
  - injection Ea as <-.
    apply (knightTargets_In cfg from s q Hs) in Hq.
    destruct Hq as (df & dr & Hd & Hk).
    destruct (toSquare_parse laws size cfg _ _ _ Hc Hk) as (s1 & Hs1 & Hf & Hrk).
    assert (s1 = s') by congruence. subst s1.
    rewrite !isDarkSquare_even, Hf, Hrk.
    assert (Hodd : exists m, df + dr = 2 * m + 1).
    { assert (Hsum : df + dr = 3 \/ df + dr = 1 \/ df + dr = -1 \/ df + dr = -3)
        by lia.
      destruct Hsum as [Hsum | [Hsum | [Hsum | Hsum]]];
        [exists 1 | exists 0 | exists (-1) | exists (-2)]; lia. }
    destruct Hodd as [m Hm].
    replace (fileIndex s + df + (rank s + dr - 1))
      with (fileIndex s + (rank s - 1) + (2 * m + 1)) by lia.
    apply even_plus_odd.
Qed.

(** ** Piece and colour tokens *)

Lemma lower_token {js : JsString} {lower : JsLower} (laws : TokenLaws js lower)
  (s : string) :
  isLowerWord s = true -> toLowerCase (trim s) = s.
Proof. intros H. now rewrite (trim_word s H), (lower_word s H). Qed.

Lemma lowered_fixed {js : JsString} {lower : JsLower} (laws : TokenLaws js lower)
  (x : string) :
  toLowerCase (trim (toLowerCase (trim x))) = toLowerCase (trim x).
Proof. now rewrite trim_lowered, lower_twice. Qed.

(** [normalizeColor] answers one of the two tokens, or the lowered and
    trimmed text when that is no colour name. *)
Lemma normalizeColor_cases {js : JsString} {lower : JsLower} (x : string) :
  (exists c, Tokens.normalizeColor x = Tokens.colorToken c /\
             (toLowerCase (trim x) = Tokens.colorToken c \/
              toLowerCase (trim x) = Tokens.colorWord c)) \/
  (Tokens.normalizeColor x = toLowerCase (trim x) /\
   forall c, toLowerCase (trim x) <> Tokens.colorToken c /\
             toLowerCase (trim x) <> Tokens.colorWord c).
Proof.
  unfold Tokens.normalizeColor. cbv zeta.
  destruct (String.eqb_spec (toLowerCase (trim x)) "w") as [-> | N1];
    [left; exists White; simpl; auto |].
  destruct (String.eqb_spec (toLowerCase (trim x)) "white") as [-> | N2];
    [left; exists White; simpl; auto |].
  destruct (String.eqb_spec (toLowerCase (trim x)) "b") as [-> | N3];
    [left; exists Black; simpl; auto |].
  destruct (String.eqb_spec (toLowerCase (trim x)) "black") as [-> | N4];
    [left; exists Black; simpl; auto |].
  right. split; [reflexivity |]. intros [|]; simpl; auto.
Qed.

Lemma normalizeColor_token {js : JsString} {lower : JsLower}
  (laws : TokenLaws js lower) (c : Color) :
  Tokens.normalizeColor (Tokens.colorToken c) = Tokens.colorToken c /\
  Tokens.normalizeColor (Tokens.colorWord c) = Tokens.colorToken c.
Proof.
  unfold Tokens.normalizeColor. cbv zeta.
  destruct c; simpl; rewrite !(lower_token laws) by reflexivity; split; reflexivity.
Qed.

Lemma normalizeColor_idempotent {js : JsString} {lower : JsLower}
  (laws : TokenLaws js lower) (x : string) :
  Tokens.normalizeColor (Tokens.normalizeColor x) = Tokens.normalizeColor x.
Proof.
  destruct (normalizeColor_cases x) as [(c & -> & _) | [E N]].
  - apply normalizeColor_token, laws.
  - rewrite E.
    destruct (normalizeColor_cases (toLowerCase (trim x))) as [(c & _ & H) | [E' _]].
    + rewrite (lowered_fixed laws) in H. destruct (N c). tauto.
    + rewrite E'. apply (lowered_fixed laws).
Qed.

Lemma oppositeColor_token {js : JsString} {lower : JsLower}
  (laws : TokenLaws js lower) (c : Color) :
  Tokens.oppositeColor (Tokens.colorToken c) = Tokens.colorToken (oppositeColor c) /\
  Tokens.oppositeColor (Tokens.colorWord c) = Tokens.colorToken (oppositeColor c).
Proof.
  unfold Tokens.oppositeColor. cbv zeta.
  destruct (normalizeColor_token laws c) as [-> ->]. now destruct c.
Qed.

Lemma oppositeColor_cases {js : JsString} {lower : JsLower} (x : string) :
  (exists c, Tokens.normalizeColor x = Tokens.colorToken c /\
             Tokens.oppositeColor x = Tokens.colorToken (oppositeColor c)) \/
  ((forall c, Tokens.normalizeColor x <> Tokens.colorToken c) /\
   Tokens.oppositeColor x = Tokens.normalizeColor x).
Proof.
  unfold Tokens.oppositeColor. cbv zeta.
  destruct (String.eqb_spec (Tokens.normalizeColor x) "w") as [E | N1];
    [left; exists White; auto |].
  destruct (String.eqb_spec (Tokens.normalizeColor x) "b") as [E | N2];
    [left; exists Black; auto |].
  right. split; [intros [|]; assumption | reflexivity].
Qed.

(** [pieceName] answers one of the five names, or the lowered text. *)
Lemma pieceName_cases {js : JsString} {lower : JsLower} (x : string) :
  (exists t, Tokens.pieceName x = Tokens.typeWord t /\
             (toLowerCase x = Tokens.typeToken t \/
              toLowerCase x = Tokens.typeWord t)) \/
  (Tokens.pieceName x = toLowerCase x /\
   forall t, toLowerCase x <> Tokens.typeToken t /\
             toLowerCase x <> Tokens.typeWord t).
Proof.
  unfold Tokens.pieceName. cbv zeta.
  destruct (String.eqb_spec (toLowerCase x) "k") as [-> | K1];
    [left; exists King; simpl; auto |].
  destruct (String.eqb_spec (toLowerCase x) "king") as [-> | K2];
    [left; exists King; simpl; auto |].
  destruct (String.eqb_spec (toLowerCase x) "q") as [-> | Q1];
    [left; exists Queen; simpl; auto |].
  destruct (String.eqb_spec (toLowerCase x) "queen") as [-> | Q2];
    [left; exists Queen; simpl; auto |].
  destruct (String.eqb_spec (toLowerCase x) "r") as [-> | R1];
    [left; exists Rook; simpl; auto |].
  destruct (String.eqb_spec (toLowerCase x) "rook") as [-> | R2];
    [left; exists Rook; simpl; auto |].
  destruct (String.eqb_spec (toLowerCase x) "b") as [-> | B1];
    [left; exists Bishop; simpl; auto |].
  destruct (String.eqb_spec (toLowerCase x) "bishop") as [-> | B2];
    [left; exists Bishop; simpl; auto |].
  destruct (String.eqb_spec (toLowerCase x) "n") as [-> | N1];
    [left; exists Knight; simpl; auto |].
  destruct (String.eqb_spec (toLowerCase x) "knight") as [-> | N2];
    [left; exists Knight; simpl; auto |].
  right. split; [reflexivity |]. intros []; simpl; auto.
Qed.

Lemma pieceName_token {js : JsString} {lower : JsLower}
  (laws : TokenLaws js lower) (t : PieceType) :
  Tokens.pieceName (Tokens.typeToken t) = Tokens.typeWord t /\
  Tokens.pieceName (Tokens.typeWord t) = Tokens.typeWord t.
Proof.
  unfold Tokens.pieceName. cbv zeta.
  destruct t; simpl; rewrite !lower_word by reflexivity; split; reflexivity.
Qed.

Lemma normalizePieceType_cases {js : JsString} {lower : JsLower} (x : string) :
  (exists t, Tokens.pieceName x = Tokens.typeWord t /\
             Tokens.normalizePieceType x = Tokens.typeToken t) \/
  (Tokens.pieceName x = toLowerCase x /\
   Tokens.normalizePieceType x = toLowerCase x /\
   forall t, toLowerCase x <> Tokens.typeToken t /\
             toLowerCase x <> Tokens.typeWord t).
Proof.
  unfold Tokens.normalizePieceType. cbv zeta.
  destruct (pieceName_cases x) as [(t & E & _) | [E N]]; rewrite E.
  - left. exists t. split; [reflexivity |]. now destruct t.
  - right. split; [reflexivity |]. split; [| assumption].
    destruct (String.eqb_spec (toLowerCase x) "king") as [H | _];
      [destruct (N King) as [_ H']; now elim H' |].
    destruct (String.eqb_spec (toLowerCase x) "queen") as [H | _];
      [destruct (N Queen) as [_ H']; now elim H' |].
    destruct (String.eqb_spec (toLowerCase x) "rook") as [H | _];
      [destruct (N Rook) as [_ H']; now elim H' |].
    destruct (String.eqb_spec (toLowerCase x) "bishop") as [H | _];
      [destruct (N Bishop) as [_ H']; now elim H' |].
    destruct (String.eqb_spec (toLowerCase x) "knight") as [H | _];
      [destruct (N Knight) as [_ H']; now elim H' |].
    reflexivity.
Qed.

Lemma normalizePieceType_token {js : JsString} {lower : JsLower}
  (laws : TokenLaws js lower) (t : PieceType) :
  Tokens.normalizePieceType (Tokens.typeToken t) = Tokens.typeToken t /\
  Tokens.normalizePieceType (Tokens.typeWord t) = Tokens.typeToken t.
Proof.
  unfold Tokens.normalizePieceType. cbv zeta.
  destruct (pieceName_token laws t) as [-> ->]. now destruct t.
Qed.

(** X22.  The normalisers are idempotent on every text: a colour, a piece
    name or a piece type that has been normalised is left as it is.
    [oppositeColor] answers a normalised colour, and applied twice it is
    [normalizeColor]: it swaps the two colours and leaves any other text in
    its normal form. *)
Theorem normalizers_idempotent {js : JsString} {lower : JsLower}
  (laws : TokenLaws js lower) (x : string) :
  Tokens.normalizeColor (Tokens.normalizeColor x) = Tokens.normalizeColor x /\
  Tokens.pieceName (Tokens.pieceName x) = Tokens.pieceName x /\
  Tokens.normalizePieceType (Tokens.normalizePieceType x)
    = Tokens.normalizePieceType x /\
  Tokens.normalizeColor (Tokens.oppositeColor x) = Tokens.oppositeColor x /\
  Tokens.oppositeColor (Tokens.oppositeColor x) = Tokens.normalizeColor x.
Proof.
  split; [apply normalizeColor_idempotent, laws |].
  split; [| split; [| split]].
  - destruct (pieceName_cases x) as [(t & -> & _) | [E N]].
    + apply pieceName_token, laws.
    + rewrite E.
      destruct (pieceName_cases (toLowerCase x)) as [(t & _ & H) | [E' _]].
      * rewrite lower_twice in H. destruct (N t). tauto.
      * rewrite E'. apply lower_twice.
  - destruct (normalizePieceType_cases x) as [(t & _ & ->) | (_ & E & N)].
    + apply normalizePieceType_token, laws.
    + rewrite E.
      destruct (normalizePieceType_cases (toLowerCase x))
        as [(t & H & _) | (_ & E' & _)].
      * destruct (pieceName_cases (toLowerCase x)) as [(t' & _ & H') | [E' _]].
        -- rewrite lower_twice in H'. destruct (N t'). tauto.
        -- rewrite lower_twice in E'. rewrite E' in H. destruct (N t). tauto.
      * rewrite E'. apply lower_twice.
  - destruct (oppositeColor_cases x) as [(c & _ & ->) | [_ ->]].
    + apply normalizeColor_token, laws.
    + apply normalizeColor_idempotent, laws.
  - destruct (oppositeColor_cases x) as [(c & E & ->) | [N E]].
    + destruct (oppositeColor_token laws (oppositeColor c)) as [-> _].
      now rewrite oppositeColor_involutive, E.
    + rewrite E.
      destruct (oppositeColor_cases (Tokens.normalizeColor x))
        as [(c & H & _) | [_ ->]].
      * rewrite (normalizeColor_idempotent laws) in H. now elim (N c).
      * apply normalizeColor_idempotent, laws.
Qed.

(** X23.  The texts the program writes for colours and piece types are in
    normal form and correspond to the constructors of [Color] and
    [PieceType]: the letter and the word of a colour normalise to its letter,
    [oppositeColor] on them is the other colour's letter, the letter and the
    name of a piece type normalise to its letter, [pieceName] gives the name,
    distinct constructors have distinct letters, and the asset path is built
    from the name and the letter. *)
Theorem tokens_agree_with_enums {js : JsString} {lower : JsLower}
  (laws : TokenLaws js lower) (c : Color) (t : PieceType) :
  (Tokens.normalizeColor (Tokens.colorToken c) = Tokens.colorToken c /\
   Tokens.normalizeColor (Tokens.colorWord c) = Tokens.colorToken c) /\
  (Tokens.oppositeColor (Tokens.colorToken c) = Tokens.colorToken (oppositeColor c) /\
   Tokens.oppositeColor (Tokens.colorWord c) = Tokens.colorToken (oppositeColor c)) /\
  (Tokens.normalizePieceType (Tokens.typeToken t) = Tokens.typeToken t /\
   Tokens.normalizePieceType (Tokens.typeWord t) = Tokens.typeToken t) /\
  (Tokens.pieceName (Tokens.typeToken t) = Tokens.typeWord t /\
   Tokens.pieceName (Tokens.typeWord t) = Tokens.typeWord t) /\
  (forall c', Tokens.colorToken c = Tokens.colorToken c' -> c = c') /\
  (forall t', Tokens.typeToken t = Tokens.typeToken t' -> t = t') /\
  Tokens.getPieceAssetPath (Tokens.typeWord t) (Tokens.colorToken c)
    = ("asset/" ++ Tokens.typeWord t ++ "-" ++ Tokens.colorToken c ++ ".svg")%string.
Proof.
  split; [apply normalizeColor_token, laws |].
  split; [apply oppositeColor_token, laws |].
  split; [apply normalizePieceType_token, laws |].
  split; [apply pieceName_token, laws |].
  split; [intros c'; destruct c, c'; simpl; congruence |].
  split; [intros t'; destruct t, t'; simpl; congruence |].
  unfold Tokens.getPieceAssetPath. cbv zeta.
  destruct (normalizeColor_token laws c) as [-> _].
  now rewrite (lower_token laws) by (now destruct t).
Qed.

(** The ASCII instance satisfies the laws. *)

Lemma lowerLetter_plain (c : ascii) :
  isLowerLetter c = true -> isBlank c = false /\ asciiLower c = c.
Proof.
  destruct c as [[] [] [] [] [] [] [] []]; intros H; try discriminate H;
    split; reflexivity.
Qed.

Lemma asciiLower_twice (c : ascii) : asciiLower (asciiLower c) = asciiLower c.
Proof. destruct c as [[] [] [] [] [] [] [] []]; reflexivity. Qed.

Lemma asciiLower_blank (c : ascii) : isBlank (asciiLower c) = isBlank c.
Proof. destruct c as [[] [] [] [] [] [] [] []]; reflexivity. Qed.

Lemma trimEnd_word (s : string) : isLowerWord s = true -> trimEnd s = s.
Proof.
  induction s as [| c s IH]; simpl; [reflexivity |]. intros H.
  apply andb_prop in H. destruct H as [Hc Hs]. rewrite (IH Hs).
  destruct (lowerLetter_plain c Hc) as [B _]. rewrite B. now destruct s.
Qed.

Lemma trimEnd_twice (s : string) : trimEnd (trimEnd s) = trimEnd s.
Proof.
  induction s as [| c s IH]; [reflexivity |].
  cbn [trimEnd]. destruct (trimEnd s) as [| c' t] eqn:E.
  - destruct (isBlank c) eqn:B; [reflexivity |]. cbn [trimEnd]. now rewrite B.
  - change (trimEnd (String c (String c' t)))
      with (match trimEnd (String c' t) with
            | EmptyString => if isBlank c then EmptyString else String c EmptyString
            | String a u => String c (String a u)
            end).
    now rewrite IH.
Qed.

Lemma trimStart_trimmed (s : string) :
  trimStart (trimEnd (trimStart s)) = trimEnd (trimStart s).
Proof.
  induction s as [| c s IH]; [reflexivity |].
  cbn [trimStart]. destruct (isBlank c) eqn:B; [exact IH |].
  cbn [trimEnd]. destruct (trimEnd s); rewrite ?B; cbn [trimStart]; now rewrite B.
Qed.

Lemma trimStart_lower (s : string) :
  trimStart (mapString asciiLower s) = mapString asciiLower (trimStart s).
Proof.
  induction s as [| c s IH]; [reflexivity |].
  cbn [mapString trimStart]. rewrite asciiLower_blank.
  now destruct (isBlank c).
Qed.

Lemma trimEnd_lower (s : string) :
  trimEnd (mapString asciiLower s) = mapString asciiLower (trimEnd s).
Proof.
  induction s as [| c s IH]; [reflexivity |].
  cbn [mapString trimEnd]. rewrite IH, asciiLower_blank.
  destruct (trimEnd s); [now destruct (isBlank c) | reflexivity].
Qed.

Lemma asciiToken_laws : TokenLaws asciiJs asciiLowerJs.
Proof.
  split; cbn [trim toLowerCase asciiJs asciiLowerJs].
  - induction s as [| c s IH]; simpl; [reflexivity |]. intros H.
    apply andb_prop in H. destruct H as [Hc Hs].
    destruct (lowerLetter_plain c Hc) as [_ ->]. now rewrite (IH Hs).
  - intros s H. destruct s as [| c s]; [reflexivity |].
    pose proof H as H'. simpl in H'. apply andb_prop in H'.
    destruct (lowerLetter_plain c (proj1 H')) as [B _].
    cbn [trimStart]. rewrite B. now apply trimEnd_word.
  - induction s as [| c s IH]; simpl; [reflexivity |].
    now rewrite asciiLower_twice, IH.
  - intros s. rewrite trimStart_lower, trimEnd_lower, trimStart_trimmed.
    now rewrite trimEnd_twice.
Qed.

(** * The further properties at work *)

Lemma guarded_playable :
  @playable asciiJs size4 {| board := guarded; turn := White |}.
Proof.
  unfold playable. simpl board. simpl turn.
  split; [repeat constructor; eexists; reflexivity |].
  split; [repeat constructor; simpl; intuition discriminate |].
  repeat split; vm_compute; reflexivity.
Qed.

Lemma parseSquare_in_bounds_witness :
  exists s,
    @parseSquare asciiJs size4 " b3 " = Some s /\
    In (file s) (FILES size4) /\ In (rank s) (RANKS size4) /\
    0 <= fileIndex s < Z.of_nat (List.length (FILES size4)) /\
    toSquare size4 (fileIndex s) (rank s)
    = Some (file s ++ numberToString (rank s))%string.
Proof.
  eexists. split; [vm_compute; reflexivity |].
  apply (@parseSquare_in_bounds asciiJs size4 " b3 "). vm_compute. reflexivity.
Defined.

Lemma kingTargets_are_adjacent_squares_witness :
  In "B2" (@kingTargets asciiJs size4 "A1") <->
  (exists fi r, toSquare size4 fi r = Some "B2") /\
  @squaresAreAdjacent asciiJs size4 "A1" "B2" = true.
Proof.
  apply (@kingTargets_are_adjacent_squares asciiJs asciiJs_laws 4 size4 "A1"
           {| file := "A"; rank := 1; fileIndex := 0 |} "B2");
    [reflexivity | vm_compute; reflexivity].
Defined.

Lemma knightTargets_are_leaps_witness :
  (In "B3" (@knightTargets asciiJs size4 "A1") <->
   exists df dr,
     (Z.abs df = 1 /\ Z.abs dr = 2 \/ Z.abs df = 2 /\ Z.abs dr = 1) /\
     toSquare size4 (0 + df) (1 + dr) = Some "B3") /\
  (In "B3" (@knightTargets asciiJs size4 "A1") ->
   @squaresAreAdjacent asciiJs size4 "A1" "B3" = false).
Proof.
  apply (@knightTargets_are_leaps asciiJs asciiJs_laws 4 size4 "A1"
           {| file := "A"; rank := 1; fileIndex := 0 |} "B3");
    [reflexivity | vm_compute; reflexivity].
Defined.

Lemma pseudo_moves_sound_witness :
  (@parseSquare asciiJs size4 "D1" = None -> ["C1"; "B1"; "D2"; "D3"; "D4"] = []) /\
  forall q, In q ["C1"; "B1"; "D2"; "D3"; "D4"] ->
    notOwn guarded White q = true /\
    exists s df dr,
      @parseSquare asciiJs size4 "D1" = Some s /\ (df <> 0 \/ dr <> 0) /\
      toSquare size4 (fileIndex s + df) (rank s + dr) = Some q.
Proof.
  apply (@pseudo_moves_sound asciiJs size4 whiteRook "D1" guarded).
  vm_compute. reflexivity.
Defined.

Lemma legal_move_takes_no_king_witness :
  (exists cand, @pseudoMovesForPiece asciiJs size4 whiteRook "D1" guarded = Ok cand /\
                In "D2" cand) /\
  notOwn guarded White "D2" = true /\
  forall c, isKingOf c (mapGet guarded "D2") = false.
Proof.
  apply (@legal_move_takes_no_king asciiJs size4 guarded whiteRook "D1" "D2"
           ["C1"; "B1"; "D2"; "D3"; "D4"]);
    [vm_compute; lia | vm_compute; lia | reflexivity | vm_compute; reflexivity |
     simpl; tauto].
Defined.

Lemma allLegalMoves_spec_witness :
  exists l,
    @allLegalMoves asciiJs size4 White guarded = Ok l /\
    forall m, In m l <->
      In (from m, Pc (piece m)) guarded /\ color (piece m) = White /\
      exists legal, @getLegalMoves asciiJs size4 (piece m) (from m) guarded = Ok legal /\
                    In (to m) legal.
Proof.
  eexists. split; [vm_compute; reflexivity |].
  apply (@allLegalMoves_spec asciiJs size4 White guarded). vm_compute. reflexivity.
Defined.

Lemma render_table_witness :
  exists chk moves,
    @isCheck asciiJs size4 Black cornerMate = Ok chk /\
    @allLegalMoves asciiJs size4 Black cornerMate = Ok moves /\
    CheckmateModal White
    = match chk, moves with
      | true, [] => CheckmateModal (oppositeColor Black)
      | false, [] => StalemateModal
      | true, _ :: _ => CheckMessage Black
      | false, _ :: _ => MoveMessage
      end.
Proof.
  apply (@render_table asciiJs size4 {| board := cornerMate; turn := Black |}
           (CheckmateModal White)).
  vm_compute. reflexivity.
Defined.



Lemma findKingSquare_spec_witness :
  exists r, findKingSquare {| board := guarded; turn := White |} Black = Ok r /\
    (r = None <-> kingCount Black guarded = O) /\
    (forall sq, r = Some sq -> In (sq, Pc {| type := King; color := Black |}) guarded) /\
    (r = None ->
     forall sq, findKingSquare
                  (setPieceAt {| board := guarded; turn := White |} sq
                     (Some {| type := King; color := Black |})) Black
                = Ok (Some sq)).
Proof.
  apply (findKingSquare_spec {| board := guarded; turn := White |} Black).
  simpl. repeat constructor; eexists; reflexivity.
Defined.

Lemma handleSquareClick_keeps_playable_witness :
  exists ui' fb,
    @handleSquareClick asciiJs size4 rookSelected "D2" = Ok (ui', fb) /\
    @playable asciiJs size4 (current ui') /\
    ((exists legal, fb = HighlightThrew "D2" legal) <->
     selectedSquare rookSelected = None /\
     exists p legal,
       getPieceAt (current rookSelected) "D2" = Pc p /\
       color p = turn (current rookSelected) /\
       @getLegalMoves asciiJs size4 p "D2" (board (current rookSelected)) = Ok legal /\
       legal <> []) /\
    (forall s legal, fb = HighlightThrew s legal ->
       s = "D2" /\ ui' = select rookSelected (Some "D2")) /\
    ((current ui' = current rookSelected /\ score ui' = score rookSelected) \/
     exists from p legal,
       selectedSquare rookSelected = Some from /\ from <> "D2" /\
       getPieceAt (current rookSelected) from = Pc p /\
       color p = turn (current rookSelected) /\
       @getLegalMoves asciiJs size4 p from (board (current rookSelected)) = Ok legal /\
       In "D2" legal /\
       ui' = {| current := {| board := applyMove (board (current rookSelected)) from "D2";
                              turn := oppositeColor (turn (current rookSelected)) |};
                selectedSquare := None;
                score := score rookSelected + 1 |}).
Proof.
  apply (@handleSquareClick_keeps_playable asciiJs size4 rookSelected "D2").
  exact guarded_playable.
Defined.

Lemma clicks_keep_playable_witness :
  exists ui',
    @clicks asciiJs size4 freshGame ["D1"; "D2"] = Ok ui' /\
    @playable asciiJs size4 (current ui') /\
    score freshGame <= score ui'
      <= score freshGame + Z.of_nat (List.length ["D1"; "D2"]) /\
    turn (current ui')
      = (if Z.even (score ui' - score freshGame) then turn (current freshGame)
         else oppositeColor (turn (current freshGame))) /\
    (score ui' = score freshGame -> current ui' = current freshGame) /\
    (pieceCount (board (current ui')) <= pieceCount (board (current freshGame)))%nat.
Proof.
  apply (@clicks_keep_playable asciiJs size4 ["D1"; "D2"] freshGame).
  exact guarded_playable.
Defined.

Lemma select_then_move_witness :
  @handleSquareClick asciiJs size4 freshGame "D1"
    = Ok (select freshGame (Some "D1"),
          HighlightThrew "D1" ["C1"; "B1"; "D2"; "D3"; "D4"]) /\
  exists d,
    @handleSquareClick asciiJs size4 (select freshGame (Some "D1")) "D2"
      = Ok ({| current := {| board := applyMove (board (current freshGame)) "D1" "D2";
                             turn := oppositeColor (turn (current freshGame)) |};
               selectedSquare := None;
               score := score freshGame + 1 |}, Moved d) /\
    @clicks asciiJs size4 freshGame ["D1"; "D2"]
      = Ok {| current := {| board := applyMove (board (current freshGame)) "D1" "D2";
                            turn := oppositeColor (turn (current freshGame)) |};
              selectedSquare := None;
              score := score freshGame + 1 |}.
Proof.
  apply (@select_then_move asciiJs size4 freshGame "D1" "D2" whiteRook
           ["C1"; "B1"; "D2"; "D3"; "D4"]);
    [exact guarded_playable | reflexivity | reflexivity | reflexivity |
     vm_compute; reflexivity | simpl; tauto].
Defined.

Lemma createBoardFrame_squares_witness :
  (forall e, In e (createBoardFrame size5) <->
     exists fi r, toSquare size5 fi r = Some (dataSquare e) /\
                  dark e = isDarkSquare fi r) /\
  Z.of_nat (List.length (createBoardFrame size5)) = 5 * 5 /\
  NoDup (map dataSquare (createBoardFrame size5)) /\
  option_map dataSquare (hd_error (createBoardFrame size5)) = toSquare size5 0 5 /\
  option_map dataSquare (hd_error (rev (createBoardFrame size5)))
    = toSquare size5 (5 - 1) 1.
Proof.
  apply (createBoardFrame_squares 5 size5). reflexivity.
Defined.


Lemma bishop_keeps_knight_flips_witness :
  exists s',
    @parseSquare asciiJs size4 "B2" = Some s' /\
    (type blackBishop = Bishop ->
     isDarkSquare (fileIndex s') (rank s') = isDarkSquare 0 3) /\
    (type blackBishop = Knight ->
     isDarkSquare (fileIndex s') (rank s') = negb (isDarkSquare 0 3)).
Proof.
  apply (@bishop_keeps_knight_flips asciiJs asciiJs_laws 4 size4 blackBishop "A3"
           rookA1 ["B4"; "B2"; "C1"] "B2"
           {| file := "A"; rank := 3; fileIndex := 0 |});
    [reflexivity | vm_compute; reflexivity | vm_compute; reflexivity | simpl; tauto].
Defined.

Lemma normalizers_idempotent_witness :
  @Tokens.normalizeColor asciiJs asciiLowerJs
    (@Tokens.normalizeColor asciiJs asciiLowerJs " White ")
    = @Tokens.normalizeColor asciiJs asciiLowerJs " White " /\
  @Tokens.pieceName asciiLowerJs (@Tokens.pieceName asciiLowerJs " White ")
    = @Tokens.pieceName asciiLowerJs " White " /\
  @Tokens.normalizePieceType asciiLowerJs
    (@Tokens.normalizePieceType asciiLowerJs " White ")
    = @Tokens.normalizePieceType asciiLowerJs " White " /\
  @Tokens.normalizeColor asciiJs asciiLowerJs
    (@Tokens.oppositeColor asciiJs asciiLowerJs " White ")
    = @Tokens.oppositeColor asciiJs asciiLowerJs " White " /\
  @Tokens.oppositeColor asciiJs asciiLowerJs
    (@Tokens.oppositeColor asciiJs asciiLowerJs " White ")
    = @Tokens.normalizeColor asciiJs asciiLowerJs " White ".
Proof.
  exact (@normalizers_idempotent asciiJs asciiLowerJs asciiToken_laws " White ").
Defined.

Lemma tokens_agree_with_enums_witness :
  (@Tokens.normalizeColor asciiJs asciiLowerJs "b" = "b" /\
   @Tokens.normalizeColor asciiJs asciiLowerJs "black" = "b") /\
  (@Tokens.oppositeColor asciiJs asciiLowerJs "b" = "w" /\
   @Tokens.oppositeColor asciiJs asciiLowerJs "black" = "w") /\
  (@Tokens.normalizePieceType asciiLowerJs "n" = "n" /\
   @Tokens.normalizePieceType asciiLowerJs "knight" = "n") /\
  (@Tokens.pieceName asciiLowerJs "n" = "knight" /\
   @Tokens.pieceName asciiLowerJs "knight" = "knight") /\
  (forall c', "b" = Tokens.colorToken c' -> Black = c') /\
  (forall t', "n" = Tokens.typeToken t' -> Knight = t') /\
  @Tokens.getPieceAssetPath asciiJs asciiLowerJs "knight" "b" = "asset/knight-b.svg".
Proof.
  exact (@tokens_agree_with_enums asciiJs asciiLowerJs asciiToken_laws Black Knight).
Defined.
